(** * fx-opti: Markowitz optimisers for three assets and a two-currency hedge

    A shallow embedding of [markowitz_optimizer.py] and
    [portfolio_optimizer.py] together with the properties their
    specification states about them.

    The programs compute with Python floats and NumPy arrays.  Their code is
    embedded once, over an interface [Float64] of the float operations it
    uses, and read at two instances:

    - [XReal.ops]: exact real arithmetic extended with the IEEE special
      values ([+inf], [-inf], [NaN]); no rounding, no overflow.  This is the
      arithmetic the specification calls "real arithmetic"; general theorems
      are stated here.
    - [B64.ops]: IEEE-754 binary64 as the kernel's primitive floats; the
      code runs here on concrete inputs.

    NumPy and the Python runtime are not part of the repository; the
    functions used by the source ([np.asarray], [@], [np.allclose],
    [np.linspace], [np.linalg.solve], [np.linalg.inv], [round], [max],
    [math.sqrt]) are modelled after their documented behaviour in the module
    [Np] and section [Python].  Sums run from the first index upwards and
    the LAPACK routines are a plain LU factorisation with partial pivoting:
    in binary64 the order of the roundings inside BLAS and LAPACK may differ
    from the model's, in exact arithmetic it does not matter. *)

From Stdlib Require Import String.
From Stdlib Require Import Reals Floats ZArith Lia Lra Bool List.
From Stdlib Require Import Sorting.Sorted.
Import ListNotations.

(* ================================================================== *)
(** * Python exceptions and the result monad *)
(* ================================================================== *)

Inductive exn : Type :=
| ValueError (msg : string)
| TypeError (msg : string)
| OverflowError (msg : string)
| LinAlgError (msg : string).

Inductive result (A : Type) : Type :=
| Ok (a : A)
| Raise (e : exn).

Arguments Ok {A} a.
Arguments Raise {A} e.

Definition bind {A B : Type} (c : result A) (k : A -> result B) : result B :=
  match c with
  | Ok a => k a
  | Raise e => Raise e
  end.

Declare Scope py_scope.
Delimit Scope py_scope with py.
Notation "x <- c ;; k" := (bind c (fun x => k))
  (at level 61, c at next level, right associativity) : py_scope.
Notation "' pat <- c ;; k" := (bind c (fun x => match x with pat => k end))
  (at level 61, pat pattern, c at next level, right associativity) : py_scope.

(** [try: c  except LinAlgError as exc: raise e' from exc] *)
Definition except_LinAlgError {A : Type} (c : result A) (e' : exn) : result A :=
  match c with
  | Raise (LinAlgError _) => Raise e'
  | other => other
  end.

(** A [for x in xs:] loop whose body updates the loop state [s] and may
    raise. *)
Fixpoint for_each {A S : Type} (xs : list A) (s : S)
    (body : S -> A -> result S) : result S :=
  match xs with
  | [] => Ok s
  | x :: xs' => bind (body s x) (fun s' => for_each xs' s' body)
  end.

(** The messages of the source's [raise ValueError(...)] statements. *)
Definition msg_mu_shape : string :=
  "mu must be a length-3 vector (expected returns for 3 assets).".
Definition msg_cov_shape : string := "cov must be a 3x3 covariance matrix.".
Definition msg_cov_symmetric : string := "cov must be symmetric.".
Definition msg_singular : string :=
  "cov is singular or ill-conditioned; cannot solve analytically.".
Definition msg_degenerate : string :=
  "Degenerate solution: normalization denominator is ~0.".
Definition msg_grid_size : string := "grid_size must be >= 3".

(** The specification's error kinds.  The source raises [ValueError] for
    every one of them and tells them apart by message only. *)
Definition ShapeError (e : exn) : Prop :=
  e = ValueError msg_mu_shape \/ e = ValueError msg_cov_shape.
Definition SymmetryError (e : exn) : Prop := e = ValueError msg_cov_symmetric.
Definition SingularCovarianceError (e : exn) : Prop := e = ValueError msg_singular.
Definition DegenerateNormalizationError (e : exn) : Prop :=
  e = ValueError msg_degenerate.
Definition InvalidResolutionError (e : exn) : Prop := e = ValueError msg_grid_size.

(* ================================================================== *)
(** * The float interface *)
(* ================================================================== *)

(** The operations on Python [float] / [np.float64] values that the source
    uses.  Comparisons are the IEEE ones: every comparison with a NaN is
    [false]. *)
Class Float64 (F : Type) : Type := {
  of_Z : Z -> F;                (* int -> float conversion *)
  add : F -> F -> F;
  sub : F -> F -> F;
  mul : F -> F -> F;
  div : F -> F -> F;            (* NumPy division: x/0 is inf or nan *)
  opp : F -> F;
  fabs : F -> F;
  fsqrt : F -> F;               (* np.sqrt: nan on a negative argument *)
  ltb : F -> F -> bool;
  leb : F -> F -> bool;
  eqb : F -> F -> bool;
  neg_inf : F;                  (* -np.inf *)
  isfinite : F -> bool;
  round_int : F -> option Z     (* round(x): half to even; None on nan, inf *)
}.

Section Python.
Context {F : Type} {ops : Float64 F}.

Definition gtb (a b : F) : bool := ltb b a.

(** A decimal float literal [m]e[e], such as [1e-10].  For the literals of
    the source ([|m| < 2^53], [10^|e| <= 10^22]) both operands of the
    division are exact, so the quotient is the correctly rounded value of
    the literal. *)
Definition lit (m e : Z) : F :=
  if (0 <=? e)%Z then of_Z (m * 10 ^ e) else div (of_Z m) (of_Z (10 ^ (- e))).

Definition f0 : F := of_Z 0.
Definition f1 : F := of_Z 1.

(** [x ** 2] on a Python float.  The power of two finite floats that is
    not finite raises [OverflowError]; the square of an infinity or of a
    NaN is returned as it is.  The value is taken as [x * x]. *)
Definition msg_pow_overflow : string := "(34, 'Numerical result out of range')".

Definition pow2_overflows (x : F) : bool :=
  isfinite x && negb (isfinite (mul x x)).

Definition float_pow2 (x : F) : result F :=
  if pow2_overflows x then Raise (OverflowError msg_pow_overflow) else Ok (mul x x).

(** [max(a, b)]: the first argument unless the second is greater. *)
Definition py_max (a b : F) : F := if gtb b a then b else a.

(** [int(round(x))] *)
Definition py_round (x : F) : result Z :=
  match round_int x with
  | Some z => Ok z
  | None =>
      if eqb x x
      then Raise (OverflowError "cannot convert float infinity to integer")
      else Raise (ValueError "cannot convert float NaN to integer")
  end.

(** [math.sqrt(x)]: raises on a negative argument, unlike [np.sqrt]. *)
Definition math_sqrt (x : F) : result F :=
  if ltb x f0 then Raise (ValueError "math domain error") else Ok (fsqrt x).
End Python.

(* ================================================================== *)
(** * NumPy *)
(* ================================================================== *)

Module Np.
Section Np.
Context {F : Type} {ops : Float64 F}.

(** An array of floats: its shape and its entries in row-major order. *)
Record ndarray : Type := { shape : list nat; data : list F }.

Definition wf (a : ndarray) : Prop :=
  length (data a) = fold_right Nat.mul 1%nat (shape a).

Definition shape_eqb (s t : list nat) : bool :=
  if list_eq_dec Nat.eq_dec s t then true else false.

(** [np.array([x0, ..., xn])] and [np.array([[...], ..., [...]])] on
    rectangular input. *)
Definition array1 (xs : list F) : ndarray :=
  {| shape := [length xs]; data := xs |}.
Definition array2 (rows : list (list F)) : ndarray :=
  {| shape := [length rows; length (hd [] rows)]; data := concat rows |}.
Definition scalar (x : F) : ndarray := {| shape := []; data := [x] |}.

Definition ones (n : nat) : ndarray := array1 (repeat f1 n).

(** [a[i]] and [a[i, j]], on indices within the shape. *)
Definition get1 (a : ndarray) (i : nat) : F := nth i (data a) f0.
Definition get2 (a : ndarray) (i j : nat) : F :=
  nth (i * nth 1 (shape a) 0 + j)%nat (data a) f0.

(** [float(a)] on an array. *)
Definition py_float (a : ndarray) : result F :=
  match data a with
  | [x] => Ok x
  | _ => Raise (TypeError "only length-1 arrays can be converted to Python scalars")
  end.

(** [a.T]: the transpose of a matrix; an array of lower rank is its own
    transpose.  (The source transposes [cov] after the check of its shape;
    the reversal of the axes of an array of higher rank is not modelled.) *)
Definition T (a : ndarray) : ndarray :=
  match shape a with
  | [r; c] =>
      {| shape := [c; r];
         data := flat_map (fun j => map (fun i => get2 a i j) (seq 0 r)) (seq 0 c) |}
  | _ => a
  end.

(** Sum of [term k] for [k < n], accumulated from [0.0] upwards. *)
Definition sum_upto (n : nat) (term : nat -> F) : F :=
  fold_left (fun acc k => add acc (term k)) (seq 0 n) f0.

Definition msg_matmul : string := "matmul: Input operand has a mismatch in its core dimension".

(** [a @ b] for operands of rank one and two. *)
Definition matmul (a b : ndarray) : result ndarray :=
  match shape a, shape b with
  | [n], [m] =>
      if Nat.eqb n m
      then Ok (scalar (sum_upto n (fun k => mul (get1 a k) (get1 b k))))
      else Raise (ValueError msg_matmul)
  | [n], [m; c] =>
      if Nat.eqb n m
      then Ok {| shape := [c];
                 data := map (fun j => sum_upto n (fun k => mul (get1 a k) (get2 b k j)))
                             (seq 0 c) |}
      else Raise (ValueError msg_matmul)
  | [r; n], [m] =>
      if Nat.eqb n m
      then Ok {| shape := [r];
                 data := map (fun i => sum_upto n (fun k => mul (get2 a i k) (get1 b k)))
                             (seq 0 r) |}
      else Raise (ValueError msg_matmul)
  | [r; n], [m; c] =>
      if Nat.eqb n m
      then Ok {| shape := [r; c];
                 data := flat_map (fun i => map (fun j =>
                           sum_upto n (fun k => mul (get2 a i k) (get2 b k j)))
                           (seq 0 c)) (seq 0 r) |}
      else Raise (ValueError msg_matmul)
  | _, _ => Raise (ValueError "matmul: operand rank outside the model")
  end.

Definition msg_broadcast : string := "operands could not be broadcast together".

(** Elementwise [a - b] on arrays of one shape (broadcasting between
    different shapes is outside the model). *)
Definition arr_sub (a b : ndarray) : result ndarray :=
  if shape_eqb (shape a) (shape b)
  then Ok {| shape := shape a;
             data := map (fun p => sub (fst p) (snd p)) (combine (data a) (data b)) |}
  else Raise (ValueError msg_broadcast).

(** [x * a] and [a / x] for a scalar [x]. *)
Definition scalar_mul (x : F) (a : ndarray) : ndarray :=
  {| shape := shape a; data := map (mul x) (data a) |}.
Definition div_scalar (a : ndarray) (x : F) : ndarray :=
  {| shape := shape a; data := map (fun y => div y x) (data a) |}.

(** [np.isclose(x, y, rtol, atol)] on one pair of entries: the tolerance
    test when both are finite, equality otherwise. *)
Definition isclose (rtol atol x y : F) : bool :=
  if isfinite x && isfinite y
  then leb (fabs (sub x y)) (add atol (mul rtol (fabs y)))
  else eqb x y.

(** The default [rtol] of [np.allclose]. *)
Definition default_rtol : F := lit 1 (-5).

(** [np.allclose(a, b, atol=atol)] on arrays of one shape; [rtol] keeps
    its default. *)
Definition allclose (a b : ndarray) (atol : F) : bool :=
  forallb (fun p => isclose default_rtol atol (fst p) (snd p))
          (combine (data a) (data b)).

(** [np.linspace(start, stop, num)] (with [endpoint=True]), following
    NumPy's implementation: [arange(0, num) * step + start], the scaling
    done in two steps when the step is zero, and the last point set to
    [stop]. *)
Definition linspace (start stop : F) (num : Z) : result (list F) :=
  if (num <? 0)%Z
  then Raise (ValueError "Number of samples must be non-negative")
  else
    let n := Z.to_nat num in
    let fdiv := of_Z (num - 1) in
    let y := map (fun k => of_Z (Z.of_nat k)) (seq 0 n) in
    let delta := sub stop start in
    let y :=
      if (0 <? num - 1)%Z
      then
        let step := div delta fdiv in
        if eqb step f0
        then map (fun v => mul (div v fdiv) delta) y
        else map (fun v => mul v step) y
      else map (fun v => mul v delta) y in
    let y := map (fun v => add v start) y in
    Ok (if (1 <? num)%Z then removelast y ++ [stop] else y).

(** ** Linear algebra (LAPACK [gesv]: LU with partial pivoting)

    A row of the augmented system is a list of entries; the pivot of a
    column is the first row of largest absolute value, and the
    factorisation reports a singular matrix when a pivot is exactly
    zero. *)

Definition msg_lapack_singular : string := "Singular matrix".

Definition row_sub (l : F) (r p : list F) : list F :=
  map (fun q => sub (fst q) (mul l (snd q))) (combine r p).

(** [idamax] on the leading entries: the index of the first row whose
    leading entry has the largest absolute value ([i] counts the rows
    seen so far). *)
Fixpoint argmax_abs (best : F) (ibest i : nat) (rest : list (list F)) : nat :=
  match rest with
  | [] => ibest
  | r :: rest' =>
      if ltb (fabs best) (fabs (hd f0 r))
      then argmax_abs (hd f0 r) i (S i) rest'
      else argmax_abs best ibest (S i) rest'
  end.

Fixpoint replace_nth (i : nat) (l : list (list F)) (r : list F) : list (list F) :=
  match l, i with
  | [], _ => []
  | _ :: l', O => r :: l'
  | x :: l', S i' => x :: replace_nth i' l' r
  end.

(** The row interchange: the pivot row, and the other rows with the first
    row put where the pivot row stood. *)
Definition pivot (r0 : list F) (rest : list (list F)) : list F * list (list F) :=
  match argmax_abs (hd f0 r0) 0 1 rest with
  | O => (r0, rest)
  | S p => (nth p rest [], replace_nth p rest r0)
  end.

(** Elimination of one column: [None] on a zero pivot, otherwise the
    pivot row and the reduced rows without their leading entry. *)
Definition eliminate (rows : list (list F)) : option (list F * list (list F)) :=
  match rows with
  | [] => None
  | r0 :: rest =>
      let (p, others) := pivot r0 rest in
      let a := hd f0 p in
      if eqb a f0 then None
      else Some (p, map (fun r => tl (row_sub (div (hd f0 r) a) r p)) others)
  end.

(** Forward elimination of [n] columns to upper-triangular rows. *)
Fixpoint lu (n : nat) (rows : list (list F)) : option (list (list F)) :=
  match n with
  | O => Some []
  | S n' =>
      match eliminate rows with
      | None => None
      | Some (p, rows') =>
          match lu n' rows' with
          | None => None
          | Some us => Some (p :: us)
          end
      end
  end.

(** Back substitution on the triangular rows [u_kk ... u_k,n-1 | y_k]. *)
Fixpoint back_subst (us : list (list F)) : list F :=
  match us with
  | [] => []
  | u :: us' =>
      let xs := back_subst us' in
      let coeffs := removelast (tl u) in
      let y := last u f0 in
      let s := fold_left (fun acc q => sub acc (mul (fst q) (snd q)))
                         (combine coeffs xs) y in
      div s (hd f0 u) :: xs
  end.

Definition rows_of (n c : nat) (a : ndarray) : list (list F) :=
  map (fun i => map (fun j => nth (i * c + j)%nat (data a) f0) (seq 0 c)) (seq 0 n).

(** [np.linalg.solve(a, b)] for a square matrix [a] and a vector [b]. *)
Definition linalg_solve (a b : ndarray) : result ndarray :=
  match shape a, shape b with
  | [n; m], [k] =>
      if Nat.eqb n m && Nat.eqb n k
      then
        let rows := map (fun i => nth i (rows_of n n a) [] ++ [get1 b i]) (seq 0 n) in
        match lu n rows with
        | None => Raise (LinAlgError msg_lapack_singular)
        | Some us => Ok (array1 (back_subst us))
        end
      else Raise (LinAlgError "solve: shapes outside the model")
  | _, _ => Raise (LinAlgError "solve: shapes outside the model")
  end.

(** [np.linalg.inv(a)]: [gesv] against the identity, column by column on
    one factorisation. *)
Definition linalg_inv (a : ndarray) : result ndarray :=
  match shape a with
  | [n; m] =>
      if Nat.eqb n m
      then
        let unit i := map (fun j => if Nat.eqb i j then f1 else f0) (seq 0 n) in
        let rows := map (fun i => nth i (rows_of n n a) [] ++ unit i) (seq 0 n) in
        let solve_col j :=
          match lu n (map (fun r => firstn n r ++ [nth (n + j) r f0]) rows) with
          | None => None
          | Some us => Some (back_subst us)
          end in
        match solve_col 0%nat with
        | None => Raise (LinAlgError msg_lapack_singular)
        | Some _ =>
            let cols := map (fun j => match solve_col j with
                                      | Some c => c | None => [] end) (seq 0 n) in
            Ok {| shape := [n; n];
                  data := flat_map (fun i => map (fun c => nth i c f0) cols) (seq 0 n) |}
        end
      else Raise (LinAlgError "Last 2 dimensions of the array must be square")
  | _ => Raise (LinAlgError "inv: shapes outside the model")
  end.
End Np.
End Np.

Import Np.
Local Open Scope py_scope.

(* ================================================================== *)
(** * markowitz_optimizer.py *)
(* ================================================================== *)

Module Markowitz.
Section Markowitz.
Context {F : Type} {ops : Float64 F}.

Record MarkowitzResult : Type := {
  weights : ndarray (F := F);
  expected_return : F;
  volatility : F;
  sharpe_ratio : F
}.

(** [np.asarray(x, dtype=float)] on an array of floats. *)
Definition asarray (a : ndarray (F := F)) : ndarray := a.

Definition _validate_inputs (mu cov : ndarray) : result (ndarray * ndarray) :=
  let mu := asarray mu in
  let cov := asarray cov in
  if negb (shape_eqb (shape mu) [3%nat])
  then Raise (ValueError msg_mu_shape)
  else if negb (shape_eqb (shape cov) [3%nat; 3%nat])
  then Raise (ValueError msg_cov_shape)
  else if negb (allclose cov (T cov) (lit 1 (-10)))
  then Raise (ValueError msg_cov_symmetric)
  else Ok (mu, cov).

Definition portfolio_stats (weights mu cov : ndarray) (rf : F)
    : result MarkowitzResult :=
  let w := asarray weights in
  exp_ret <- bind (matmul w mu) py_float ;;
  wc <- matmul w cov ;;
  var <- bind (matmul wc w) py_float ;;
  let vol := fsqrt var in
  let sharpe := if leb vol f0 then neg_inf else div (sub exp_ret rf) vol in
  Ok {| weights := w;
        expected_return := exp_ret;
        volatility := vol;
        sharpe_ratio := sharpe |}.

Definition optimize_sharpe_unconstrained (mu cov : ndarray) (rf : F)
    : result MarkowitzResult :=
  '(mu, cov) <- _validate_inputs mu cov ;;
  let ones := ones 3 in
  excess <- arr_sub mu (scalar_mul rf ones) ;;
  raw <- except_LinAlgError (linalg_solve cov excess) (ValueError msg_singular) ;;
  denom <- bind (matmul ones raw) py_float ;;
  if ltb (fabs denom) (lit 1 (-14))
  then Raise (ValueError msg_degenerate)
  else
    let w := div_scalar raw denom in
    portfolio_stats w mu cov rf.

(** The body of the inner loop: one candidate against the best so far. *)
Definition keep_best (best stats : MarkowitzResult) : MarkowitzResult :=
  if gtb (sharpe_ratio stats) (sharpe_ratio best) then stats else best.

Definition optimize_sharpe_long_only (mu cov : ndarray) (rf : F) (grid_size : Z)
    : result MarkowitzResult :=
  '(mu, cov) <- _validate_inputs mu cov ;;
  if (grid_size <? 3)%Z
  then Raise (ValueError msg_grid_size)
  else
    let best := {| weights := array1 [f1; f0; f0];
                   expected_return := get1 mu 0;
                   volatility := fsqrt (get2 cov 0 0);
                   sharpe_ratio := neg_inf |} in
    grid <- linspace f0 f1 grid_size ;;
    for_each grid best (fun best w1 =>
      let max_w2 := sub f1 w1 in
      r <- py_round (mul max_w2 (of_Z (grid_size - 1))) ;;
      let n2 := Z.max 2 (r + 1) in
      w2_values <- linspace f0 max_w2 n2 ;;
      for_each w2_values best (fun best w2 =>
        let w3 := sub (sub f1 w1) w2 in
        let w := array1 [w1; w2; w3] in
        stats <- portfolio_stats w mu cov rf ;;
        Ok (keep_best best stats))).

Definition optimize_sharpe (mu cov : ndarray) (rf : F) (long_only : bool)
    (grid_size : Z) : result MarkowitzResult :=
  if long_only
  then optimize_sharpe_long_only mu cov rf grid_size
  else optimize_sharpe_unconstrained mu cov rf.
End Markowitz.
End Markowitz.

(* ================================================================== *)
(** * portfolio_optimizer.py *)
(* ================================================================== *)

Module FX.
Section FX.
Context {F : Type} {ops : Float64 F}.

(** The covariance matrix both functions build from the two volatilities
    and the correlation of the quoted pairs.  The two squares are the only
    operations of it that can raise; the products overflow to an infinity
    silently. *)
Definition cov_matrix (vol_eurusd vol_usdjpy corr_eurusd_usdjpy : F)
    : result ndarray :=
  let sigma_eur := vol_eurusd in
  let sigma_jpy := vol_usdjpy in
  let corr_eur_jpy := opp corr_eurusd_usdjpy in
  var_eur <- float_pow2 sigma_eur ;;
  var_jpy <- float_pow2 sigma_jpy ;;
  Ok (array2 [[var_eur; mul (mul corr_eur_jpy sigma_eur) sigma_jpy];
              [mul (mul corr_eur_jpy sigma_eur) sigma_jpy; var_jpy]]).

Definition min_variance_weights (vol_eurusd vol_usdjpy corr_eurusd_usdjpy : F)
    : result (F * F) :=
  cov <- cov_matrix vol_eurusd vol_usdjpy corr_eurusd_usdjpy ;;
  let ones := ones 2 in
  inv_cov <- linalg_inv cov ;;
  num <- matmul inv_cov ones ;;
  den <- bind (bind (matmul ones inv_cov) (fun v => matmul v ones)) py_float ;;
  let weights := div_scalar num den in
  Ok (get1 weights 0, get1 weights 1).

Definition portfolio_volatility
    (weight_eur weight_jpy vol_eurusd vol_usdjpy corr_eurusd_usdjpy : F)
    : result F :=
  cov <- cov_matrix vol_eurusd vol_usdjpy corr_eurusd_usdjpy ;;
  let w := array1 [weight_eur; weight_jpy] in
  var <- bind (bind (matmul w cov) (fun v => matmul v w)) py_float ;;
  math_sqrt (py_max var f0).
End FX.
End FX.

(* ================================================================== *)
(** * Exact arithmetic with the IEEE special values *)
(* ================================================================== *)

Module XReal.
Inductive xreal : Type :=
| Fin (r : R)
| PInf
| NInf
| NaN.

Definition Rltb (a b : R) : bool := if Rlt_dec a b then true else false.
Definition Rleb (a b : R) : bool := if Rle_dec a b then true else false.
Definition Reqb (a b : R) : bool := if Req_dec_T a b then true else false.

(** The infinity of the sign of [r]; NaN when [r] is zero. *)
Definition signed_inf (r : R) : xreal :=
  if Rlt_dec 0 r then PInf else if Rlt_dec r 0 then NInf else NaN.

Definition xopp (x : xreal) : xreal :=
  match x with
  | Fin a => Fin (- a)
  | PInf => NInf
  | NInf => PInf
  | NaN => NaN
  end.

Definition xadd (x y : xreal) : xreal :=
  match x, y with
  | Fin a, Fin b => Fin (a + b)
  | NaN, _ | _, NaN => NaN
  | PInf, NInf | NInf, PInf => NaN
  | PInf, _ | _, PInf => PInf
  | NInf, _ | _, NInf => NInf
  end.

Definition xsub (x y : xreal) : xreal :=
  match x, y with
  | Fin a, Fin b => Fin (a - b)
  | _, _ => xadd x (xopp y)
  end.

Definition xmul (x y : xreal) : xreal :=
  match x, y with
  | Fin a, Fin b => Fin (a * b)
  | NaN, _ | _, NaN => NaN
  | Fin a, PInf | PInf, Fin a => signed_inf a
  | Fin a, NInf | NInf, Fin a => signed_inf (- a)
  | PInf, PInf | NInf, NInf => PInf
  | PInf, NInf | NInf, PInf => NInf
  end.

Definition xdiv (x y : xreal) : xreal :=
  match x, y with
  | Fin a, Fin b => if Req_dec_T b 0 then signed_inf a else Fin (a / b)
  | NaN, _ | _, NaN => NaN
  | Fin _, PInf | Fin _, NInf => Fin 0
  | PInf, Fin b => if Rlt_dec b 0 then NInf else PInf
  | NInf, Fin b => if Rlt_dec b 0 then PInf else NInf
  | PInf, _ | NInf, _ => NaN
  end.

Definition xabs (x : xreal) : xreal :=
  match x with
  | Fin a => Fin (Rabs a)
  | PInf | NInf => PInf
  | NaN => NaN
  end.

Definition xsqrt (x : xreal) : xreal :=
  match x with
  | Fin a => if Rlt_dec a 0 then NaN else Fin (R_sqrt.sqrt a)
  | PInf => PInf
  | NInf | NaN => NaN
  end.

Definition xltb (x y : xreal) : bool :=
  match x, y with
  | Fin a, Fin b => Rltb a b
  | NaN, _ | _, NaN => false
  | NInf, NInf | PInf, _ | _, NInf => false
  | NInf, _ | _, PInf => true
  end.

Definition xleb (x y : xreal) : bool :=
  match x, y with
  | Fin a, Fin b => Rleb a b
  | NaN, _ | _, NaN => false
  | NInf, _ | _, PInf => true
  | PInf, _ | _, NInf => false
  end.

Definition xeqb (x y : xreal) : bool :=
  match x, y with
  | Fin a, Fin b => Reqb a b
  | PInf, PInf | NInf, NInf => true
  | _, _ => false
  end.

Definition xisfinite (x : xreal) : bool :=
  match x with Fin _ => true | _ => false end.

(** Rounding to the nearest integer, ties to the even one. *)
Definition round_half_even (x : R) : Z :=
  let f := Zfloor x in
  let d := (x - IZR f)%R in
  if Rlt_dec d (1 / 2) then f
  else if Rlt_dec (1 / 2) d then (f + 1)%Z
  else if Z.even f then f else (f + 1)%Z.

Definition xround (x : xreal) : option Z :=
  match x with
  | Fin a => Some (round_half_even a)
  | _ => None
  end.

#[global] Instance ops : Float64 xreal := {
  of_Z z := Fin (IZR z);
  add := xadd;
  sub := xsub;
  mul := xmul;
  div := xdiv;
  opp := xopp;
  fabs := xabs;
  fsqrt := xsqrt;
  ltb := xltb;
  leb := xleb;
  eqb := xeqb;
  neg_inf := NInf;
  isfinite := xisfinite;
  round_int := xround
}.

(** Arrays of finite entries. *)
Definition vec (xs : list R) : ndarray := array1 (map Fin xs).
Definition mat (rows : list (list R)) : ndarray := array2 (map (map Fin) rows).
End XReal.

(* ================================================================== *)
(** * IEEE-754 binary64 *)
(* ================================================================== *)

Module B64.
Definition of_Z (z : Z) : float := SF2Prim (binary_normalize prec emax z 0 false).

(** [round(x)] of a finite float, from its mantissa and exponent. *)
Definition round_int (x : float) : option Z :=
  match Prim2SF x with
  | S754_zero _ => Some 0%Z
  | S754_finite s m e =>
      let mag :=
        if (0 <=? e)%Z then (Zpos m * 2 ^ e)%Z
        else
          let d := (2 ^ (- e))%Z in
          let q := (Zpos m / d)%Z in
          let r := (Zpos m mod d)%Z in
          if (2 * r <? d)%Z then q
          else if (d <? 2 * r)%Z then (q + 1)%Z
          else if Z.even q then q else (q + 1)%Z in
      Some (if s then (- mag)%Z else mag)
  | S754_infinity _ | S754_nan => None
  end.

#[global] Instance ops : Float64 float := {
  of_Z := of_Z;
  add := PrimFloat.add;
  sub := PrimFloat.sub;
  mul := PrimFloat.mul;
  div := PrimFloat.div;
  opp := PrimFloat.opp;
  fabs := PrimFloat.abs;
  fsqrt := PrimFloat.sqrt;
  ltb := PrimFloat.ltb;
  leb := PrimFloat.leb;
  eqb := PrimFloat.eqb;
  neg_inf := PrimFloat.neg_infinity;
  isfinite := PrimFloat.is_finite;
  round_int := round_int
}.

(** The float literals [0.1] and [0.5] of Python. *)
Definition tenth : float := 0x1.999999999999ap-4%float.
Definition half : float := 0.5%float.

(** The real number a finite float stands for (zero on inf and nan). *)
Definition to_R (x : float) : R :=
  match Prim2SF x with
  | S754_finite s m e =>
      ((if s then -1 else 1) * IZR (Zpos m) * powerRZ 2 e)%R
  | _ => 0%R
  end.
End B64.

Import Markowitz FX.

(* ================================================================== *)
(** * Concrete inputs *)
(* ================================================================== *)

Module Examples.
Section Examples.
Context {F : Type} {ops : Float64 F}.

Definition mu_zero : ndarray := array1 [f0; f0; f0].

(** A symmetric matrix that is not positive semi-definite: the variance
    of the first asset is negative. *)
Definition cov_nonpsd : ndarray :=
  array2 [[of_Z (-1); f0; f0]; [f0; f1; f0]; [f0; f0; f1]].

Definition corner1 : ndarray := array1 [f1; f0; f0].
Definition corner2 : ndarray := array1 [f0; f1; f0].
Definition corner3 : ndarray := array1 [f0; f0; f1].

(** A matrix with [cov[0][1] = 1] and [cov[1][0] = 1.000001]. *)
Definition cov_asym : ndarray :=
  array2 [[f1; f1; f0]; [lit 1000001 (-6); f1; f0]; [f0; f0; f1]].

Definition identity3 : ndarray :=
  array2 [[f1; f0; f0]; [f0; f1; f0]; [f0; f0; f1]].

(** Expected returns [3, -1, -2 + 3 * 2^-30]: they sum to [3 * 2^-30],
    small against each of them. *)
Definition mu_skew : ndarray :=
  array1 [of_Z 3; of_Z (-1); add (of_Z (-2)) (div (of_Z 3) (of_Z (2 ^ 30)))].
End Examples.
End Examples.

(* ================================================================== *)
(** * Specification-side definitions *)
(* ================================================================== *)

Module Spec.
Import XReal.

(** [n] uniformly spaced points of the interval [[a, b]]. *)
Definition uniform_points (a b : R) (n : Z) : list R :=
  map (fun k => (a + IZR (Z.of_nat k) * ((b - a) / IZR (n - 1)))%R)
      (seq 0 (Z.to_nat n)).

(** The candidates of the grid search as the specification generates
    them: [w1] over [resolution] points of [[0, 1]]; for each [w1], [w2]
    over [max(2, round((1 - w1) * (resolution - 1)) + 1)] points of
    [[0, 1 - w1]]; and [w3 = 1 - w1 - w2]. *)
Definition grid_candidates (resolution : Z) : list (R * R * R) :=
  flat_map
    (fun w1 =>
       let n2 := Z.max 2 (round_half_even ((1 - w1) * IZR (resolution - 1)) + 1) in
       map (fun w2 => (w1, w2, (1 - w1 - w2)%R)) (uniform_points 0 (1 - w1) n2))
    (uniform_points 0 1 resolution).

Definition weights_of (c : R * R * R) : ndarray :=
  let '(w1, w2, w3) := c in vec [w1; w2; w3].

(** The iteration order of the candidates: lower [w1] first, then lower
    [w2]. *)
Definition lex_le (c d : R * R * R) : Prop :=
  let '(a1, a2, _) := c in
  let '(b1, b2, _) := d in
  (a1 < b1 \/ (a1 = b1 /\ a2 <= b2))%R.

Definition is_nan (x : xreal) : Prop := x = NaN.

(** The dot product of two lists of reals. *)
Definition dotR (r v : list R) : R :=
  fold_right (fun q acc => (fst q * snd q + acc)%R) 0%R (combine r v).

(** The quadratic form [w . c . w] of a square matrix given by its rows,
    as [(w @ c) @ w]. *)
Definition quad (w : list R) (c : list (list R)) : R :=
  dotR (map (fun j => dotR w (map (fun row => nth j row 0%R) c))
            (seq 0 (length w))) w.

(** A row [a_1 ... a_n | y] of an augmented linear system holds at [xs]
    when [a_1 x_1 + ... + a_n x_n = y]. *)
Definition row_holds (r xs : list R) : Prop := dotR r (xs ++ [(-1)%R]) = 0%R.

(** An upper-triangular system, row [k] over the unknowns from [k] on,
    holds at [xs]. *)
Fixpoint triangular_holds (us : list (list R)) (xs : list R) : Prop :=
  match us, xs with
  | [], _ => True
  | u :: us', x :: xs' => row_holds u xs /\ triangular_holds us' xs'
  | _ :: _, [] => False
  end.

(** The tolerance test of [np.allclose] with [atol = 1e-10] and the
    default [rtol = 1e-5], on one pair of entries. *)
Definition close (x y : xreal) : Prop :=
  match x, y with
  | Fin a, Fin b => (Rabs (a - b) <= 1e-10 + 1e-5 * Rabs b)%R
  | PInf, PInf | NInf, NInf => True
  | _, _ => False
  end.
End Spec.

Section InitialBest.
Context {F : Type} {ops : Float64 F}.

(** The record the grid search starts from. *)
Definition initial_best (mu cov : ndarray) : MarkowitzResult :=
  {| weights := array1 [f1; f0; f0];
     expected_return := get1 mu 0;
     volatility := fsqrt (get2 cov 0 0);
     sharpe_ratio := neg_inf |}.

(** The statistics of a weight vector as a total function; on arrays of
    the validated shapes [portfolio_stats] returns and this is its
    result (lemma [portfolio_stats_total]). *)
Definition stats_of (w mu cov : ndarray) (rf : F) : MarkowitzResult :=
  match portfolio_stats w mu cov rf with
  | Ok s => s
  | Raise _ => initial_best mu cov
  end.
End InitialBest.

(* ================================================================== *)
(** * The command-line programs *)
(* ================================================================== *)

(** ** The terminal

    [input] and [print] act on the terminal: the lines still to be read
    from standard input and what has been written to standard output, a
    prompt of [input] or a line of [print].  The conversions between text
    and floats ([str.strip], [float], the format specifications) belong
    to the Python runtime; the programs are embedded over them, and what
    is proved holds whatever they are. *)
Module Console.

Inductive event : Type :=
| Prompt (text : string)
| Line (text : string).

Record console : Type := { stdin : list string; stdout : list event }.

(** How a call ends: with a value, with an exception of the computation,
    or with the [EOFError] of [input] at the end of the input. *)
Inductive outcome (A : Type) : Type :=
| Returned (a : A)
| Uncaught (e : exn)
| EOFError.

Arguments Returned {A} a.
Arguments Uncaught {A} e.
Arguments EOFError {A}.

(** A command; [None] is a loop cut off by its bound on the number of
    iterations. *)
Definition io (A : Type) : Type := console -> option (outcome A * console).

Definition io_bind {A B : Type} (m : io A) (k : A -> io B) : io B :=
  fun c =>
    match m c with
    | Some (Returned a, c') => k a c'
    | Some (Uncaught e, c') => Some (Uncaught e, c')
    | Some (EOFError, c') => Some (EOFError, c')
    | None => None
    end.

Definition write (e : event) (c : console) : console :=
  {| stdin := stdin c; stdout := stdout c ++ [e] |}.

(** [print(text)] *)
Definition print (text : string) : io unit :=
  fun c => Some (Returned tt, write (Line text) c).

(** [input(prompt)] *)
Definition input (prompt : string) : io string :=
  fun c =>
    match stdin c with
    | [] => Some (EOFError, write (Prompt prompt) c)
    | line :: rest =>
        Some (Returned line, {| stdin := rest; stdout := stdout c ++ [Prompt prompt] |})
    end.

(** A call of a function that does not touch the terminal. *)
Definition call {A : Type} (r : result A) : io A :=
  fun c => Some (match r with Ok a => Returned a | Raise e => Uncaught e end, c).
End Console.

Declare Scope io_scope.
Delimit Scope io_scope with io.
Notation "x <- c ;; k" := (Console.io_bind c (fun x => k))
  (at level 61, c at next level, right associativity) : io_scope.
Notation "' pat <- c ;; k" := (Console.io_bind c (fun x => match x with pat => k end))
  (at level 61, pat pattern, c at next level, right associativity) : io_scope.
Notation "c ;; k" := (Console.io_bind c (fun _ => k))
  (at level 61, right associativity) : io_scope.

(** ** portfolio_optimizer.py: the interactive part *)
Module FXMain.
Import Console.
Section FXMain.
Context {F : Type} {ops : Float64 F}.

(** The parts of the Python runtime the readers and [main] rest on:
    [raw.strip()], [float(text)] ([None] when it raises [ValueError]) and
    the format specifications [.4f] and [.4%]. *)
Context (strip : string -> string).
Context (float_of_str : string -> option F).
Context (format_4f : F -> string).
Context (format_4pct : F -> string).

Definition msg_valid_number : string := "Please enter a valid number.".
Definition msg_vol_negative : string := "Volatility must be non-negative.".
Definition msg_corr_range : string := "Correlation must be between -1 and 1.".

Definition newline : string := String (Ascii.ascii_of_nat 10) EmptyString.

(** The prompts and the lines of [main]. *)
Definition line_title : string := "Markowitz FX Optimizer (USD base)".
Definition line_hint : string :=
  "Input volatilities in decimal form (example: 0.12 for 12%).".
Definition prompt_eurusd : string := "EUR/USD volatility: ".
Definition prompt_usdjpy : string := "USD/JPY volatility: ".
Definition prompt_corr : string := "Correlation between EUR/USD and USD/JPY: ".
Definition line_both_zero : string :=
  "Both volatilities are zero. Any weights are minimum-variance.".
Definition line_all_eur : string := "Minimum-variance solution: 100% EUR, 0% JPY, 0% USD".
Definition line_all_jpy : string := "Minimum-variance solution: 0% EUR, 100% JPY, 0% USD".
Definition line_weights : string :=
  newline ++ "Minimum-variance weights (fully invested in non-USD currencies):".
Definition line_usd : string := "USD weight: 0.0000".

(** The [while True:] loops run at most once per line of the input and
    once more, for the call of [input] that meets its end. *)
Definition iterations (c : console) : nat := S (length (stdin c)).

Fixpoint _read_float_loop (fuel : nat) (prompt : string) : io F :=
  match fuel with
  | O => fun _ => None
  | S fuel' =>
      (raw <- input prompt ;;
       match float_of_str (strip raw) with
       | Some value => call (Ok value)
       | None => print msg_valid_number ;; _read_float_loop fuel' prompt
       end)%io
  end.

Definition _read_float (prompt : string) : io F :=
  fun c => _read_float_loop (iterations c) prompt c.

Fixpoint _read_vol_loop (fuel : nat) (prompt : string) : io F :=
  match fuel with
  | O => fun _ => None
  | S fuel' =>
      (value <- _read_float prompt ;;
       if ltb value f0
       then print msg_vol_negative ;; _read_vol_loop fuel' prompt
       else call (Ok value))%io
  end.

Definition _read_vol (prompt : string) : io F :=
  fun c => _read_vol_loop (iterations c) prompt c.

Fixpoint _read_corr_loop (fuel : nat) (prompt : string) : io F :=
  match fuel with
  | O => fun _ => None
  | S fuel' =>
      (value <- _read_float prompt ;;
       if ltb value (of_Z (-1)) || gtb value (of_Z 1)
       then print msg_corr_range ;; _read_corr_loop fuel' prompt
       else call (Ok value))%io
  end.

Definition _read_corr (prompt : string) : io F :=
  fun c => _read_corr_loop (iterations c) prompt c.

Definition main : io unit :=
  (print line_title ;;
   print line_hint ;;
   vol_eurusd <- _read_vol prompt_eurusd ;;
   vol_usdjpy <- _read_vol prompt_usdjpy ;;
   corr <- _read_corr prompt_corr ;;
   if eqb vol_eurusd f0 && eqb vol_usdjpy f0
   then print line_both_zero
   else if eqb vol_eurusd f0
   then print line_all_eur
   else if eqb vol_usdjpy f0
   then print line_all_jpy
   else
     '(w_eur, w_jpy) <- call (min_variance_weights vol_eurusd vol_usdjpy corr) ;;
     port_vol <- call (portfolio_volatility w_eur w_jpy vol_eurusd vol_usdjpy corr) ;;
     print line_weights ;;
     print ("EUR weight: " ++ format_4f w_eur) ;;
     print ("JPY weight: " ++ format_4f w_jpy) ;;
     print line_usd ;;
     print ("Portfolio volatility: " ++ format_4pct port_vol))%io.
End FXMain.

(** The terminal after the two lines [main] starts with. *)
Definition after_banner (c : console) : console :=
  write (Line line_hint) (write (Line line_title) c).
End FXMain.

(** ** The readers, described

    Specification-side definitions: what the retry loops of the readers
    amount to. *)
Module ReaderSpec.
Import Console FXMain.
Section ReaderSpec.
Context {F : Type} {ops : Float64 F}.
Context (strip : string -> string) (float_of_str : string -> option F).

(** A line that [float] refuses. *)
Definition unparsable (line : string) : Prop := float_of_str (strip line) = None.

(** What the refused lines leave on the terminal. *)
Definition rejections (prompt msg : string) (lines : list string) : list event :=
  flat_map (fun _ => [Prompt prompt; Line msg]) lines.

(** One pass over the input: the first line that parses to a value which
    [reject] lets through is returned; a line that does not parse leaves
    the message of [_read_float], a value that [reject] refuses leaves
    [msg]. *)
Fixpoint scan (reject : F -> bool) (msg prompt : string) (lines : list string)
    (out : list event) : outcome F * console :=
  match lines with
  | [] => (EOFError, {| stdin := []; stdout := out ++ [Prompt prompt] |})
  | line :: rest =>
      match float_of_str (strip line) with
      | None => scan reject msg prompt rest (out ++ [Prompt prompt; Line msg_valid_number])
      | Some v =>
          if reject v
          then scan reject msg prompt rest (out ++ [Prompt prompt; Line msg])
          else (Returned v, {| stdin := rest; stdout := out ++ [Prompt prompt] |})
      end
  end.
End ReaderSpec.
End ReaderSpec.

(** A stand-in for [float] on the strings of the examples, and for the
    two format specifications. *)
Module ConsoleExamples.
Import XReal.
Local Open Scope R_scope.
Local Open Scope string_scope.

Definition example_float (text : string) : option xreal :=
  if String.eqb text "0.1" then Some (Fin 0.1)
  else if String.eqb text "0.2" then Some (Fin 0.2)
  else if String.eqb text "0.5" then Some (Fin 0.5)
  else if String.eqb text "1" then Some (Fin 1)
  else if String.eqb text "-0.3" then Some (Fin (-0.3))
  else if String.eqb text "nan" then Some NaN
  else None.

Definition example_strip (text : string) : string := text.
Definition example_format (x : xreal) : string := "<float>".

Definition example_input (lines : list string) : Console.console :=
  {| Console.stdin := lines; Console.stdout := [] |}.

(** The same for binary64. *)
Definition example_float64 (text : string) : option float :=
  if String.eqb text "1e200" then Some (lit (ops := B64.ops) 1 200)
  else if String.eqb text "0.1" then Some B64.tenth
  else if String.eqb text "0" then Some (f0 (ops := B64.ops))
  else None.

Definition example_format64 (x : float) : string := "<float>".
End ConsoleExamples.

(** ** markowitz_optimizer.py: the covariance of the example run *)
Module MarkowitzMain.
Section MarkowitzMain.
Context {F : Type} {ops : Float64 F}.

(** [np.outer(a, b)] on two vectors. *)
Definition outer (a b : ndarray) : ndarray :=
  {| shape := [length (data a); length (data b)];
     data := flat_map (fun x => map (fun y => mul x y) (data b)) (data a) |}.

(** Elementwise [a * b] on arrays of one shape (broadcasting between
    different shapes is outside the model). *)
Definition arr_mul (a b : ndarray) : result ndarray :=
  if shape_eqb (shape a) (shape b)
  then Ok {| shape := shape a;
             data := map (fun p => mul (fst p) (snd p)) (combine (data a) (data b)) |}
  else Raise (ValueError msg_broadcast).

(** [np.outer(vol, vol) * corr], the covariance matrix the script builds
    from volatilities and correlations. *)
Definition covariance_of (vol corr : ndarray) : result ndarray :=
  arr_mul (outer vol vol) corr.
End MarkowitzMain.
End MarkowitzMain.

(* ================================================================== *)
(** * Lemmas *)
(* ================================================================== *)

From Stdlib Require Import Permutation.

Section GenericValidation.
Context {F : Type} {ops : Float64 F}.

Lemma bind_ok_inv {A B} (c : result A) (k : A -> result B) b :
  bind c k = Ok b -> exists a, c = Ok a /\ k a = Ok b.
Proof. destruct c as [a|e]; simpl; [eauto | discriminate]. Qed.

(** A loop whose body never raises is a left fold. *)
Lemma for_each_fold {A S} (body : S -> A -> result S) (f : S -> A -> S) xs :
  (forall s x, In x xs -> body s x = Ok (f s x)) ->
  forall s, for_each xs s body = Ok (fold_left f xs s).
Proof.
  induction xs as [|x xs IH]; intros Hb s; simpl; [reflexivity|].
  rewrite Hb by (left; reflexivity). simpl.
  apply IH. intros; apply Hb; right; assumption.
Qed.

Lemma shape_eqb_true s t : shape_eqb s t = true <-> s = t.
Proof. unfold shape_eqb. destruct (list_eq_dec Nat.eq_dec s t); split; congruence. Qed.

Lemma shape_eqb_false s t : shape_eqb s t = false <-> s <> t.
Proof. unfold shape_eqb. destruct (list_eq_dec Nat.eq_dec s t); split; congruence. Qed.

(** Validation, read off the three checks in their order. *)
Lemma validate_cases (mu cov : ndarray) :
  (shape mu <> [3%nat] /\ _validate_inputs mu cov = Raise (ValueError msg_mu_shape))
  \/ (shape mu = [3%nat] /\ shape cov <> [3%nat; 3%nat]
      /\ _validate_inputs mu cov = Raise (ValueError msg_cov_shape))
  \/ (shape mu = [3%nat] /\ shape cov = [3%nat; 3%nat]
      /\ allclose cov (T cov) (lit 1 (-10)) = false
      /\ _validate_inputs mu cov = Raise (ValueError msg_cov_symmetric))
  \/ (shape mu = [3%nat] /\ shape cov = [3%nat; 3%nat]
      /\ allclose cov (T cov) (lit 1 (-10)) = true
      /\ _validate_inputs mu cov = Ok (mu, cov)).
Proof.
  unfold _validate_inputs, asarray.
  destruct (shape_eqb (shape mu) [3%nat]) eqn:E1; simpl.
  2:{ left. split; [apply shape_eqb_false; assumption | reflexivity]. }
  apply shape_eqb_true in E1.
  destruct (shape_eqb (shape cov) [3%nat; 3%nat]) eqn:E2; simpl.
  2:{ right; left. repeat split; [assumption | apply shape_eqb_false; assumption]. }
  apply shape_eqb_true in E2.
  destruct (allclose cov (T cov) (lit 1 (-10))) eqn:E3; simpl.
  - right; right; right. repeat split; assumption.
  - right; right; left. repeat split; assumption.
Qed.

Lemma validate_ok (mu cov : ndarray) p :
  _validate_inputs mu cov = Ok p ->
  p = (mu, cov) /\ shape mu = [3%nat] /\ shape cov = [3%nat; 3%nat]
  /\ allclose cov (T cov) (lit 1 (-10)) = true.
Proof.
  intros H.
  destruct (validate_cases mu cov) as [[_ E]|[(_ & _ & E)|[(_ & _ & _ & E)|(A & B & C & E)]]];
    rewrite E in H; try discriminate.
  injection H as <-. auto.
Qed.

(** The statistics of a weight vector of three entries, as
    [portfolio_stats] computes them. *)
Lemma portfolio_stats_shape (w mu cov : ndarray) rf :
  shape w = [3%nat] -> shape mu = [3%nat] -> shape cov = [3%nat; 3%nat] ->
  exists exp_ret var,
    bind (matmul w mu) py_float = Ok exp_ret
    /\ bind (bind (matmul w cov) (fun wc => matmul wc w)) py_float = Ok var
    /\ portfolio_stats w mu cov rf =
       Ok {| weights := w;
             expected_return := exp_ret;
             volatility := fsqrt var;
             sharpe_ratio := if leb (fsqrt var) f0 then neg_inf
                             else div (sub exp_ret rf) (fsqrt var) |}.
Proof.
  intros Hw Hmu Hcov.
  unfold portfolio_stats, asarray, matmul. rewrite Hw, Hmu, Hcov. simpl.
  eexists; eexists. split; [reflexivity|]. split; reflexivity.
Qed.
End GenericValidation.

Section GenericFolds.
Context {F : Type} {ops : Float64 F}.

Lemma portfolio_stats_total (w mu cov : ndarray) rf :
  shape w = [3%nat] -> shape mu = [3%nat] -> shape cov = [3%nat; 3%nat] ->
  portfolio_stats w mu cov rf = Ok (stats_of w mu cov rf).
Proof.
  intros Hw Hmu Hcov. unfold stats_of.
  destruct (portfolio_stats_shape w mu cov rf Hw Hmu Hcov) as (e & v & _ & _ & ->).
  reflexivity.
Qed.

Lemma fold_left_flat_map {A B S} (f : S -> B -> S) (g : A -> list B) l :
  forall s, fold_left f (flat_map g l) s
            = fold_left (fun s x => fold_left f (g x) s) l s.
Proof.
  induction l as [|x l IH]; intros s; simpl; [reflexivity|].
  rewrite fold_left_app. apply IH.
Qed.

Lemma fold_left_map {A B S} (f : S -> B -> S) (h : A -> B) l :
  forall s, fold_left f (map h l) s = fold_left (fun s x => f s (h x)) l s.
Proof. induction l as [|x l IH]; intros s; simpl; [reflexivity | apply IH]. Qed.

Lemma fold_left_ext_in {A S} (f g : S -> A -> S) l :
  (forall s x, In x l -> f s x = g s x) ->
  forall s, fold_left f l s = fold_left g l s.
Proof.
  induction l as [|x l IH]; intros H s; simpl; [reflexivity|].
  rewrite H by (left; reflexivity). apply IH. intros; apply H; right; assumption.
Qed.
End GenericFolds.

Module XFacts.
Import XReal Spec.

Lemma IZR_pred_neq0 n : (2 <= n)%Z -> IZR (n - 1) <> 0%R.
Proof. intros H. apply not_0_IZR. lia. Qed.

(** The operations on finite values. *)
Lemma of_Z_fin z : of_Z z = Fin (IZR z).
Proof. reflexivity. Qed.
Lemma f0_fin : f0 = Fin 0.
Proof. reflexivity. Qed.
Lemma f1_fin : f1 = Fin 1.
Proof. reflexivity. Qed.
Lemma add_fin a b : add (Fin a) (Fin b) = Fin (a + b).
Proof. reflexivity. Qed.
Lemma sub_fin a b : sub (Fin a) (Fin b) = Fin (a - b).
Proof. reflexivity. Qed.
Lemma mul_fin a b : mul (Fin a) (Fin b) = Fin (a * b).
Proof. reflexivity. Qed.
Lemma opp_fin a : opp (Fin a) = Fin (- a).
Proof. reflexivity. Qed.
Lemma fabs_fin a : fabs (Fin a) = Fin (Rabs a).
Proof. reflexivity. Qed.
Lemma div_fin a b : b <> 0%R -> div (Fin a) (Fin b) = Fin (a / b).
Proof.
  intros H. cbn. destruct (Req_dec_T b 0); [contradiction | reflexivity].
Qed.
Lemma eqb_fin a b : eqb (Fin a) (Fin b) = Reqb a b.
Proof. reflexivity. Qed.
Lemma ltb_fin a b : ltb (Fin a) (Fin b) = Rltb a b.
Proof. reflexivity. Qed.
Lemma leb_fin a b : leb (Fin a) (Fin b) = Rleb a b.
Proof. reflexivity. Qed.

Create Rewrite HintDb xr.
#[local] Hint Rewrite of_Z_fin f0_fin f1_fin add_fin sub_fin mul_fin opp_fin
  fabs_fin eqb_fin ltb_fin leb_fin : xr.

Lemma map_seq_snoc {A} (f : nat -> A) m :
  map f (seq 0 (S m)) = map f (seq 0 m) ++ [f m].
Proof. rewrite seq_S, map_app. reflexivity. Qed.

(** In exact arithmetic [np.linspace] yields the uniformly spaced
    points. *)
Lemma linspace_fin a b n :
  (2 <= n)%Z ->
  linspace (Fin a) (Fin b) n = Ok (map Fin (uniform_points a b n)).
Proof.
  intros Hn. unfold linspace, uniform_points.
  assert (Hd : IZR (n - 1) <> 0%R) by (apply IZR_pred_neq0; assumption).
  destruct (Z.ltb_spec n 0) as [|_]; [lia|].
  destruct (Z.ltb_spec 0 (n - 1)) as [_|]; [|lia].
  destruct (Z.ltb_spec 1 n) as [_|]; [|lia].
  destruct (Z.to_nat n) as [|m] eqn:Em; [lia|].
  assert (Hm : IZR (Z.of_nat m) = IZR (n - 1)) by (f_equal; lia).
  f_equal.
  rewrite !(map_seq_snoc _ m).
  rewrite f0_fin, sub_fin, of_Z_fin, div_fin by assumption.
  assert (Hlast : (a + IZR (Z.of_nat m) * ((b - a) / IZR (n - 1)) = b)%R).
  { rewrite Hm. field. assumption. }
  rewrite Hlast, eqb_fin.
  unfold Reqb. destruct (Req_dec_T _ _) as [E0|_].
  - rewrite !map_app, !map_map. cbn [map]. rewrite removelast_last.
    f_equal. apply map_ext. intros k.
    rewrite of_Z_fin, div_fin by assumption. autorewrite with xr. f_equal.
    assert (b - a = 0)%R as ->.
    { apply (Rmult_eq_reg_r (/ IZR (n - 1))); [|apply Rinv_neq_0_compat; assumption].
      unfold Rdiv in E0. rewrite E0. ring. }
    unfold Rdiv. ring.
  - rewrite !map_app, !map_map. cbn [map]. rewrite removelast_last.
    f_equal. apply map_ext. intros k. autorewrite with xr. f_equal. ring.
Qed.

Lemma for_each_map {A B S} (g : A -> B) (body : S -> B -> result S) l :
  forall s, for_each (map g l) s body = for_each l s (fun s x => body s (g x)).
Proof.
  induction l as [|x l IH]; intros s; simpl; [reflexivity|].
  destruct (body s (g x)); simpl; [apply IH | reflexivity].
Qed.

Lemma py_round_fin x : py_round (Fin x) = Ok (round_half_even x).
Proof. reflexivity. Qed.

(** The grid search is a fold of [keep_best] over the statistics of the
    specification's candidates, in their order. *)
Lemma long_only_fold (mu cov : ndarray) (rf : xreal) (n : Z) :
  _validate_inputs mu cov = Ok (mu, cov) ->
  (3 <= n)%Z ->
  optimize_sharpe_long_only mu cov rf n =
  Ok (fold_left keep_best
        (map (fun c => stats_of (weights_of c) mu cov rf) (grid_candidates n))
        (initial_best mu cov)).
Proof.
  intros Hv Hn.
  destruct (validate_ok _ _ _ Hv) as (_ & Hmu & Hcov & _).
  unfold optimize_sharpe_long_only. rewrite Hv. cbn [bind].
  destruct (Z.ltb_spec n 3) as [|_]; [lia|].
  rewrite f0_fin, f1_fin, linspace_fin by lia. cbn [bind].
  rewrite for_each_map.
  fold (initial_best mu cov).
  unfold grid_candidates.
  rewrite fold_left_map, fold_left_flat_map.
  apply for_each_fold. intros best w1 _.
  rewrite sub_fin, of_Z_fin, mul_fin, py_round_fin. cbn [bind].
  rewrite <- f0_fin, f0_fin, linspace_fin by lia. cbn [bind].
  rewrite for_each_map, fold_left_map.
  apply for_each_fold. intros best' w2 _.
  rewrite !sub_fin.
  rewrite portfolio_stats_total by (assumption || reflexivity).
  reflexivity.
Qed.
End XFacts.

Module GridFacts.
Import XReal Spec XFacts.
Local Open Scope R_scope.

Lemma round_half_even_IZR k : round_half_even (IZR k) = k.
Proof.
  unfold round_half_even. rewrite ZfloorZ.
  destruct (Rlt_dec (IZR k - IZR k) (1 / 2)) as [_|H]; [reflexivity|].
  exfalso. apply H. lra.
Qed.

Lemma uniform_points_in a b n x :
  In x (uniform_points a b n) ->
  exists k : nat, (k < Z.to_nat n)%nat
                  /\ x = a + IZR (Z.of_nat k) * ((b - a) / IZR (n - 1)).
Proof.
  unfold uniform_points. rewrite in_map_iff. intros (k & <- & Hk).
  apply in_seq in Hk. exists k. split; [lia | reflexivity].
Qed.

Lemma uniform_points_nth a b n (k : nat) :
  (k < Z.to_nat n)%nat ->
  In (a + IZR (Z.of_nat k) * ((b - a) / IZR (n - 1))) (uniform_points a b n).
Proof.
  intros Hk. unfold uniform_points. apply in_map_iff. exists k.
  split; [reflexivity | apply in_seq; lia].
Qed.

Lemma uniform_points_bounds a b n x :
  (2 <= n)%Z -> a <= b -> In x (uniform_points a b n) -> a <= x <= b.
Proof.
  intros Hn Hab Hin.
  destruct (uniform_points_in _ _ _ _ Hin) as (k & Hk & ->).
  assert (Hd : 0 < IZR (n - 1)) by (apply IZR_lt; lia).
  assert (Hk0 : 0 <= IZR (Z.of_nat k)) by (apply IZR_le; lia).
  assert (Hk1 : IZR (Z.of_nat k) <= IZR (n - 1)) by (apply IZR_le; lia).
  assert (Ht : 0 <= (b - a) / IZR (n - 1)).
  { apply Rmult_le_pos; [lra | left; apply Rinv_0_lt_compat; assumption]. }
  assert (Hfull : IZR (n - 1) * ((b - a) / IZR (n - 1)) = b - a) by (field; lra).
  split.
  - pose proof (Rmult_le_pos _ _ Hk0 Ht). lra.
  - pose proof (Rmult_le_compat_r _ _ _ Ht Hk1). lra.
Qed.

Lemma grid_candidates_in n c :
  In c (grid_candidates n) <->
  exists w1 w2,
    In w1 (uniform_points 0 1 n)
    /\ In w2 (uniform_points 0 (1 - w1)
                (Z.max 2 (round_half_even ((1 - w1) * IZR (n - 1)) + 1)))
    /\ c = (w1, w2, 1 - w1 - w2).
Proof.
  unfold grid_candidates. rewrite in_flat_map. split.
  - intros (w1 & H1 & H2). apply in_map_iff in H2. destruct H2 as (w2 & <- & H2).
    exists w1, w2. auto.
  - intros (w1 & w2 & H1 & H2 & ->). exists w1. split; [assumption|].
    apply in_map_iff. exists w2. auto.
Qed.

(** Every candidate lies on the simplex. *)
Lemma grid_candidates_simplex n w1 w2 w3 :
  (3 <= n)%Z -> In (w1, w2, w3) (grid_candidates n) ->
  0 <= w1 <= 1 /\ 0 <= w2 /\ 0 <= w3 /\ w1 + w2 + w3 = 1.
Proof.
  intros Hn Hin. apply grid_candidates_in in Hin.
  destruct Hin as (v1 & v2 & H1 & H2 & E). injection E as -> -> ->.
  apply uniform_points_bounds in H1; [|lia|lra].
  apply uniform_points_bounds in H2; [|lia|lra].
  lra.
Qed.

(** The three corners of the simplex are candidates. *)
Lemma corners_are_candidates n :
  (3 <= n)%Z ->
  In (1, 0, 0) (grid_candidates n)
  /\ In (0, 1, 0) (grid_candidates n)
  /\ In (0, 0, 1) (grid_candidates n).
Proof.
  intros Hn.
  assert (Hd : IZR (n - 1) <> 0) by (apply IZR_pred_neq0; lia).
  assert (Hlast : (Z.to_nat (n - 1) < Z.to_nat n)%nat) by lia.
  assert (Hfirst : (0 < Z.to_nat n)%nat) by lia.
  assert (Hz : IZR (Z.of_nat (Z.to_nat (n - 1))) = IZR (n - 1)) by (f_equal; lia).
  (* w1 = 0 and w1 = 1 *)
  assert (H0 : In 0 (uniform_points 0 1 n)).
  { pose proof (uniform_points_nth 0 1 n 0 Hfirst) as H.
    replace (0 + IZR (Z.of_nat 0) * ((1 - 0) / IZR (n - 1))) with 0 in H
      by (simpl; ring). exact H. }
  assert (H1 : In 1 (uniform_points 0 1 n)).
  { pose proof (uniform_points_nth 0 1 n _ Hlast) as H.
    replace (0 + IZR (Z.of_nat (Z.to_nat (n - 1))) * ((1 - 0) / IZR (n - 1)))
      with 1 in H by (rewrite Hz; field; assumption). exact H. }
  (* the sub-grid at w1 = 0 has n points, at w1 = 1 two *)
  assert (N0 : Z.max 2 (round_half_even ((1 - 0) * IZR (n - 1)) + 1) = n).
  { replace ((1 - 0) * IZR (n - 1)) with (IZR (n - 1)) by ring.
    rewrite round_half_even_IZR. lia. }
  assert (N1 : Z.max 2 (round_half_even ((1 - 1) * IZR (n - 1)) + 1) = 2%Z).
  { replace ((1 - 1) * IZR (n - 1)) with (IZR 0) by ring.
    rewrite round_half_even_IZR. reflexivity. }
  repeat split; apply grid_candidates_in.
  - exists 1, 0. split; [assumption|]. split; [|f_equal; ring].
    rewrite N1.
    pose proof (uniform_points_nth 0 (1 - 1) 2 0 ltac:(simpl; lia)) as H.
    replace (0 + IZR (Z.of_nat 0) * ((1 - 1 - 0) / IZR (2 - 1))) with 0 in H
      by (simpl; field). exact H.
  - exists 0, 1. split; [assumption|]. split; [|f_equal; ring].
    rewrite N0.
    pose proof (uniform_points_nth 0 (1 - 0) n _ Hlast) as H.
    replace (0 + IZR (Z.of_nat (Z.to_nat (n - 1))) * ((1 - 0 - 0) / IZR (n - 1)))
      with 1 in H by (rewrite Hz; field; assumption). exact H.
  - exists 0, 0. split; [assumption|]. split; [|f_equal; ring].
    rewrite N0.
    pose proof (uniform_points_nth 0 (1 - 0) n 0 Hfirst) as H.
    replace (0 + IZR (Z.of_nat 0) * ((1 - 0 - 0) / IZR (n - 1))) with 0 in H
      by (simpl; ring). exact H.
Qed.
End GridFacts.

Module OrderFacts.
Import XReal Spec XFacts GridFacts.
Local Open Scope R_scope.

(** ** The order of the extended reals *)

Lemma Rltb_true a b : Rltb a b = true <-> a < b.
Proof. unfold Rltb. destruct (Rlt_dec a b); split; (congruence || tauto). Qed.
Lemma Rltb_false a b : Rltb a b = false <-> b <= a.
Proof. unfold Rltb. destruct (Rlt_dec a b); split; intros; (congruence || lra). Qed.
Lemma Rleb_true a b : Rleb a b = true <-> a <= b.
Proof. unfold Rleb. destruct (Rle_dec a b); split; (congruence || tauto). Qed.
Lemma Rleb_false a b : Rleb a b = false <-> b < a.
Proof. unfold Rleb. destruct (Rle_dec a b); split; intros; (congruence || lra). Qed.
Lemma Reqb_true a b : Reqb a b = true <-> a = b.
Proof. unfold Reqb. destruct (Req_dec_T a b); split; (congruence || tauto). Qed.

Ltac order_cases :=
  repeat match goal with
  | x : xreal |- _ => destruct x
  end;
  cbn in *; try discriminate; try reflexivity; auto;
  repeat match goal with
  | H : Rltb _ _ = true |- _ => apply Rltb_true in H
  | H : Rltb _ _ = false |- _ => apply Rltb_false in H
  | H : Rleb _ _ = true |- _ => apply Rleb_true in H
  | H : Rleb _ _ = false |- _ => apply Rleb_false in H
  end.

Lemma gtb_trans (a b c : xreal) :
  gtb a b = true -> gtb b c = true -> gtb a c = true.
Proof.
  unfold gtb. intros H1 H2. order_cases. apply Rltb_true. lra.
Qed.

Lemma not_gtb_lt (b x s : xreal) :
  gtb x b = false -> gtb s b = true -> gtb s x = true \/ x = NaN.
Proof.
  unfold gtb. intros H1 H2. order_cases. left. apply Rltb_true. lra.
Qed.

Lemma gtb_leb (x s : xreal) : gtb s x = true -> leb x s = true.
Proof. unfold gtb. intros H. order_cases. apply Rleb_true. lra. Qed.

Lemma not_gtb_leb (x s : xreal) :
  gtb x s = false -> x <> NaN -> s <> NaN -> leb x s = true.
Proof.
  unfold gtb. intros H Hx Hs. order_cases; try congruence. apply Rleb_true. lra.
Qed.

Lemma gtb_not_nan (x s : xreal) : gtb s x = true -> s <> NaN /\ x <> NaN.
Proof. unfold gtb. intros H. order_cases; split; congruence. Qed.

Lemma leb_refl (x : xreal) : x <> NaN -> leb x x = true.
Proof. intros H. order_cases; try congruence. apply Rleb_true. lra. Qed.

Lemma not_gtb_neg_inf (x : xreal) : gtb x neg_inf = false -> x = NInf \/ x = NaN.
Proof. unfold gtb. intros H. order_cases. Qed.

Lemma gtb_neg_inf_finite (x : xreal) : isfinite x = true -> gtb x neg_inf = true.
Proof. unfold gtb. intros H. order_cases. Qed.

(** ** The running maximum *)

Local Abbreviation sharpe := (sharpe_ratio (F := xreal)).

(** What the fold of [keep_best] returns: the start value when no entry
    beats it, otherwise the first entry of largest Sharpe ratio. *)
Lemma fold_keep_best (l : list MarkowitzResult) :
  forall b r,
    fold_left keep_best l b = r ->
    (r = b /\ Forall (fun s => gtb (sharpe s) (sharpe b) = false) l)
    \/ (exists pre post,
          l = pre ++ r :: post
          /\ gtb (sharpe r) (sharpe b) = true
          /\ Forall (fun s' => gtb (sharpe r) (sharpe s') = true
                               \/ sharpe s' = NaN) pre
          /\ Forall (fun s' => gtb (sharpe s') (sharpe r) = false) post).
Proof.
  induction l as [|x l IH]; intros b r Hr.
  - left. split; [symmetry; exact Hr | constructor].
  - cbn [fold_left] in Hr. unfold keep_best in Hr at 2.
    destruct (gtb (sharpe x) (sharpe b)) eqn:Hx;
      destruct (IH _ _ Hr) as [(-> & Hall)|(pre & post & -> & Hs & Hpre & Hpost)].
    + right. exists [], l.
      split; [reflexivity|]. split; [assumption|].
      split; [constructor | assumption].
    + right. exists (x :: pre), post.
      split; [reflexivity|].
      split; [eapply gtb_trans; eassumption|].
      split; [|assumption].
      constructor; [left; assumption | assumption].
    + left. split; [reflexivity | constructor; assumption].
    + right. exists (x :: pre), post.
      split; [reflexivity|]. split; [assumption|].
      split; [|assumption].
      constructor; [|assumption].
      eapply not_gtb_lt; eassumption.
Qed.

(** The result of the fold is at least every entry that is not NaN,
    when it starts from [-inf]. *)
Lemma fold_keep_best_upper (l : list MarkowitzResult) b s :
  sharpe b = NInf -> In s l -> sharpe s <> NaN ->
  leb (sharpe s) (sharpe (fold_left keep_best l b)) = true.
Proof.
  intros Hb Hin Hs.
  destruct (fold_keep_best l b _ eq_refl)
    as [(Hr & Hall)|(pre & post & Hl & Hgt & Hpre & Hpost)].
  - rewrite Hr. rewrite Forall_forall in Hall. specialize (Hall s Hin).
    rewrite Hb in *.
    destruct (not_gtb_neg_inf _ Hall) as [->|]; [reflexivity | contradiction].
  - set (r := fold_left keep_best l b) in *.
    destruct (gtb_not_nan _ _ Hgt) as (Hrn & _).
    rewrite Hl in Hin.
    apply in_app_or in Hin. destruct Hin as [Hin|[<-|Hin]].
    + rewrite Forall_forall in Hpre. destruct (Hpre s Hin) as [H|H]; [|contradiction].
      apply gtb_leb. assumption.
    + apply leb_refl. assumption.
    + rewrite Forall_forall in Hpost. apply not_gtb_leb; auto.
Qed.

(** ** The iteration order *)

Lemma StronglySorted_map_seq {A} (Rel : A -> A -> Prop) (f : nat -> A) n :
  forall a,
    (forall i j, (a <= i < j)%nat -> (j < a + n)%nat -> Rel (f i) (f j)) ->
    StronglySorted Rel (map f (seq a n)).
Proof.
  induction n as [|n IH]; intros a H; simpl; constructor.
  - apply IH. intros i j Hij Hj. apply H; lia.
  - apply Forall_forall. intros y Hy. apply in_map_iff in Hy.
    destruct Hy as (j & <- & Hj). apply in_seq in Hj. apply H; lia.
Qed.

Lemma StronglySorted_app {A} (Rel : A -> A -> Prop) l1 l2 :
  StronglySorted Rel l1 -> StronglySorted Rel l2 ->
  (forall x y, In x l1 -> In y l2 -> Rel x y) ->
  StronglySorted Rel (l1 ++ l2).
Proof.
  induction l1 as [|x l1 IH]; intros H1 H2 H12; simpl; [assumption|].
  inversion H1 as [|? ? Hs Hf]; subst. constructor.
  - apply IH; auto. intros; apply H12; [right|]; assumption.
  - apply Forall_app. split; [assumption|].
    apply Forall_forall. intros y Hy. apply H12; [left; reflexivity | assumption].
Qed.

Lemma StronglySorted_flat_map {A B} (Rel : B -> B -> Prop) (g : A -> list B) l :
  (forall x, In x l -> StronglySorted Rel (g x)) ->
  StronglySorted (fun x y => forall u v, In u (g x) -> In v (g y) -> Rel u v) l ->
  StronglySorted Rel (flat_map g l).
Proof.
  induction l as [|x l IH]; intros Hin Hout; simpl; [constructor|].
  inversion Hout as [|? ? Hs Hf]; subst.
  apply StronglySorted_app.
  - apply Hin. left; reflexivity.
  - apply IH; auto. intros; apply Hin; right; assumption.
  - intros u v Hu Hv. apply in_flat_map in Hv. destruct Hv as (y & Hy & Hv).
    rewrite Forall_forall in Hf. eapply Hf; eassumption.
Qed.

(** The candidates come in the order of the loops: [w1] ascending, and
    [w2] ascending under one [w1]. *)
Lemma grid_candidates_sorted n :
  (3 <= n)%Z -> StronglySorted lex_le (grid_candidates n).
Proof.
  intros Hn.
  assert (Hd : 0 < IZR (n - 1)) by (apply IZR_lt; lia).
  assert (Hstep : 0 < (1 - 0) / IZR (n - 1)).
  { apply Rmult_lt_0_compat; [lra | apply Rinv_0_lt_compat; assumption]. }
  unfold grid_candidates. apply StronglySorted_flat_map.
  - intros w1 H1. apply uniform_points_bounds in H1; [|lia|lra].
    set (n2 := Z.max 2 _).
    assert (Hn2 : (2 <= n2)%Z) by (unfold n2; lia).
    unfold uniform_points. rewrite map_map. apply StronglySorted_map_seq.
    intros i j Hij _. unfold lex_le. right. split; [reflexivity|].
    assert (Hd2 : 0 < IZR (n2 - 1)) by (apply IZR_lt; lia).
    assert (Ht : 0 <= (1 - w1 - 0) / IZR (n2 - 1)).
    { apply Rmult_le_pos; [lra | left; apply Rinv_0_lt_compat; assumption]. }
    assert (Hk : IZR (Z.of_nat i) <= IZR (Z.of_nat j)) by (apply IZR_le; lia).
    pose proof (Rmult_le_compat_r _ _ _ Ht Hk). lra.
  - unfold uniform_points at 1. apply StronglySorted_map_seq.
    intros i j Hij _ u v Hu Hv.
    apply in_map_iff in Hu. destruct Hu as (u2 & <- & _).
    apply in_map_iff in Hv. destruct Hv as (v2 & <- & _).
    unfold lex_le. left.
    assert (Hk : IZR (Z.of_nat i) < IZR (Z.of_nat j)) by (apply IZR_lt; lia).
    pose proof (Rmult_lt_compat_r _ _ _ Hstep Hk). lra.
Qed.
End OrderFacts.

Section GenericLapack.
Context {F : Type} {ops : Float64 F}.

Lemma argmax_abs_bound rest :
  forall best ibest i,
    argmax_abs best ibest i rest = ibest
    \/ (i <= argmax_abs best ibest i rest < i + length rest)%nat.
Proof.
  induction rest as [|r rest IH]; intros best ibest i; simpl; [left; reflexivity|].
  destruct (ltb (fabs best) (fabs (hd f0 r))).
  - right. destruct (IH (hd f0 r) i (S i)) as [->|H]; lia.
  - destruct (IH best ibest (S i)) as [->|H]; [left; reflexivity | right; lia].
Qed.

Lemma replace_nth_perm (r : list F) l :
  forall p d, (p < length l)%nat ->
              Permutation (r :: l) (nth p l d :: replace_nth p l r).
Proof.
  induction l as [|x l IH]; intros p d Hp; simpl in Hp; [lia|].
  destruct p as [|p]; simpl.
  - apply perm_swap.
  - eapply perm_trans; [apply perm_swap|].
    eapply perm_trans; [apply perm_skip, (IH p d); lia|].
    apply perm_swap.
Qed.

(** Pivoting only reorders the rows. *)
Lemma pivot_perm r0 rest p others :
  pivot r0 rest = (p, others) -> Permutation (r0 :: rest) (p :: others).
Proof.
  unfold pivot. intros H.
  destruct (argmax_abs_bound rest (hd f0 r0) 0 1) as [E|E].
  - rewrite E in H. injection H as <- <-. apply Permutation_refl.
  - destruct (argmax_abs (hd f0 r0) 0 1 rest) as [|k]; [lia|].
    injection H as <- <-. apply replace_nth_perm. lia.
Qed.

Lemma eliminate_length rows p rows' :
  eliminate rows = Some (p, rows') -> S (length rows') = length rows.
Proof.
  unfold eliminate. destruct rows as [|r0 rest]; [discriminate|].
  destruct (pivot r0 rest) as [q others] eqn:Ep.
  destruct (eqb (hd f0 q) f0); [discriminate|].
  intros H. injection H as <- <-. rewrite length_map.
  apply pivot_perm, Permutation_length in Ep. simpl in *. lia.
Qed.

Lemma lu_length n :
  forall rows us, lu n rows = Some us -> length us = n.
Proof.
  induction n as [|n IH]; intros rows us; simpl.
  - intros H. injection H as <-. reflexivity.
  - destruct (eliminate rows) as [[p rows']|]; [|discriminate].
    destruct (lu n rows') as [us'|] eqn:E; [|discriminate].
    intros H. injection H as <-. simpl. f_equal. eapply IH; eassumption.
Qed.

Lemma back_subst_length us : length (back_subst us) = length us.
Proof. induction us as [|u us IH]; simpl; [reflexivity | f_equal; assumption]. Qed.

(** [np.linalg.solve] on a 3x3 system: a solution of three entries, or
    LAPACK's report of a singular matrix. *)
Lemma linalg_solve_cases (a b : ndarray) :
  shape a = [3%nat; 3%nat] -> shape b = [3%nat] ->
  linalg_solve a b = Raise (LinAlgError msg_lapack_singular)
  \/ exists raw, linalg_solve a b = Ok raw /\ shape raw = [3%nat].
Proof.
  intros Ha Hb. unfold linalg_solve. rewrite Ha, Hb. cbn [Nat.eqb andb].
  destruct (lu 3 _) as [us|] eqn:E; [right | left; reflexivity].
  eexists. split; [reflexivity|]. unfold array1. cbn [shape].
  rewrite back_subst_length, (lu_length _ _ _ E). reflexivity.
Qed.
End GenericLapack.

Module SolveFacts.
Import XReal Spec XFacts GridFacts OrderFacts.
Local Open Scope R_scope.

(** ** Rows of reals *)

(** [r - l * p], entry by entry. *)
Local Abbreviation rsub l r p :=
  (map (fun q : R * R => fst q - l * snd q) (combine r p)).

Lemma dotR_cons x r z v : dotR (x :: r) (z :: v) = x * z + dotR r v.
Proof. reflexivity. Qed.

Lemma dotR_rsub l r :
  forall p v, length r = length p ->
              dotR (rsub l r p) v = dotR r v - l * dotR p v.
Proof.
  induction r as [|x r IH]; intros [|y p] v Hl; simpl in Hl; try lia.
  - unfold dotR. simpl. ring.
  - destruct v as [|z v]; [unfold dotR; simpl; ring|].
    cbn [combine map fst snd]. rewrite !dotR_cons, IH by lia. ring.
Qed.

Lemma dotR_snoc c :
  forall xs y z, length c = length xs ->
                 dotR (c ++ [y]) (xs ++ [z]) = dotR c xs + y * z.
Proof.
  induction c as [|a c IH]; intros [|x xs] y z Hl; simpl in Hl; try lia.
  - unfold dotR. simpl. ring.
  - cbn [app]. rewrite !dotR_cons, IH by lia. ring.
Qed.

(** ** The float operations on rows of finite entries *)

Lemma row_sub_fin l r :
  forall p, row_sub (Fin l) (map Fin r) (map Fin p) = map Fin (rsub l r p).
Proof.
  unfold row_sub. induction r as [|x r IH]; intros [|y p]; try reflexivity.
  cbn [map combine fst snd]. rewrite mul_fin, sub_fin. f_equal. apply IH.
Qed.

Lemma hd_fin r : hd f0 (map Fin r) = Fin (hd 0 r).
Proof. destruct r; reflexivity. Qed.

Lemma tl_fin r : tl (map Fin r) = map Fin (tl r).
Proof. destruct r; reflexivity. Qed.

Lemma last_fin r : last (map Fin r) f0 = Fin (last r 0).
Proof.
  induction r as [|x r IH]; [reflexivity|].
  destruct r as [|y r]; [reflexivity|]. exact IH.
Qed.

Lemma removelast_fin r : removelast (map Fin r) = map Fin (removelast r).
Proof.
  induction r as [|x r IH]; [reflexivity|].
  destruct r as [|y r]; [reflexivity|].
  cbn [map removelast] in *. rewrite IH. reflexivity.
Qed.

(** One elimination step on rows of finite entries. *)
Lemma eliminate_fin rows P rows' :
  eliminate (map (map Fin) rows) = Some (P, rows') ->
  exists p others,
    Permutation rows (p :: others)
    /\ P = map Fin p
    /\ hd 0 p <> 0
    /\ rows' = map (map Fin)
                   (map (fun r => tl (rsub (hd 0 r / hd 0 p) r p)) others).
Proof.
  unfold eliminate. destruct rows as [|r0 rest]; [discriminate|].
  cbn [map]. destruct (pivot _ _) as [Q O] eqn:Ep.
  apply pivot_perm in Ep.
  change (map Fin r0 :: map (map Fin) rest) with (map (map Fin) (r0 :: rest)) in Ep.
  apply Permutation_sym, Permutation_map_inv in Ep.
  destruct Ep as (l3 & E3 & Hperm). destruct l3 as [|p others]; [discriminate|].
  cbn [map] in E3. injection E3 as -> ->.
  rewrite hd_fin, f0_fin, eqb_fin.
  destruct (Reqb (hd 0 p) 0) eqn:Ez; [discriminate|].
  assert (Hp : hd 0 p <> 0).
  { intros E. apply Reqb_true in E. congruence. }
  intros H. injection H as <- <-.
  exists p, others. split; [assumption|]. split; [reflexivity|]. split; [assumption|].
  rewrite !map_map. apply map_ext. intros r.
  rewrite <- f0_fin, hd_fin, div_fin, row_sub_fin, tl_fin by assumption.
  reflexivity.
Qed.

(** The factorisation of a system of finite entries: the triangular rows
    are finite, their pivots are not zero, and a vector at which they
    hold solves every row of the system. *)
Lemma lu_fin n :
  forall rows US,
    lu n (map (map Fin) rows) = Some US ->
    length rows = n ->
    (forall r, In r rows -> length r = S n) ->
    exists us,
      US = map (map Fin) us
      /\ Forall (fun u => hd 0 u <> 0) us
      /\ (forall k u, nth_error us k = Some u -> length u = S (n - k))
      /\ (forall xs, triangular_holds us xs ->
                     forall r, In r rows -> row_holds r xs).
Proof.
  induction n as [|n IH]; intros rows US H Hlen Hrow.
  - cbn in H. injection H as <-. exists [].
    split; [reflexivity|]. split; [constructor|].
    split; [intros [|k] u; discriminate|].
    intros xs _ r Hin. apply length_zero_iff_nil in Hlen. subst. contradiction.
  - cbn [lu] in H.
    destruct (eliminate _) as [[P rows']|] eqn:Ee; [|discriminate].
    destruct (lu n rows') as [US'|] eqn:El; [|discriminate].
    injection H as <-.
    apply eliminate_fin in Ee.
    destruct Ee as (p & others & Hperm & -> & Hp & ->).
    assert (Hin_p : In p rows).
    { eapply Permutation_in; [apply Permutation_sym; eassumption | left; reflexivity]. }
    assert (Hin_o : forall r, In r others -> In r rows).
    { intros r Hr. eapply Permutation_in;
        [apply Permutation_sym; eassumption | right; assumption]. }
    assert (Hlen_o : length others = n).
    { apply Permutation_length in Hperm. simpl in Hperm. lia. }
    apply IH in El.
    2:{ rewrite length_map. assumption. }
    2:{ intros r' Hr'. apply in_map_iff in Hr'. destruct Hr' as (r & <- & Hr).
        pose proof (Hrow r (Hin_o r Hr)) as L1. pose proof (Hrow p Hin_p) as L2.
        destruct r as [|x r], p as [|y p]; simpl in L1, L2; try lia.
        cbn [combine map tl]. rewrite length_map, length_combine. lia. }
    destruct El as (us' & -> & Hpiv & Hlens & Hsound).
    exists (p :: us').
    split; [reflexivity|]. split; [constructor; assumption|].
    split.
    { intros [|k] u Hk; cbn in Hk.
      - injection Hk as <-. rewrite (Hrow p Hin_p). lia.
      - rewrite (Hlens k u Hk). reflexivity. }
    intros xs Hxs r Hr.
    destruct xs as [|x xs]; [contradiction|].
    destruct Hxs as (Hpx & Hrest).
    eapply Permutation_in in Hr; [|eassumption].
    destruct Hr as [<-|Hr]; [assumption|].
    pose proof (Hrow r (Hin_o r Hr)) as L1. pose proof (Hrow p Hin_p) as L2.
    assert (Hred : row_holds (tl (rsub (hd 0 r / hd 0 p) r p)) xs).
    { apply (Hsound xs Hrest). apply in_map_iff. exists r. split; [reflexivity | assumption]. }
    unfold row_holds in *.
    pose proof (dotR_rsub (hd 0 r / hd 0 p) r p ((x :: xs) ++ [-1]) ltac:(lia)) as Hsub.
    destruct r as [|a r], p as [|b p]; simpl in L1, L2; try lia.
    cbn [hd combine map tl fst snd app] in *.
    rewrite dotR_cons in Hsub. rewrite Hred, Hpx in Hsub.
    replace (a - a / b * b) with 0 in Hsub by (field; assumption).
    lra.
Qed.

(** Back substitution on finite triangular rows solves them. *)
Lemma back_subst_fold_fin c :
  forall xs y,
    fold_left (fun acc q => sub acc (mul (fst q) (snd q)))
              (combine (map Fin c) (map Fin xs)) (Fin y)
    = Fin (fold_left (fun acc q => acc - fst q * snd q) (combine c xs) y).
Proof.
  induction c as [|a c IH]; intros [|x xs] y; try reflexivity.
  cbn [map combine fold_left fst snd]. rewrite mul_fin, sub_fin. apply IH.
Qed.

Lemma fold_sub_dotR c :
  forall xs y,
    fold_left (fun acc q => acc - fst q * snd q) (combine c xs) y = y - dotR c xs.
Proof.
  induction c as [|a c IH]; intros [|x xs] y; try (unfold dotR; simpl; ring).
  cbn [combine fold_left fst snd]. rewrite IH, dotR_cons. ring.
Qed.

Lemma back_subst_fin us :
  Forall (fun u => hd 0 u <> 0) us ->
  (forall k u, nth_error us k = Some u -> length u = S (length us - k)) ->
  exists xs,
    back_subst (map (map Fin) us) = map Fin xs
    /\ length xs = length us
    /\ triangular_holds us xs.
Proof.
  induction us as [|u us IH]; intros Hpiv Hlens.
  - exists []. repeat split.
  - inversion Hpiv as [|? ? Hu Hpiv']; subst.
    destruct IH as (xs & Hbs & Hlen & Htri); [assumption | |].
    { intros k v Hk. rewrite (Hlens (S k) v Hk). reflexivity. }
    pose proof (Hlens 0%nat u eq_refl) as Lu. cbn [length] in Lu.
    destruct u as [|a t]; [discriminate|]. cbn [hd] in Hu.
    assert (Lt : length t = S (length us)) by (simpl in Lu; lia).
    assert (Et : t = removelast t ++ [last t 0]).
    { apply app_removelast_last. intros ->. discriminate. }
    assert (Lc : length (removelast t) = length xs).
    { rewrite Et, length_app in Lt. simpl in Lt. lia. }
    set (s := last t 0 - dotR (removelast t) xs).
    exists (s / a :: xs).
    split.
    { cbn [map back_subst]. rewrite Hbs.
      change (Fin a :: map Fin t) with (map Fin (a :: t)).
      rewrite tl_fin, removelast_fin, last_fin, hd_fin. cbn [tl hd].
      rewrite back_subst_fold_fin, fold_sub_dotR.
      rewrite div_fin by assumption.
      replace (last (a :: t) 0) with (last t 0)
        by (destruct t; [discriminate | reflexivity]).
      reflexivity. }
    split; [simpl; lia|].
    cbn [triangular_holds]. split; [|assumption].
    unfold row_holds. cbn [app]. rewrite dotR_cons.
    assert (Hd : dotR t (xs ++ [-1]) = dotR (removelast t) xs + last t 0 * -1).
    { rewrite Et at 1. apply dotR_snoc. assumption. }
    rewrite Hd. unfold s. field. assumption.
Qed.

(** In exact arithmetic a successful [np.linalg.solve] returns a solution
    of the system. *)
Lemma solve3_sound a b c d e f g h i y0 y1 y2 raw :
  linalg_solve (mat [[a; b; c]; [d; e; f]; [g; h; i]]) (vec [y0; y1; y2]) = Ok raw ->
  exists r0 r1 r2,
    raw = vec [r0; r1; r2]
    /\ a * r0 + b * r1 + c * r2 = y0
    /\ d * r0 + e * r1 + f * r2 = y1
    /\ g * r0 + h * r1 + i * r2 = y2.
Proof.
  unfold linalg_solve. cbn [mat vec array1 array2 shape length map hd Nat.eqb andb].
  set (rows := [[a; b; c; y0]; [d; e; f; y1]; [g; h; i; y2]]).
  change (map _ (seq 0 3)) with (map (map Fin) rows).
  destruct (lu 3 _) as [US|] eqn:El; [|discriminate].
  intros H. injection H as <-.
  pose proof (lu_length _ _ _ El) as Lus.
  apply lu_fin in El; [|reflexivity|].
  2:{ intros r [<-|[<-|[<-|[]]]]; reflexivity. }
  destruct El as (us & -> & Hpiv & Hlens & Hsound).
  rewrite length_map in Lus.
  destruct (back_subst_fin us Hpiv) as (xs & -> & Lxs & Htri).
  { rewrite Lus. assumption. }
  destruct xs as [|r0 [|r1 [|r2 [|r3 xs]]]]; simpl in Lxs; try lia.
  exists r0, r1, r2. split; [reflexivity|].
  pose proof (Hsound _ Htri [a; b; c; y0] (or_introl eq_refl)) as E0.
  pose proof (Hsound _ Htri [d; e; f; y1] (or_intror (or_introl eq_refl))) as E1.
  pose proof (Hsound _ Htri [g; h; i; y2]
                (or_intror (or_intror (or_introl eq_refl)))) as E2.
  unfold row_holds, dotR in E0, E1, E2. simpl in E0, E1, E2. lra.
Qed.
End SolveFacts.

Section GenericStats.
Context {F : Type} {ops : Float64 F}.

(** The record [portfolio_stats] builds whenever it returns. *)
Lemma portfolio_stats_inv (w mu cov : ndarray) rf r :
  portfolio_stats w mu cov rf = Ok r ->
  exists exp_ret var,
    r = {| weights := w;
           expected_return := exp_ret;
           volatility := fsqrt var;
           sharpe_ratio := if leb (fsqrt var) f0 then neg_inf
                           else div (sub exp_ret rf) (fsqrt var) |}.
Proof.
  unfold portfolio_stats, asarray. intros H.
  apply bind_ok_inv in H. destruct H as (e & _ & H).
  apply bind_ok_inv in H. destruct H as (wc & _ & H).
  apply bind_ok_inv in H. destruct H as (v & _ & H).
  injection H as <-. exists e, v. reflexivity.
Qed.
End GenericStats.

(** ** Comparisons of binary64 *)
Module B64Facts.
Lemma f0_b64 : f0 (ops := B64.ops) = 0%float.
Proof. reflexivity. Qed.

Lemma Prim2SF_zero : Prim2SF 0%float = S754_zero false.
Proof. reflexivity. Qed.

Lemma Prim2SF_neg_infinity : Prim2SF neg_infinity = S754_infinity true.
Proof. reflexivity. Qed.

Lemma Prim2SF_infinity : Prim2SF infinity = S754_infinity false.
Proof. reflexivity. Qed.

Lemma ltb_zero_leb (v : float) :
  PrimFloat.ltb 0 v = true -> PrimFloat.leb v 0 = false.
Proof.
  rewrite ltb_spec, leb_spec, Prim2SF_zero.
  destruct (Prim2SF v) as [s|s| |s m e]; try destruct s; cbn; congruence.
Qed.

Lemma eqb_zero_leb (v : float) :
  PrimFloat.eqb v 0 = true -> PrimFloat.leb v 0 = true.
Proof.
  rewrite FloatAxioms.eqb_spec, leb_spec, Prim2SF_zero.
  destruct (Prim2SF v) as [s|s| |s m e]; try destruct s; cbn; congruence.
Qed.

Lemma ltb_neg_infinity_finite (x : float) :
  PrimFloat.is_finite x = true -> PrimFloat.ltb neg_infinity x = true.
Proof.
  unfold is_finite, is_nan, is_infinity.
  rewrite ltb_spec, !FloatAxioms.eqb_spec, abs_spec,
    Prim2SF_neg_infinity, Prim2SF_infinity.
  destruct (Prim2SF x) as [s|s| |s m e]; try destruct s; cbn; congruence.
Qed.

Lemma ltb_irrefl_zero : PrimFloat.ltb 0 0 = false.
Proof. reflexivity. Qed.
End B64Facts.

Module StatsFacts.
Import XReal Spec XFacts GridFacts OrderFacts SolveFacts.
Local Open Scope R_scope.

Lemma fsqrt_fin_nonneg a : 0 <= a -> fsqrt (Fin a) = Fin (R_sqrt.sqrt a).
Proof. intros H. cbn. destruct (Rlt_dec a 0); [lra | reflexivity]. Qed.

(** [portfolio_stats] on finite entries, in exact arithmetic. *)
Lemma portfolio_stats_fin w0 w1 w2 m0 m1 m2 c00 c01 c02 c10 c11 c12 c20 c21 c22 rf :
  let w := [w0; w1; w2] in
  let c := [[c00; c01; c02]; [c10; c11; c12]; [c20; c21; c22]] in
  let vol := fsqrt (Fin (quad w c)) in
  portfolio_stats (vec w) (vec [m0; m1; m2]) (mat c) (Fin rf) =
  Ok {| weights := vec w;
        expected_return := Fin (dotR w [m0; m1; m2]);
        volatility := vol;
        sharpe_ratio := if leb vol f0 then neg_inf
                        else div (sub (Fin (dotR w [m0; m1; m2])) (Fin rf)) vol |}.
Proof.
  intros w c vol.
  destruct (portfolio_stats_shape (vec w) (vec [m0; m1; m2]) (mat c) (Fin rf))
    as (e & v & He & Hv & ->); try reflexivity.
  assert (e = Fin (dotR w [m0; m1; m2])) as ->.
  { cbn in He. injection He as <-. f_equal. unfold dotR, w. simpl. ring. }
  assert (v = Fin (quad w c)) as ->.
  { cbn in Hv. injection Hv as <-. f_equal. unfold quad, dotR, w, c. simpl. ring. }
  reflexivity.
Qed.
End StatsFacts.

Section GenericFX.
Context {F : Type} {ops : Float64 F}.

Lemma math_sqrt_py_max (v : F) :
  ltb f0 f0 = false -> exists r, math_sqrt (py_max v f0) = Ok r.
Proof.
  intros H0. unfold math_sqrt, py_max, gtb.
  destruct (ltb v f0) eqn:E.
  - rewrite H0. eexists; reflexivity.
  - rewrite E. eexists; reflexivity.
Qed.

(** The covariance matrix is built unless the square of a volatility
    overflows. *)
Lemma cov_matrix_cases (vol_a vol_b corr : F) :
  cov_matrix vol_a vol_b corr
  = if pow2_overflows vol_a || pow2_overflows vol_b
    then Raise (OverflowError msg_pow_overflow)
    else Ok (array2 [[mul vol_a vol_a; mul (mul (opp corr) vol_a) vol_b];
                     [mul (mul (opp corr) vol_a) vol_b; mul vol_b vol_b]]).
Proof.
  unfold cov_matrix, float_pow2.
  destruct (pow2_overflows vol_a); [reflexivity|].
  destruct (pow2_overflows vol_b); reflexivity.
Qed.

(** [portfolio_volatility] raises in one way only, on the overflow of a
    square: the argument of [math.sqrt] is never below zero. *)
Lemma portfolio_volatility_cases (w_a w_b vol_a vol_b corr : F) :
  ltb f0 f0 = false ->
  if pow2_overflows vol_a || pow2_overflows vol_b
  then portfolio_volatility w_a w_b vol_a vol_b corr
       = Raise (OverflowError msg_pow_overflow)
  else exists v, portfolio_volatility w_a w_b vol_a vol_b corr = Ok v.
Proof.
  intros H0. unfold portfolio_volatility. rewrite cov_matrix_cases.
  destruct (pow2_overflows vol_a || pow2_overflows vol_b); [reflexivity|].
  cbn [matmul array1 array2 shape length hd Nat.eqb bind py_float data map seq scalar].
  apply math_sqrt_py_max. assumption.
Qed.

(** [min_variance_weights] raises on the overflow of a square and on a
    zero pivot of the inversion, and in no other way. *)
Lemma min_variance_weights_cases (vol_a vol_b corr : F) :
  match min_variance_weights vol_a vol_b corr with
  | Ok _ => pow2_overflows vol_a || pow2_overflows vol_b = false
  | Raise e =>
      (pow2_overflows vol_a || pow2_overflows vol_b = true
       /\ e = OverflowError msg_pow_overflow)
      \/ (pow2_overflows vol_a || pow2_overflows vol_b = false
          /\ e = LinAlgError msg_lapack_singular)
  end.
Proof.
  unfold min_variance_weights. rewrite cov_matrix_cases.
  destruct (pow2_overflows vol_a || pow2_overflows vol_b);
    [left; split; reflexivity|].
  cbn [bind]. unfold linalg_inv.
  cbn [array2 shape length hd Nat.eqb seq map].
  match goal with
  | |- context [match ?o with Some _ => _ | None => Raise _ end] => destruct o
  end.
  - cbn. reflexivity.
  - right. split; reflexivity.
Qed.
End GenericFX.

Module HedgeFacts.
Import XReal Spec XFacts GridFacts OrderFacts SolveFacts StatsFacts.
Local Open Scope R_scope.

(** The covariance matrix of the two legs: the correlation enters
    negated. *)
Lemma cov_matrix_fin va vb c :
  cov_matrix (Fin va) (Fin vb) (Fin c)
  = Ok (mat [[va * va; - c * va * vb]; [- c * va * vb; vb * vb]]).
Proof. reflexivity. Qed.

Lemma portfolio_volatility_fin wa wb va vb c :
  portfolio_volatility (Fin wa) (Fin wb) (Fin va) (Fin vb) (Fin c)
  = Ok (Fin (R_sqrt.sqrt
               (Rmax (quad [wa; wb] [[va * va; - c * va * vb];
                                     [- c * va * vb; vb * vb]]) 0))).
Proof.
  unfold portfolio_volatility. rewrite cov_matrix_fin. cbn [bind].
  set (q := quad _ _).
  assert (Hq : bind (bind (matmul (array1 [Fin wa; Fin wb])
                                  (mat [[va * va; - c * va * vb];
                                        [- c * va * vb; vb * vb]]))
                          (fun v => matmul v (array1 [Fin wa; Fin wb])))
                    py_float = Ok (Fin q)).
  { cbn. f_equal. f_equal. unfold q, quad, dotR. simpl. ring. }
  rewrite Hq. cbn [bind].
  unfold math_sqrt, py_max, gtb. rewrite f0_fin, ltb_fin.
  destruct (Rltb q 0) eqn:E; rewrite ltb_fin.
  - apply Rltb_true in E.
    assert (Rltb 0 0 = false) as -> by (apply Rltb_false; lra).
    rewrite Rmax_right by lra. rewrite fsqrt_fin_nonneg by lra. reflexivity.
  - rewrite E. apply Rltb_false in E.
    rewrite Rmax_left by lra. rewrite fsqrt_fin_nonneg by lra. reflexivity.
Qed.
End HedgeFacts.

Module EvalFacts.
Import XReal Spec XFacts GridFacts OrderFacts SolveFacts StatsFacts HedgeFacts.
Local Open Scope R_scope.

Lemma Reqb_false a b : Reqb a b = false <-> a <> b.
Proof. unfold Reqb. destruct (Req_dec_T a b); split; intros; (congruence || tauto). Qed.

(** Evaluation on concrete finite entries: the tests on reals are
    settled by linear arithmetic. *)
Ltac solve_real :=
  unfold Rabs in *;
  repeat match goal with
         | |- context [Rcase_abs ?x] => destruct (Rcase_abs x)
         end;
  lra.

Ltac decide_test :=
  match goal with
  | |- context [Rltb ?x ?y] =>
      first [ replace (Rltb x y) with false by (symmetry; apply Rltb_false; solve_real)
            | replace (Rltb x y) with true by (symmetry; apply Rltb_true; solve_real) ]
  | |- context [Rleb ?x ?y] =>
      first [ replace (Rleb x y) with false by (symmetry; apply Rleb_false; solve_real)
            | replace (Rleb x y) with true by (symmetry; apply Rleb_true; solve_real) ]
  | |- context [Reqb ?x ?y] =>
      first [ replace (Reqb x y) with false by (symmetry; apply Reqb_false; solve_real)
            | replace (Reqb x y) with true by (symmetry; apply Reqb_true; solve_real) ]
  | |- context [Req_dec_T ?x ?y] =>
      destruct (Req_dec_T x y); [exfalso; solve_real|]
  | |- context [Req_dec_T ?x ?y] =>
      destruct (Req_dec_T x y); [|exfalso; solve_real]
  | |- context [Rlt_dec ?x ?y] =>
      destruct (Rlt_dec x y); [exfalso; solve_real|]
  | |- context [Rlt_dec ?x ?y] =>
      destruct (Rlt_dec x y); [|exfalso; solve_real]
  end.

Ltac xeval :=
  repeat progress (cbn -[IZR Rabs Z.pow_pos]; try unfold pivot; try decide_test).

Lemma min_variance_weights_symmetric :
  min_variance_weights (Fin 0.1) (Fin 0.1) (Fin 0) = Ok (Fin 0.5, Fin 0.5).
Proof.
  unfold min_variance_weights. rewrite cov_matrix_fin. cbn [bind].
  replace (mat [[0.1 * 0.1; - 0 * 0.1 * 0.1]; [- 0 * 0.1 * 0.1; 0.1 * 0.1]])
    with (mat [[0.01; 0]; [0; 0.01]])
    by (unfold mat; repeat (f_equal; try lra)).
  xeval. f_equal. f_equal; f_equal; lra.
Qed.

Lemma sqrt_200 : R_sqrt.sqrt (1 / 200) = 0.1 / R_sqrt.sqrt 2.
Proof.
  pose proof (sqrt_sqrt 2 ltac:(lra)) as H.
  assert (Hs : 0 < R_sqrt.sqrt 2) by (apply sqrt_lt_R0; lra).
  apply sqrt_lem_1; try lra.
  - apply Rlt_le, Rdiv_lt_0_compat; [lra | assumption].
  - field_simplify; [|lra]. rewrite pow2_sqrt by lra. lra.
Qed.

Lemma portfolio_volatility_symmetric :
  portfolio_volatility (Fin 0.5) (Fin 0.5) (Fin 0.1) (Fin 0.1) (Fin 0)
  = Ok (Fin (0.1 / R_sqrt.sqrt 2)).
Proof.
  rewrite portfolio_volatility_fin. f_equal. f_equal.
  rewrite <- sqrt_200. f_equal.
  unfold quad, dotR. simpl. rewrite Rmax_left by lra. lra.
Qed.

Lemma sqrt2_bounds : 1.414213562 < R_sqrt.sqrt 2 < 1.414213563.
Proof.
  split.
  - rewrite <- (sqrt_square 1.414213562) by lra. apply sqrt_lt_1; lra.
  - rewrite <- (sqrt_square 1.414213563) by lra. apply sqrt_lt_1; lra.
Qed.
End EvalFacts.

Module InverseFacts.
Import XReal Spec XFacts GridFacts OrderFacts SolveFacts StatsFacts HedgeFacts EvalFacts.
Local Open Scope R_scope.

(** One test of the elimination on a symbolic matrix: both outcomes are
    followed, with the outcome recorded as a hypothesis. *)
Ltac split_test :=
  match goal with
  | |- context [Rltb ?x ?y] => destruct (Rltb x y) eqn:?
  | |- context [Reqb ?x ?y] =>
      let E := fresh "E" in
      destruct (Reqb x y) eqn:E;
      [apply Reqb_true in E | apply Reqb_false in E]
  | |- context [Req_dec_T ?x ?y] => destruct (Req_dec_T x y); [try contradiction|]
  end.

(** The second pivot [x - y / p * z] is the determinant over the first
    pivot. *)
Ltac second_pivot_zero :=
  match goal with
  | E : ?x - ?y / ?p * ?z <> 0 |- _ =>
      apply E; replace (x - y / p * z) with ((x * p - y * z) / p)
        by (field; assumption);
      replace (x * p - y * z) with 0 by lra; unfold Rdiv; ring
  end.

(** When [np.linalg.inv] returns on a 2x2 matrix, what it returns is a
    right inverse. *)
Lemma inv2_sound a b c d inv :
  linalg_inv (mat [[a; b]; [c; d]]) = Ok inv ->
  exists x00 x01 x10 x11,
    inv = mat [[x00; x01]; [x10; x11]]
    /\ a * x00 + b * x10 = 1 /\ c * x00 + d * x10 = 0
    /\ a * x01 + b * x11 = 0 /\ c * x01 + d * x11 = 1.
Proof.
  unfold linalg_inv.
  cbn -[IZR Rabs Z.pow_pos]. unfold pivot.
  repeat progress (cbn -[IZR Rabs Z.pow_pos]; try unfold pivot; try split_test);
    try discriminate.
  all: intros H; injection H as <-.
  all: do 4 eexists; split; [reflexivity|].
  all: repeat split; field; repeat split; try assumption.
  all: intros H; second_pivot_zero.
Qed.

(** A 2x2 matrix of determinant zero has no inverse: the elimination meets
    a zero pivot. *)
Lemma inv2_singular a b c d :
  a * d - b * c = 0 ->
  linalg_inv (mat [[a; b]; [c; d]]) = Raise (LinAlgError msg_lapack_singular).
Proof.
  intros Hdet. unfold linalg_inv.
  cbn -[IZR Rabs Z.pow_pos]. unfold pivot.
  repeat progress (cbn -[IZR Rabs Z.pow_pos]; try unfold pivot; try split_test);
    try reflexivity.
  all: exfalso; second_pivot_zero.
Qed.
End InverseFacts.

Module ValidationFacts.
Import XReal Spec XFacts GridFacts OrderFacts SolveFacts StatsFacts HedgeFacts EvalFacts.
Local Open Scope R_scope.

(** The float literals of the source, in exact arithmetic. *)
Lemma lit_1e_5 : lit 1 (-5) = Fin 1e-5.
Proof.
  unfold lit. cbn [Z.leb Z.compare Z.opp]. rewrite !of_Z_fin, div_fin.
  - f_equal.
  - apply not_0_IZR. discriminate.
Qed.

Lemma lit_1e_10 : lit 1 (-10) = Fin 1e-10.
Proof.
  unfold lit. cbn [Z.leb Z.compare Z.opp]. rewrite !of_Z_fin, div_fin.
  - f_equal.
  - apply not_0_IZR. discriminate.
Qed.

Lemma lit_1e_14 : lit 1 (-14) = Fin 1e-14.
Proof.
  unfold lit. cbn [Z.leb Z.compare Z.opp]. rewrite !of_Z_fin, div_fin.
  - f_equal.
  - apply not_0_IZR. discriminate.
Qed.

(** [np.isclose] with the tolerances of the validation is the relation
    [close]. *)
Lemma isclose_close x y :
  isclose default_rtol (lit 1 (-10)) x y = true <-> close x y.
Proof.
  unfold isclose, default_rtol. rewrite lit_1e_5, lit_1e_10.
  destruct x as [a| | |], y as [b| | |]; cbn; try tauto; try (split; [discriminate | tauto]).
  apply Rleb_true.
Qed.

(** The symmetry check on a well-formed 3x3 array. *)
Lemma allclose_transpose (cov : ndarray) :
  shape cov = [3%nat; 3%nat] -> wf cov ->
  (allclose cov (T cov) (lit 1 (-10)) = true
   <-> forall i j, (i < 3)%nat -> (j < 3)%nat -> close (get2 cov i j) (get2 cov j i)).
Proof.
  destruct cov as [sh d]. cbn [shape]. intros -> Hwf.
  unfold wf in Hwf. cbn in Hwf.
  destruct d as [|d0 [|d1 [|d2 [|d3 [|d4 [|d5 [|d6 [|d7 [|d8 [|d9 d]]]]]]]]]];
    try discriminate Hwf.
  unfold allclose, T, get2. cbn [shape data seq flat_map map app combine forallb
    fst snd nth Nat.mul Nat.add].
  rewrite !andb_true_iff, !isclose_close.
  split.
  - intros (H00 & H01 & H02 & H10 & H11 & H12 & H20 & H21 & H22 & _) i j Hi Hj.
    destruct i as [|[|[|i]]]; try lia; destruct j as [|[|[|j]]]; try lia;
      assumption.
  - intros H.
    repeat split;
      first [ exact (H 0%nat 0%nat ltac:(lia) ltac:(lia))
            | exact (H 0%nat 1%nat ltac:(lia) ltac:(lia))
            | exact (H 0%nat 2%nat ltac:(lia) ltac:(lia))
            | exact (H 1%nat 0%nat ltac:(lia) ltac:(lia))
            | exact (H 1%nat 1%nat ltac:(lia) ltac:(lia))
            | exact (H 1%nat 2%nat ltac:(lia) ltac:(lia))
            | exact (H 2%nat 0%nat ltac:(lia) ltac:(lia))
            | exact (H 2%nat 1%nat ltac:(lia) ltac:(lia))
            | exact (H 2%nat 2%nat ltac:(lia) ltac:(lia)) ].
Qed.

Lemma close_refl_fin a : close (Fin a) (Fin a).
Proof.
  cbn. replace (a - a) with 0 by ring. rewrite Rabs_R0.
  pose proof (Rabs_pos a). lra.
Qed.

(** A matrix of finite entries that is exactly symmetric passes the
    validation. *)
Lemma validate_symmetric m0 m1 m2 a b c d e f :
  let mu := vec [m0; m1; m2] in
  let cov := mat [[a; b; c]; [b; d; e]; [c; e; f]] in
  _validate_inputs mu cov = Ok (mu, cov).
Proof.
  intros mu cov.
  destruct (validate_cases mu cov) as [[H _]|[(_ & H & _)|[(_ & _ & H & _)|(_ & _ & _ & H)]]].
  - exfalso. apply H. reflexivity.
  - exfalso. apply H. reflexivity.
  - apply not_true_iff_false in H. exfalso. apply H.
    apply allclose_transpose; [reflexivity | reflexivity |].
    intros i j Hi Hj.
    destruct i as [|[|[|i]]]; try lia; destruct j as [|[|[|j]]]; try lia;
      apply close_refl_fin.
  - exact H.
Qed.
End ValidationFacts.

Module SearchFacts.
Import XReal Spec Examples.
Import XFacts GridFacts OrderFacts SolveFacts StatsFacts HedgeFacts EvalFacts ValidationFacts.
Local Open Scope R_scope.
(** The statistics the grid search evaluates, one per candidate. *)
Lemma evaluated_stats (mu cov : ndarray) (rf : xreal) cands :
  shape mu = [3%nat] -> shape cov = [3%nat; 3%nat] ->
  Forall2 (fun c s => portfolio_stats (weights_of c) mu cov rf = Ok s)
          cands (map (fun c => stats_of (weights_of c) mu cov rf) cands).
Proof.
  intros Hmu Hcov. induction cands as [|c cands IH]; constructor; [|assumption].
  apply portfolio_stats_total; [|assumption|assumption].
  destruct c as [[w1 w2] w3]. reflexivity.
Qed.

Lemma long_only_small_grid (mu cov : ndarray) (rf : xreal) n :
  _validate_inputs mu cov = Ok (mu, cov) -> (n < 3)%Z ->
  optimize_sharpe_long_only mu cov rf n = Raise (ValueError msg_grid_size).
Proof.
  intros Hv Hn. unfold optimize_sharpe_long_only. rewrite Hv. cbn [bind].
  destruct (Z.ltb_spec n 3); [reflexivity | lia].
Qed.

Lemma validate_identity :
  _validate_inputs (ops := XReal.ops) mu_zero identity3 = Ok (mu_zero, identity3).
Proof. exact (validate_symmetric 0 0 0 1 0 0 1 0 1). Qed.
(** The statistics record carries the weights it was computed for. *)
Lemma weights_stats_of (w mu cov : ndarray) (rf : xreal) :
  shape w = [3%nat] -> shape mu = [3%nat] -> shape cov = [3%nat; 3%nat] ->
  weights (stats_of w mu cov rf) = w.
Proof.
  intros Hw Hmu Hcov. unfold stats_of.
  destruct (portfolio_stats_shape w mu cov rf Hw Hmu Hcov) as (e & v & _ & _ & ->).
  reflexivity.
Qed.
End SearchFacts.

Section GenericUnconstrained.
Context {F : Type} {ops : Float64 F}.

(** [mu - rf * ones] on a validated [mu]. *)
Lemma excess_ok (mu : ndarray) (rf : F) :
  shape mu = [3%nat] ->
  exists excess,
    arr_sub mu (scalar_mul rf (ones 3)) = Ok excess /\ shape excess = [3%nat].
Proof.
  intros Hmu. unfold arr_sub. rewrite Hmu. cbn [scalar_mul ones array1 shape length repeat].
  unfold shape_eqb. destruct (list_eq_dec _ _ _) as [_|n]; [|congruence].
  eexists. split; reflexivity.
Qed.

Lemma ones_dot_ok (raw : ndarray) :
  shape raw = [3%nat] ->
  exists denom, bind (matmul (ones 3) raw) py_float = Ok denom.
Proof.
  intros Hraw. unfold matmul. rewrite Hraw.
  cbn [ones array1 shape length repeat Nat.eqb bind py_float scalar data].
  eexists. reflexivity.
Qed.

(** The analytical solver on validated inputs, case by case. *)
Lemma unconstrained_cases (mu cov : ndarray) (rf : F) :
  _validate_inputs mu cov = Ok (mu, cov) ->
  exists excess,
    arr_sub mu (scalar_mul rf (ones 3)) = Ok excess
    /\ ((linalg_solve cov excess = Raise (LinAlgError msg_lapack_singular)
         /\ optimize_sharpe_unconstrained mu cov rf = Raise (ValueError msg_singular))
        \/ (exists raw denom,
               linalg_solve cov excess = Ok raw
               /\ shape raw = [3%nat]
               /\ bind (matmul (ones 3) raw) py_float = Ok denom
               /\ ((ltb (fabs denom) (lit 1 (-14)) = true
                    /\ optimize_sharpe_unconstrained mu cov rf
                       = Raise (ValueError msg_degenerate))
                   \/ (ltb (fabs denom) (lit 1 (-14)) = false
                       /\ optimize_sharpe_unconstrained mu cov rf
                          = Ok (stats_of (div_scalar raw denom) mu cov rf))))).
Proof.
  intros Hv.
  destruct (validate_ok _ _ _ Hv) as (_ & Hmu & Hcov & _).
  destruct (excess_ok mu rf Hmu) as (excess & He & Hes).
  exists excess. split; [assumption|].
  unfold optimize_sharpe_unconstrained. rewrite Hv. cbn [bind]. rewrite He. cbn [bind].
  destruct (linalg_solve_cases cov excess Hcov Hes) as [Hs|(raw & Hs & Hraw)].
  - left. split; [assumption|]. rewrite Hs. reflexivity.
  - right. destruct (ones_dot_ok raw Hraw) as (denom & Hd).
    exists raw, denom. split; [assumption|]. split; [assumption|].
    split; [assumption|].
    rewrite Hs. cbn [except_LinAlgError bind]. rewrite Hd. cbn [bind].
    destruct (ltb (fabs denom) (lit 1 (-14))).
    + left. split; reflexivity.
    + right. split; [reflexivity|].
      apply portfolio_stats_total; [|assumption|assumption].
      cbn [div_scalar shape]. assumption.
Qed.
End GenericUnconstrained.

Module TangencyFacts.
Import XReal Spec Examples.
Import XFacts GridFacts OrderFacts SolveFacts StatsFacts HedgeFacts EvalFacts ValidationFacts SearchFacts.
Local Open Scope R_scope.
Lemma excess_fin m0 m1 m2 rf :
  arr_sub (vec [m0; m1; m2]) (scalar_mul (Fin rf) (ones 3))
  = Ok (vec [m0 - rf * 1; m1 - rf * 1; m2 - rf * 1]).
Proof.
  unfold arr_sub. cbn [vec array1 shape map length scalar_mul ones repeat].
  unfold shape_eqb. destruct (list_eq_dec _ _ _) as [_|n]; [|congruence].
  reflexivity.
Qed.

Lemma ones_dot_fin r0 r1 r2 :
  bind (matmul (ones 3) (vec [r0; r1; r2])) py_float
  = Ok (Fin (0 + 1 * r0 + 1 * r1 + 1 * r2)).
Proof. reflexivity. Qed.

(** The analytical solver in exact arithmetic, on finite inputs. *)
Lemma unconstrained_fin m0 m1 m2 c00 c01 c02 c10 c11 c12 c20 c21 c22 rf res :
  let c := [[c00; c01; c02]; [c10; c11; c12]; [c20; c21; c22]] in
  optimize_sharpe_unconstrained (vec [m0; m1; m2]) (mat c) (Fin rf) = Ok res ->
  exists r0 r1 r2,
    c00 * r0 + c01 * r1 + c02 * r2 = m0 - rf * 1
    /\ c10 * r0 + c11 * r1 + c12 * r2 = m1 - rf * 1
    /\ c20 * r0 + c21 * r1 + c22 * r2 = m2 - rf * 1
    /\ 1e-14 <= Rabs (r0 + r1 + r2)
    /\ weights res = vec [r0 / (r0 + r1 + r2); r1 / (r0 + r1 + r2);
                          r2 / (r0 + r1 + r2)].
Proof.
  intros c Hres.
  assert (Hv : _validate_inputs (vec [m0; m1; m2]) (mat c)
               = Ok (vec [m0; m1; m2], mat c)).
  { unfold optimize_sharpe_unconstrained in Hres.
    apply bind_ok_inv in Hres. destruct Hres as (p & Hp & _).
    destruct (validate_ok _ _ _ Hp) as (-> & _). assumption. }
  destruct (unconstrained_cases _ _ (Fin rf) Hv) as (excess & He & Hcases).
  rewrite excess_fin in He. injection He as <-.
  destruct Hcases as [(_ & Ho)|(raw & denom & Hs & _ & Hd & Hcases)];
    [rewrite Ho in Hres; discriminate|].
  apply solve3_sound in Hs. destruct Hs as (r0 & r1 & r2 & -> & E0 & E1 & E2).
  rewrite ones_dot_fin in Hd. injection Hd as <-.
  destruct Hcases as [(_ & Ho)|(Hlt & Ho)]; rewrite Ho in Hres; [discriminate|].
  injection Hres as <-.
  rewrite lit_1e_14, fabs_fin, ltb_fin in Hlt. apply Rltb_false in Hlt.
  replace (0 + 1 * r0 + 1 * r1 + 1 * r2) with (r0 + r1 + r2) in * by ring.
  exists r0, r1, r2. repeat (split; [assumption|]).
  assert (Hnz : r0 + r1 + r2 <> 0).
  { intros E. rewrite E, Rabs_R0 in Hlt. lra. }
  unfold stats_of.
  destruct (portfolio_stats_shape (div_scalar (vec [r0; r1; r2]) (Fin (r0 + r1 + r2)))
              (vec [m0; m1; m2]) (mat c) (Fin rf))
    as (e & v & _ & _ & ->); try reflexivity.
  cbn [weights]. unfold div_scalar, vec, array1. cbn [shape data map length].
  rewrite !div_fin by assumption. reflexivity.
Qed.

Lemma unconstrained_example :
  exists res,
    optimize_sharpe_unconstrained (vec [1; 1; 1])
      (mat [[1; 0; 0]; [0; 1; 0]; [0; 0; 1]]) (Fin 0) = Ok res.
Proof.
  destruct (unconstrained_cases _ _ (Fin 0) (validate_symmetric 1 1 1 1 0 0 1 0 1))
    as (excess & He & Hcases).
  rewrite excess_fin in He. injection He as <-.
  assert (Hsolve : linalg_solve (mat [[1; 0; 0]; [0; 1; 0]; [0; 0; 1]])
                     (vec [1 - 0 * 1; 1 - 0 * 1; 1 - 0 * 1])
                   = Ok (vec [1; 1; 1])).
  { unfold linalg_solve. xeval. unfold vec, array1. cbn [map length].
    do 2 f_equal. repeat (f_equal; try lra). }
  destruct Hcases as [(Hs & _)|(raw & denom & Hs & _ & Hd & Hcases)].
  - rewrite Hsolve in Hs. discriminate.
  - rewrite Hsolve in Hs. injection Hs as <-.
    rewrite ones_dot_fin in Hd. injection Hd as <-.
    destruct Hcases as [(Hlt & _)|(_ & Ho)]; [|eexists; exact Ho].
    exfalso. rewrite lit_1e_14, fabs_fin, ltb_fin in Hlt.
    apply Rltb_true in Hlt. revert Hlt. solve_real.
Qed.
End TangencyFacts.

(* ================================================================== *)
(** * Lemmas on the readers, the hedge and the optimisers *)
(* ================================================================== *)

Module ReaderFacts.
Import Console FXMain ReaderSpec.

Section Readers.
Context {F : Type} {ops : Float64 F}.
Context (strip : string -> string) (float_of_str : string -> option F).

Local Abbreviation read_float_loop := (_read_float_loop strip float_of_str).
Local Abbreviation read_float := (_read_float strip float_of_str).
Local Abbreviation read_vol_loop := (_read_vol_loop strip float_of_str).
Local Abbreviation read_vol := (_read_vol strip float_of_str).
Local Abbreviation read_corr_loop := (_read_corr_loop strip float_of_str).
Local Abbreviation read_corr := (_read_corr strip float_of_str).
Local Abbreviation unparsable := (unparsable strip float_of_str).
Local Abbreviation scan := (scan strip float_of_str).

Lemma read_float_loop_valid fuel prompt bad good rest out v :
  (length bad < fuel)%nat ->
  Forall unparsable bad ->
  float_of_str (strip good) = Some v ->
  read_float_loop fuel prompt {| stdin := bad ++ good :: rest; stdout := out |}
  = Some (Returned v,
          {| stdin := rest;
             stdout := out ++ rejections prompt msg_valid_number bad ++ [Prompt prompt] |}).
Proof.
  revert fuel out. induction bad as [|b bad IH]; intros fuel out Hf Hbad Hgood.
  - destruct fuel as [|fuel]; [simpl in Hf; lia|].
    cbn. rewrite Hgood. reflexivity.
  - destruct fuel as [|fuel]; [simpl in Hf; lia|].
    inversion Hbad as [|? ? Hb Hbad']; subst.
    cbn. rewrite Hb. cbn.
    unfold write. cbn.
    rewrite IH; [|simpl in Hf; lia | assumption | assumption].
    rewrite <- !app_assoc. reflexivity.
Qed.

Lemma read_float_loop_eof fuel prompt bad out :
  (length bad < fuel)%nat ->
  Forall unparsable bad ->
  read_float_loop fuel prompt {| stdin := bad; stdout := out |}
  = Some (EOFError,
          {| stdin := [];
             stdout := out ++ rejections prompt msg_valid_number bad ++ [Prompt prompt] |}).
Proof.
  revert fuel out. induction bad as [|b bad IH]; intros fuel out Hf Hbad.
  - destruct fuel as [|fuel]; [simpl in Hf; lia|]. reflexivity.
  - destruct fuel as [|fuel]; [simpl in Hf; lia|].
    inversion Hbad as [|? ? Hb Hbad']; subst.
    cbn. rewrite Hb. cbn. unfold write. cbn.
    rewrite IH; [|simpl in Hf; lia | assumption].
    rewrite <- !app_assoc. reflexivity.
Qed.

(** Every input splits into unparsable lines followed by nothing or by a
    line that parses. *)
Lemma split_unparsable (lines : list string) :
  (Forall unparsable lines)
  \/ exists bad good rest v,
       lines = bad ++ good :: rest /\ Forall unparsable bad
       /\ float_of_str (strip good) = Some v.
Proof.
  induction lines as [|l lines IH].
  - left. constructor.
  - destruct (float_of_str (strip l)) as [v|] eqn:E.
    + right. exists [], l, lines, v. repeat split; [constructor | assumption].
    + destruct IH as [IH | (bad & good & rest & v & -> & Hbad & Hv)].
      * left. constructor; assumption.
      * right. exists (l :: bad), good, rest, v.
        repeat split; [constructor; assumption | assumption].
Qed.

(** The two ways [_read_float] ends. *)
Lemma read_float_cases prompt (c : console) :
  (exists bad good rest v,
      stdin c = bad ++ good :: rest /\ Forall unparsable bad
      /\ float_of_str (strip good) = Some v
      /\ read_float prompt c
         = Some (Returned v,
                 {| stdin := rest;
                    stdout := stdout c ++ rejections prompt msg_valid_number bad
                              ++ [Prompt prompt] |}))
  \/ (Forall unparsable (stdin c)
      /\ read_float prompt c
         = Some (EOFError,
                 {| stdin := [];
                    stdout := stdout c ++ rejections prompt msg_valid_number (stdin c)
                              ++ [Prompt prompt] |})).
Proof.
  destruct c as [lines out]. unfold _read_float, iterations. cbn [stdin stdout].
  destruct (split_unparsable lines) as [Hall | (bad & good & rest & v & -> & Hbad & Hv)].
  - right. split; [assumption|]. apply read_float_loop_eof; [lia | assumption].
  - left. exists bad, good, rest, v. repeat split; try assumption.
    apply read_float_loop_valid; try assumption.
    rewrite length_app. simpl. lia.
Qed.

Lemma scan_unparsable reject msg prompt bad tail out :
  Forall unparsable bad ->
  scan reject msg prompt (bad ++ tail) out
  = scan reject msg prompt tail (out ++ rejections prompt msg_valid_number bad).
Proof.
  revert out. induction bad as [|b bad IH]; intros out Hbad.
  - cbn. rewrite app_nil_r. reflexivity.
  - inversion Hbad as [|? ? Hb Hbad']; subst.
    cbn. rewrite Hb. rewrite IH by assumption.
    rewrite <- !app_assoc. reflexivity.
Qed.

Section Retry.
Context (reject : F -> bool) (msg : string) (loop : nat -> string -> io F).
Hypothesis loop_O : forall prompt c, loop O prompt c = None.
Hypothesis loop_S : forall fuel prompt,
  loop (S fuel) prompt
  = (value <- read_float prompt ;;
     if reject value
     then print msg ;; loop fuel prompt
     else call (Ok value))%io.

Lemma retry_scan fuel prompt lines out :
  (length lines < fuel)%nat ->
  loop fuel prompt {| stdin := lines; stdout := out |}
  = Some (scan reject msg prompt lines out).
Proof.
  revert lines out. induction fuel as [|fuel IH]; intros lines out Hf; [lia|].
  rewrite loop_S. unfold io_bind at 1.
  destruct (read_float_cases prompt {| stdin := lines; stdout := out |})
    as [(bad & good & rest & v & Hl & Hbad & Hv & ->) | (Hall & ->)];
    cbn [stdin stdout] in *.
  - subst lines. rewrite scan_unparsable by assumption.
    cbn [scan]. rewrite Hv.
    destruct (reject v).
    + unfold io_bind, print, write. cbn [stdin stdout].
      rewrite IH.
      * rewrite <- !app_assoc. reflexivity.
      * rewrite length_app in Hf. simpl in Hf. lia.
    + unfold call. rewrite <- app_assoc. reflexivity.
  - rewrite <- (app_nil_r lines) at 2.
    rewrite scan_unparsable by assumption. cbn [scan].
    rewrite <- app_assoc. reflexivity.
Qed.
End Retry.

Lemma scan_accepts reject msg prompt line rest out v :
  float_of_str (strip line) = Some v -> reject v = false ->
  scan reject msg prompt (line :: rest) out
  = (Returned v, {| stdin := rest; stdout := out ++ [Prompt prompt] |}).
Proof. intros Hv Hr. cbn [scan]. rewrite Hv, Hr. reflexivity. Qed.

Lemma read_vol_scan prompt (c : console) :
  read_vol prompt c
  = Some (scan (fun v => ltb v f0) msg_vol_negative prompt (stdin c) (stdout c)).
Proof.
  destruct c as [lines out]. unfold _read_vol, iterations. cbn [stdin stdout].
  apply (retry_scan (fun v => ltb v f0) msg_vol_negative read_vol_loop);
    first [lia | reflexivity].
Qed.

Lemma read_corr_scan prompt (c : console) :
  read_corr prompt c
  = Some (scan (fun v => ltb v (of_Z (-1)) || gtb v (of_Z 1)) msg_corr_range prompt
               (stdin c) (stdout c)).
Proof.
  destruct c as [lines out]. unfold _read_corr, iterations. cbn [stdin stdout].
  apply (retry_scan (fun v => ltb v (of_Z (-1)) || gtb v (of_Z 1)) msg_corr_range
           read_corr_loop);
    first [lia | reflexivity].
Qed.

(** A first line that is acceptable is returned at once. *)
Lemma read_vol_accepts prompt line rest out v :
  float_of_str (strip line) = Some v -> ltb v f0 = false ->
  read_vol prompt {| stdin := line :: rest; stdout := out |}
  = Some (Returned v, {| stdin := rest; stdout := out ++ [Prompt prompt] |}).
Proof.
  intros Hv Hr. rewrite read_vol_scan. cbn [stdin stdout].
  rewrite (scan_accepts _ _ _ _ _ _ v); [reflexivity | exact Hv | exact Hr].
Qed.

Lemma read_corr_accepts prompt line rest out v :
  float_of_str (strip line) = Some v ->
  ltb v (of_Z (-1)) = false -> gtb v (of_Z 1) = false ->
  read_corr prompt {| stdin := line :: rest; stdout := out |}
  = Some (Returned v, {| stdin := rest; stdout := out ++ [Prompt prompt] |}).
Proof.
  intros Hv H1 H2. rewrite read_corr_scan. cbn [stdin stdout].
  rewrite (scan_accepts _ _ _ _ _ _ v); [reflexivity | exact Hv |].
  rewrite H1, H2. reflexivity.
Qed.
(** What a scan returns. *)
Lemma scan_result reject msg prompt lines out :
  exists r c',
    scan reject msg prompt lines out = (r, c')
    /\ (exists consumed, lines = consumed ++ stdin c')
    /\ match r with
       | Returned v =>
           reject v = false
           /\ exists line, In line lines /\ float_of_str (strip line) = Some v
       | Uncaught _ => False
       | EOFError =>
           stdin c' = []
           /\ Forall (fun line => forall v, float_of_str (strip line) = Some v ->
                                            reject v = true) lines
       end.
Proof.
  revert out. induction lines as [|l lines IH]; intros out.
  - eexists _, _. split; [reflexivity|]. split; [exists []; reflexivity|].
    split; [reflexivity | constructor].
  - cbn [ReaderSpec.scan].
    destruct (float_of_str (strip l)) as [v|] eqn:E.
    + destruct (reject v) eqn:Er.
      * destruct (IH (out ++ [Prompt prompt; Line msg])) as (r & c' & -> & (cs & Hcs) & Hr).
        exists r, c'. split; [reflexivity|].
        split; [exists (l :: cs); rewrite Hcs at 1; reflexivity|].
        destruct r as [v'| |]; [| exact Hr |].
        -- destruct Hr as (Hrej & line & Hin & Hline).
           split; [exact Hrej|]. exists line. split; [right; exact Hin | exact Hline].
        -- destruct Hr as (Hnil & Hall). split; [exact Hnil|].
           constructor; [|exact Hall].
           intros v' Hv'. rewrite E in Hv'. injection Hv' as <-. exact Er.
      * eexists _, _. split; [reflexivity|]. cbn [stdin].
        split; [exists [l]; reflexivity|].
        split; [exact Er|]. exists l. split; [left; reflexivity | exact E].
    + destruct (IH (out ++ [Prompt prompt; Line msg_valid_number]))
        as (r & c' & -> & (cs & Hcs) & Hr).
      exists r, c'. split; [reflexivity|].
      split; [exists (l :: cs); rewrite Hcs at 1; reflexivity|].
      destruct r as [v'| |]; [| exact Hr |].
      * destruct Hr as (Hrej & line & Hin & Hline).
        split; [exact Hrej|]. exists line. split; [right; exact Hin | exact Hline].
      * destruct Hr as (Hnil & Hall). split; [exact Hnil|].
        constructor; [|exact Hall].
        intros v' Hv'. rewrite E in Hv'. discriminate.
Qed.
End Readers.
End ReaderFacts.

Module HedgeForm.
Import XReal Spec XFacts GridFacts OrderFacts SolveFacts StatsFacts HedgeFacts EvalFacts.
Import InverseFacts.
Local Open Scope R_scope.

Lemma inv2_total a b c d :
  a * d - b * c <> 0 ->
  exists inv, linalg_inv (mat [[a; b]; [c; d]]) = Ok inv.
Proof.
  intros Hdet. unfold linalg_inv.
  cbn -[IZR Rabs Z.pow_pos]. unfold pivot.
  repeat progress (cbn -[IZR Rabs Z.pow_pos]; try unfold pivot; try split_test);
    try (eexists; reflexivity).
  all: exfalso.
  - apply Rltb_true in Heqb0. subst c. rewrite Rabs_R0 in Heqb0.
    pose proof (Rabs_pos a). lra.
  - apply Hdet.
    replace (a * d - b * c) with (- c * (b - a / c * d)) by (field; assumption).
    rewrite E0. ring.
  - apply Rltb_false in Heqb0. subst a. rewrite Rabs_R0 in Heqb0.
    pose proof (Rabs_pos c).
    assert (Hc : c = 0).
    { destruct (Req_dec c 0) as [|Hn]; [assumption|].
      apply Rabs_pos_lt in Hn. lra. }
    apply Hdet. subst c. ring.
  - apply Hdet.
    replace (a * d - b * c) with (a * (d - c / a * b)) by (field; assumption).
    rewrite E0. ring.
Qed.

(** The entries of a right inverse of a 2x2 matrix. *)
Lemma inv2_entries a b c d x00 x01 x10 x11 :
  a * d - b * c <> 0 ->
  a * x00 + b * x10 = 1 -> c * x00 + d * x10 = 0 ->
  a * x01 + b * x11 = 0 -> c * x01 + d * x11 = 1 ->
  x00 = d / (a * d - b * c) /\ x01 = - b / (a * d - b * c)
  /\ x10 = - c / (a * d - b * c) /\ x11 = a / (a * d - b * c).
Proof.
  intros Hdet H1 H2 H3 H4.
  assert (E00 : (a * d - b * c) * x00 = d).
  { replace ((a * d - b * c) * x00)
      with (d * (a * x00 + b * x10) - b * (c * x00 + d * x10)) by ring.
    rewrite H1, H2. ring. }
  assert (E10 : (a * d - b * c) * x10 = - c).
  { replace ((a * d - b * c) * x10)
      with (a * (c * x00 + d * x10) - c * (a * x00 + b * x10)) by ring.
    rewrite H1, H2. ring. }
  assert (E01 : (a * d - b * c) * x01 = - b).
  { replace ((a * d - b * c) * x01)
      with (d * (a * x01 + b * x11) - b * (c * x01 + d * x11)) by ring.
    rewrite H3, H4. ring. }
  assert (E11 : (a * d - b * c) * x11 = a).
  { replace ((a * d - b * c) * x11)
      with (a * (c * x01 + d * x11) - c * (a * x01 + b * x11)) by ring.
    rewrite H3, H4. ring. }
  repeat split.
  - apply (Rmult_eq_reg_l (a * d - b * c)); [|assumption].
    rewrite E00. field. assumption.
  - apply (Rmult_eq_reg_l (a * d - b * c)); [|assumption].
    rewrite E01. field. assumption.
  - apply (Rmult_eq_reg_l (a * d - b * c)); [|assumption].
    rewrite E10. field. assumption.
  - apply (Rmult_eq_reg_l (a * d - b * c)); [|assumption].
    rewrite E11. field. assumption.
Qed.

Lemma hedge_denominator_pos va vb c :
  vb <> 0 -> -1 < c < 1 -> 0 < va * va + vb * vb + 2 * c * va * vb.
Proof.
  intros Hvb Hc.
  replace (va * va + vb * vb + 2 * c * va * vb)
    with ((va + c * vb) * (va + c * vb) + (1 - c * c) * (vb * vb)) by ring.
  assert (H1 : 0 < vb * vb) by (destruct (Rdichotomy _ _ Hvb); nra).
  assert (H2 : 0 < 1 - c * c) by nra.
  assert (H3 : 0 <= (va + c * vb) * (va + c * vb)) by apply Rle_0_sqr.
  pose proof (Rmult_lt_0_compat _ _ H2 H1). lra.
Qed.

Lemma hedge_closed_form_aux va vb c :
  va <> 0 -> vb <> 0 -> c * c <> 1 ->
  va * va + vb * vb + 2 * c * va * vb <> 0 ->
  min_variance_weights (Fin va) (Fin vb) (Fin c)
  = Ok (Fin ((vb * vb + c * va * vb) / (va * va + vb * vb + 2 * c * va * vb)),
        Fin ((va * va + c * va * vb) / (va * va + vb * vb + 2 * c * va * vb))).
Proof.
  intros Hva Hvb Hc HS.
  unfold min_variance_weights. rewrite cov_matrix_fin. cbn [bind].
  set (A := va * va). set (B := - c * va * vb). set (D := vb * vb).
  assert (Hdet : A * D - B * B <> 0).
  { unfold A, B, D.
    replace (va * va * (vb * vb) - - c * va * vb * (- c * va * vb))
      with ((va * va) * (vb * vb) * (1 - c * c)) by ring.
    repeat apply Rmult_integral_contrapositive_currified; try assumption.
    intros E. apply Hc. lra. }
  destruct (inv2_total A B B D Hdet) as (inv & Hinv).
  rewrite Hinv.
  apply inv2_sound in Hinv as (x00 & x01 & x10 & x11 & -> & H1 & H2 & H3 & H4).
  destruct (inv2_entries _ _ _ _ _ _ _ _ Hdet H1 H2 H3 H4) as (E00 & E01 & E10 & E11).
  cbn -[IZR Rabs Z.pow_pos].
  set (den := 0 + (0 + 1 * x00 + 1 * x10) * 1 + (0 + 1 * x01 + 1 * x11) * 1).
  assert (Eden : den = (va * va + vb * vb + 2 * c * va * vb) / (A * D - B * B)).
  { unfold den. rewrite E00, E01, E10, E11. unfold A, B, D. field. exact Hdet. }
  destruct (Req_dec_T den 0) as [Hd | Hd].
  { exfalso. rewrite Eden in Hd.
    apply (Rmult_eq_compat_r (A * D - B * B)) in Hd.
    unfold Rdiv in Hd. rewrite Rmult_assoc, Rinv_l, Rmult_1_r, Rmult_0_l in Hd by exact Hdet.
    contradiction. }
  f_equal. f_equal; f_equal; rewrite Eden, ?E00, ?E01, ?E10, ?E11;
    unfold A, B, D; field; split; assumption || exact Hdet.
Qed.

(** The weights of the hedge in closed form. *)
Lemma hedge_weights_fin va vb c :
  va <> 0 -> vb <> 0 -> -1 < c < 1 ->
  let S := va * va + vb * vb + 2 * c * va * vb in
  min_variance_weights (Fin va) (Fin vb) (Fin c)
  = Ok (Fin ((vb * vb + c * va * vb) / S), Fin ((va * va + c * va * vb) / S)).
Proof.
  intros Hva Hvb Hc S.
  pose proof (hedge_denominator_pos va vb c Hvb Hc) as HS.
  apply hedge_closed_form_aux; try assumption; [nra | lra].
Qed.

Lemma variance_at_hedge va vb c x :
  let S := va * va + vb * vb + 2 * c * va * vb in
  let wx := (vb * vb + c * va * vb) / S in
  let cov := [[va * va; - c * va * vb]; [- c * va * vb; vb * vb]] in
  S <> 0 ->
  quad [x; 1 - x] cov = quad [wx; 1 - wx] cov + (x - wx) * (x - wx) * S.
Proof.
  intros S wx cov HS. unfold quad, dotR, cov. cbn -[Rmult Rplus].
  assert (E : wx * S = vb * vb + c * va * vb).
  { unfold wx. field. exact HS. }
  clearbody wx. unfold S in *. clear S.
  apply Rminus_diag_uniq.
  match goal with
  | |- ?l - ?r = 0 =>
      replace (l - r)
        with (2 * (x - wx) * (wx * (va * va + vb * vb + 2 * c * va * vb)
                              - (vb * vb + c * va * vb))) by ring
  end.
  rewrite E. ring.
Qed.

(** The volatility at the minimum-variance weights. *)
Lemma hedged_volatility_fin va vb c :
  va <> 0 -> vb <> 0 -> -1 < c < 1 ->
  let S := va * va + vb * vb + 2 * c * va * vb in
  let m := va * va * (vb * vb) * (1 - c * c) / S in
  0 <= m
  /\ portfolio_volatility (Fin ((vb * vb + c * va * vb) / S))
       (Fin ((va * va + c * va * vb) / S)) (Fin va) (Fin vb) (Fin c)
     = Ok (Fin (R_sqrt.sqrt m)).
Proof.
  intros Hva Hvb Hc S m.
  pose proof (hedge_denominator_pos va vb c Hvb Hc) as HS. fold S in HS.
  assert (Hq : quad [(vb * vb + c * va * vb) / S; (va * va + c * va * vb) / S]
                    [[va * va; - c * va * vb]; [- c * va * vb; vb * vb]] = m).
  { unfold quad, dotR, m. cbn -[Rmult Rplus]. unfold S. field. fold S. lra. }
  assert (Hm : 0 <= m).
  { unfold m. apply Rmult_le_pos; [|left; apply Rinv_0_lt_compat; exact HS].
    apply Rmult_le_pos; [apply Rmult_le_pos; apply Rle_0_sqr | nra]. }
  split; [exact Hm|].
  rewrite portfolio_volatility_fin, Hq, Rmax_left by exact Hm. reflexivity.
Qed.

End HedgeForm.

Module OptimalityFacts.
Import XReal Spec Examples.
Import XFacts GridFacts OrderFacts SolveFacts StatsFacts HedgeFacts EvalFacts.
Import ValidationFacts SearchFacts TangencyFacts.
Local Open Scope R_scope.

(** A finite Sharpe ratio comes from a positive variance. *)
Lemma sharpe_fin_inv w0 w1 w2 m0 m1 m2 c00 c01 c02 c10 c11 c12 c20 c21 c22 rf s S :
  let w := [w0; w1; w2] in
  let c := [[c00; c01; c02]; [c10; c11; c12]; [c20; c21; c22]] in
  portfolio_stats (vec w) (vec [m0; m1; m2]) (mat c) (Fin rf) = Ok s ->
  sharpe_ratio s = Fin S ->
  0 < quad w c
  /\ S = (dotR w [m0; m1; m2] - rf) / R_sqrt.sqrt (quad w c).
Proof.
  intros w c Hs HS. subst w c.
  rewrite (portfolio_stats_fin w0 w1 w2 m0 m1 m2 c00 c01 c02 c10 c11 c12 c20 c21 c22 rf) in Hs.
  cbv zeta in Hs. injection Hs as <-. cbn [sharpe_ratio] in HS.
  set (q := quad _ _) in *.
  cbn [fsqrt XReal.ops xsqrt] in HS.
  destruct (Rlt_dec q 0) as [Hq | Hq].
  - cbn in HS. discriminate.
  - change (xleb (Fin (R_sqrt.sqrt q)) (Fin 0)) with (Rleb (R_sqrt.sqrt q) 0) in HS.
    destruct (Rleb (R_sqrt.sqrt q) 0) eqn:E; [discriminate|].
    apply Rleb_false in E.
    assert (Hq0 : 0 < q).
    { destruct (Req_dec q 0) as [E0|]; [rewrite E0, sqrt_0 in E; lra | lra]. }
    split; [assumption|].
    destruct (Req_dec_T (R_sqrt.sqrt q) 0); [lra|].
    injection HS as <-. reflexivity.
Qed.

(** Cauchy-Schwarz for a symmetric positive semi-definite 3x3 matrix. *)
Lemma quad_cauchy_schwarz a b c d e f w0 w1 w2 r0 r1 r2 :
  let cov := [[a; b; c]; [b; d; e]; [c; e; f]] in
  (forall x0 x1 x2, 0 <= quad [x0; x1; x2] cov) ->
  0 < quad [r0; r1; r2] cov ->
  let P := w0 * (a * r0 + b * r1 + c * r2)
           + w1 * (b * r0 + d * r1 + e * r2)
           + w2 * (c * r0 + e * r1 + f * r2) in
  P * P <= quad [w0; w1; w2] cov * quad [r0; r1; r2] cov.
Proof.
  intros cov Hpsd HE P.
  set (E := quad [r0; r1; r2] cov) in *.
  set (Q := quad [w0; w1; w2] cov).
  pose proof (Hpsd (E * w0 - P * r0) (E * w1 - P * r1) (E * w2 - P * r2)) as H.
  assert (Eq : quad [E * w0 - P * r0; E * w1 - P * r1; E * w2 - P * r2] cov
               = E * (E * Q - P * P)).
  { unfold E, Q, P, quad, dotR, cov. cbn -[Rmult Rplus]. ring. }
  rewrite Eq in H.
  assert (0 <= E * Q - P * P).
  { destruct (Rle_dec 0 (E * Q - P * P)) as [|Hn]; [assumption|].
    exfalso. assert (E * (E * Q - P * P) < 0) by nra. lra. }
  lra.
Qed.

(** What the analytical solver returns is [portfolio_stats] of its
    weights. *)
Lemma unconstrained_is_stats (mu cov : ndarray) (rf : xreal) res :
  optimize_sharpe_unconstrained mu cov rf = Ok res ->
  portfolio_stats (weights res) mu cov rf = Ok res.
Proof.
  intros Hres.
  assert (Hv : _validate_inputs mu cov = Ok (mu, cov)).
  { unfold optimize_sharpe_unconstrained in Hres.
    apply bind_ok_inv in Hres. destruct Hres as (p & Hp & _).
    destruct (validate_ok _ _ _ Hp) as (-> & _). assumption. }
  destruct (validate_ok _ _ _ Hv) as (_ & Hmu & Hcov & _).
  destruct (unconstrained_cases _ _ rf Hv) as (excess & He & Hcases).
  destruct Hcases as [(_ & Ho)|(raw & denom & Hs & Hraw & Hd & Hcases)];
    [rewrite Ho in Hres; discriminate|].
  destruct Hcases as [(_ & Ho)|(Hlt & Ho)]; rewrite Ho in Hres; [discriminate|].
  injection Hres as <-.
  rewrite weights_stats_of by (cbn [div_scalar shape]; assumption).
  apply portfolio_stats_total; cbn [div_scalar shape]; assumption.
Qed.

Lemma square_of_ratio X q S :
  0 < q -> S = X / R_sqrt.sqrt q -> S * S * q = X * X.
Proof.
  intros Hq ->.
  assert (Hs : R_sqrt.sqrt q * R_sqrt.sqrt q = q) by (apply sqrt_sqrt; lra).
  assert (Hp : 0 < R_sqrt.sqrt q) by (apply sqrt_lt_R0; exact Hq).
  rewrite <- Hs at 3. field. lra.
Qed.

(** The Sharpe ratio of a fully invested portfolio against the one the
    analytical solver returns. *)
Lemma tangency_bound :
  forall m0 m1 m2 a b c d e f rf : R,
  forall (res : MarkowitzResult) (S : R),
    let mu := [m0; m1; m2] in
    let cov := [[a; b; c]; [b; d; e]; [c; e; f]] in
    (forall x0 x1 x2, 0 <= quad [x0; x1; x2] cov) ->
    optimize_sharpe_unconstrained (vec mu) (mat cov) (Fin rf) = Ok res ->
    sharpe_ratio res = Fin S ->
    forall (w0 w1 w2 : R) (s : MarkowitzResult) (S' : R),
      w0 + w1 + w2 = 1 ->
      portfolio_stats (vec [w0; w1; w2]) (vec mu) (mat cov) (Fin rf) = Ok s ->
      sharpe_ratio s = Fin S' ->
      Rabs S' <= Rabs S
      /\ (0 <= S -> S' <= S)
      /\ (S <= 0 -> S <= S').
Proof.
  intros m0 m1 m2 a b c d e f rf res S mu cov Hpsd Hres HS w0 w1 w2 s S' Hsum Hs HS'.
  assert (Habs : Rabs S' <= Rabs S).
  { pose proof (unconstrained_is_stats _ _ _ _ Hres) as Hstats.
    destruct (unconstrained_fin _ _ _ _ _ _ _ _ _ _ _ _ _ _ Hres)
      as (r0 & r1 & r2 & E0 & E1 & E2 & Hd & Hw).
    rewrite Hw in Hstats.
    assert (Hnz : r0 + r1 + r2 <> 0).
    { intros E. rewrite E, Rabs_R0 in Hd. lra. }
    set (dd := r0 + r1 + r2) in *.
    destruct (sharpe_fin_inv _ _ _ _ _ _ _ _ _ _ _ _ _ _ _ _ _ _ Hstats HS)
      as (Hq & HSv).
    destruct (sharpe_fin_inv _ _ _ _ _ _ _ _ _ _ _ _ _ _ _ _ _ _ Hs HS')
      as (HQ & HS'v).
    apply square_of_ratio in HSv; [|exact Hq].
    apply square_of_ratio in HS'v; [|exact HQ].
    set (E := quad [r0; r1; r2] cov).
    assert (Eq : quad [r0 / dd; r1 / dd; r2 / dd] cov = E / (dd * dd)).
    { unfold E, quad, dotR, cov. cbn -[Rmult Rplus]. field. exact Hnz. }
    assert (EX : dotR [r0 / dd; r1 / dd; r2 / dd] [m0; m1; m2] - rf = E / dd).
    { replace m0 with (a * r0 + b * r1 + c * r2 + rf) by lra.
      replace m1 with (b * r0 + d * r1 + e * r2 + rf) by lra.
      replace m2 with (c * r0 + e * r1 + f * r2 + rf) by lra.
      unfold E, quad, dotR, cov, dd. cbn -[Rmult Rplus]. field. exact Hnz. }
    fold cov in Hq, HSv. rewrite Eq in Hq, HSv. rewrite EX in HSv.
    assert (Hdd : 0 < dd * dd) by (destruct (Rdichotomy _ _ Hnz); nra).
    assert (HE : 0 < E).
    { apply (Rmult_lt_reg_r (/ (dd * dd))); [apply Rinv_0_lt_compat; exact Hdd|].
      rewrite Rmult_0_l. exact Hq. }
    assert (HS2 : S * S = E).
    { apply (Rmult_eq_reg_r (E / (dd * dd))); [|lra].
      rewrite HSv. field. exact Hnz. }
    set (P := w0 * (a * r0 + b * r1 + c * r2)
              + w1 * (b * r0 + d * r1 + e * r2)
              + w2 * (c * r0 + e * r1 + f * r2)).
    assert (EP : dotR [w0; w1; w2] [m0; m1; m2] - rf = P).
    { replace m0 with (a * r0 + b * r1 + c * r2 + rf) by lra.
      replace m1 with (b * r0 + d * r1 + e * r2 + rf) by lra.
      replace m2 with (c * r0 + e * r1 + f * r2 + rf) by lra.
      unfold dotR, P. cbn -[Rmult Rplus].
      replace rf with (rf * (w0 + w1 + w2)) at 4 by (rewrite Hsum; ring). ring. }
    rewrite EP in HS'v. fold cov in HQ, HS'v.
    pose proof (quad_cauchy_schwarz a b c d e f w0 w1 w2 r0 r1 r2 Hpsd HE) as CS.
    cbv zeta in CS. fold cov P E in CS.
    set (Q := quad [w0; w1; w2] cov) in *.
    assert (HS'2 : S' * S' <= S * S).
    { rewrite HS2. apply (Rmult_le_reg_r Q); [exact HQ|]. rewrite HS'v. lra. }
    apply Rsqr_le_abs_0. unfold Rsqr. exact HS'2. }
  split; [exact Habs|].
  split; intros H0.
  - rewrite (Rabs_pos_eq S) in Habs by exact H0.
    pose proof (Rle_abs S'). lra.
  - rewrite (Rabs_left1 S) in Habs by exact H0.
    pose proof (Rle_abs (- S')) as H1. rewrite Rabs_Ropp in H1. lra.
Qed.

(** On finite inputs with a variance that is not negative the Sharpe
    ratio is a number or [-inf]. *)
Lemma sharpe_not_nan w0 w1 w2 m0 m1 m2 c00 c01 c02 c10 c11 c12 c20 c21 c22 rf :
  let w := [w0; w1; w2] in
  let c := [[c00; c01; c02]; [c10; c11; c12]; [c20; c21; c22]] in
  0 <= quad w c ->
  sharpe_ratio (stats_of (vec w) (vec [m0; m1; m2]) (mat c) (Fin rf)) <> NaN.
Proof.
  intros w c Hq. subst w c. unfold stats_of.
  rewrite (portfolio_stats_fin w0 w1 w2 m0 m1 m2 c00 c01 c02 c10 c11 c12 c20 c21 c22 rf).
  cbv zeta. cbn [sharpe_ratio].
  set (q := quad _ _) in *.
  rewrite fsqrt_fin_nonneg by exact Hq.
  rewrite f0_fin, leb_fin.
  destruct (Rleb (R_sqrt.sqrt q) 0) eqn:E; [discriminate|].
  apply Rleb_false in E.
  rewrite sub_fin, div_fin by lra. discriminate.
Qed.

(** The same, as the two cases. *)
Lemma sharpe_cases w0 w1 w2 m0 m1 m2 c00 c01 c02 c10 c11 c12 c20 c21 c22 rf :
  let w := [w0; w1; w2] in
  let c := [[c00; c01; c02]; [c10; c11; c12]; [c20; c21; c22]] in
  0 <= quad w c ->
  let s := stats_of (vec w) (vec [m0; m1; m2]) (mat c) (Fin rf) in
  sharpe_ratio s = NInf \/ exists S, sharpe_ratio s = Fin S.
Proof.
  intros w c Hq s. subst w c s. unfold stats_of.
  rewrite (portfolio_stats_fin w0 w1 w2 m0 m1 m2 c00 c01 c02 c10 c11 c12 c20 c21 c22 rf).
  cbv zeta. cbn [sharpe_ratio].
  set (q := quad _ _) in *.
  rewrite fsqrt_fin_nonneg by exact Hq.
  rewrite f0_fin, leb_fin.
  destruct (Rleb (R_sqrt.sqrt q) 0) eqn:E; [left; reflexivity|].
  apply Rleb_false in E.
  rewrite sub_fin, div_fin by lra. right. eexists. reflexivity.
Qed.

(** The grid search returns the statistics of a candidate that no
    candidate exceeds. *)
Lemma long_only_argmax :
  forall m0 m1 m2 c00 c01 c02 c10 c11 c12 c20 c21 c22 rf : R,
  forall resolution : Z,
    let mu := [m0; m1; m2] in
    let rows := [[c00; c01; c02]; [c10; c11; c12]; [c20; c21; c22]] in
    _validate_inputs (vec mu) (mat rows) = Ok (vec mu, mat rows) ->
    (forall x0 x1 x2, 0 <= quad [x0; x1; x2] rows) ->
    (3 <= resolution)%Z ->
    exists res best,
      optimize_sharpe_long_only (vec mu) (mat rows) (Fin rf) resolution = Ok res
      /\ In best (grid_candidates resolution)
      /\ portfolio_stats (weights_of best) (vec mu) (mat rows) (Fin rf) = Ok res
      /\ forall c,
           In c (grid_candidates resolution) ->
           exists s,
             portfolio_stats (weights_of c) (vec mu) (mat rows) (Fin rf) = Ok s
             /\ leb (sharpe_ratio s) (sharpe_ratio res) = true.
Proof.
  intros m0 m1 m2 c00 c01 c02 c10 c11 c12 c20 c21 c22 rf n mu rows Hv Hpsd Hn.
  destruct (validate_ok _ _ _ Hv) as (_ & Hmu & Hcov & _).
  rewrite (long_only_fold (vec mu) (mat rows) (Fin rf) n Hv Hn).
  set (l := map _ _).
  set (res := fold_left keep_best l (initial_best (vec mu) (mat rows))).
  assert (Hstats : forall c, In c (grid_candidates n) ->
            portfolio_stats (weights_of c) (vec mu) (mat rows) (Fin rf)
            = Ok (stats_of (weights_of c) (vec mu) (mat rows) (Fin rf))).
  { intros [[w1 w2] w3] _. apply portfolio_stats_total; [reflexivity | assumption..]. }
  assert (Hnan : forall c, In c (grid_candidates n) ->
            sharpe_ratio (stats_of (weights_of c) (vec mu) (mat rows) (Fin rf)) <> NaN).
  { intros [[w1 w2] w3] _. apply sharpe_not_nan. apply Hpsd. }
  assert (Hbest : exists best, In best (grid_candidates n)
            /\ res = stats_of (weights_of best) (vec mu) (mat rows) (Fin rf)).
  { destruct (fold_keep_best l (initial_best (vec mu) (mat rows)) res eq_refl)
      as [(Hr & Hall)|(pre & post & Hl & _)].
    - exists (1, 0, 0).
      destruct (corners_are_candidates n Hn) as (C1 & _).
      split; [exact C1|].
      rewrite Forall_forall in Hall.
      pose proof (Hall (stats_of (weights_of (1, 0, 0)) (vec mu) (mat rows) (Fin rf))) as H1.
      assert (Hin : In (stats_of (weights_of (1, 0, 0)) (vec mu) (mat rows) (Fin rf)) l).
      { apply in_map_iff. exists (1, 0, 0). split; [reflexivity | exact C1]. }
      specialize (H1 Hin).
      destruct (not_gtb_neg_inf _ H1) as [Hs | Hs];
        [| exfalso; exact (Hnan _ C1 Hs)].
      rewrite Hr. clear Hr H1 Hin Hall.
      unfold stats_of, weights_of, mu, rows in *.
      rewrite (portfolio_stats_fin 1 0 0 m0 m1 m2 c00 c01 c02 c10 c11 c12 c20 c21 c22 rf)
        in *.
      cbv zeta in *. cbn [sharpe_ratio] in Hs. rewrite Hs.
      unfold initial_best. f_equal.
      + cbn. f_equal. unfold dotR. cbn -[Rmult Rplus]. ring.
      + unfold get2. cbn -[quad fsqrt]. f_equal. f_equal.
        unfold quad, dotR. cbn -[Rmult Rplus]. ring.
    - assert (Hin : In res l).
      { rewrite Hl. apply in_or_app. right. left. reflexivity. }
      apply in_map_iff in Hin as (best & Heq & Hc).
      exists best. split; [exact Hc | symmetry; exact Heq]. }
  destruct Hbest as (best & Hbin & Hbeq).
  exists res, best.
  split; [reflexivity|]. split; [exact Hbin|].
  split; [rewrite Hbeq; apply Hstats; exact Hbin|].
  intros c Hc. eexists. split; [apply Hstats; exact Hc|].
  apply fold_keep_best_upper; [reflexivity | | apply Hnan; exact Hc].
  apply in_map_iff. exists c. split; [reflexivity | exact Hc].
Qed.
(** The identity is positive semi-definite. *)
Lemma identity_psd :
  forall x0 x1 x2, 0 <= quad [x0; x1; x2] [[1; 0; 0]; [0; 1; 0]; [0; 0; 1]].
Proof.
  intros x0 x1 x2. unfold quad, dotR. cbn -[Rmult Rplus].
  pose proof (Rle_0_sqr x0). pose proof (Rle_0_sqr x1). pose proof (Rle_0_sqr x2).
  unfold Rsqr in *. lra.
Qed.

(** The analytical solver on expected returns [1, 1, 1] and the identity:
    a positive Sharpe ratio. *)
Lemma unconstrained_example_sharpe :
  exists res S,
    optimize_sharpe_unconstrained (vec [1; 1; 1])
      (mat [[1; 0; 0]; [0; 1; 0]; [0; 0; 1]]) (Fin 0) = Ok res
    /\ sharpe_ratio res = Fin S
    /\ 0 <= S.
Proof.
  destruct unconstrained_example as (res & Hres).
  pose proof (unconstrained_is_stats _ _ _ _ Hres) as Hstats.
  destruct (unconstrained_fin _ _ _ _ _ _ _ _ _ _ _ _ _ _ Hres)
    as (r0 & r1 & r2 & E0 & E1 & E2 & Hd & Hw).
  assert (r0 = 1) by lra. assert (r1 = 1) by lra. assert (r2 = 1) by lra.
  subst r0 r1 r2.
  rewrite Hw in Hstats.
  rewrite (portfolio_stats_fin (1 / (1 + 1 + 1)) (1 / (1 + 1 + 1)) (1 / (1 + 1 + 1))
             1 1 1 1 0 0 0 1 0 0 0 1 0) in Hstats.
  cbv zeta in Hstats.
  set (q := quad _ _) in Hstats.
  assert (Eq : q = 1 / 3) by (unfold q, quad, dotR; cbn -[Rmult Rplus]; field).
  assert (Hsq : 0 < R_sqrt.sqrt q) by (apply sqrt_lt_R0; lra).
  rewrite fsqrt_fin_nonneg in Hstats by lra.
  rewrite f0_fin, leb_fin in Hstats.
  assert (El : Rleb (R_sqrt.sqrt q) 0 = false) by (apply Rleb_false; exact Hsq).
  rewrite El, sub_fin, div_fin in Hstats by lra.
  injection Hstats as Hrec.
  eexists res, _. split; [exact Hres|].
  split; [rewrite <- Hrec; reflexivity|].
  apply Rmult_le_pos; [|left; apply Rinv_0_lt_compat; exact Hsq].
  unfold dotR. cbn -[Rmult Rplus]. lra.
Qed.
End OptimalityFacts.

Module MainFacts.
Import Console FXMain ReaderSpec ConsoleExamples.
Import XReal Spec XFacts OrderFacts EvalFacts ReaderFacts HedgeForm.
Local Open Scope R_scope.
Local Open Scope string_scope.

Section MainFacts.
Context {F : Type} {ops : Float64 F}.
Context (strip : string -> string) (float_of_str : string -> option F).
Context (format_4f format_4pct : F -> string).

Local Abbreviation read_vol := (_read_vol strip float_of_str).
Local Abbreviation read_corr := (_read_corr strip float_of_str).
Local Abbreviation main := (main strip float_of_str format_4f format_4pct).

(** [main] after its three readers have returned. *)
Lemma main_after_readers (c c1 c2 c3 : console) (va vb co : F) :
  read_vol prompt_eurusd (after_banner c) = Some (Returned va, c1) ->
  read_vol prompt_usdjpy c1 = Some (Returned vb, c2) ->
  read_corr prompt_corr c2 = Some (Returned co, c3) ->
  main c
  = (if eqb va f0 && eqb vb f0
     then print line_both_zero
     else if eqb va f0
     then print line_all_eur
     else if eqb vb f0
     then print line_all_jpy
     else
       '(w_eur, w_jpy) <- call (min_variance_weights va vb co) ;;
       port_vol <- call (portfolio_volatility w_eur w_jpy va vb co) ;;
       print line_weights ;;
       print ("EUR weight: " ++ format_4f w_eur) ;;
       print ("JPY weight: " ++ format_4f w_jpy) ;;
       print line_usd ;;
       print ("Portfolio volatility: " ++ format_4pct port_vol))%io c3.
Proof.
  intros H1 H2 H3. unfold FXMain.main.
  unfold io_bind at 1. cbn [print].
  unfold io_bind at 1. cbn [print].
  unfold io_bind at 1. fold (after_banner c). rewrite H1.
  unfold io_bind at 1. rewrite H2.
  unfold io_bind at 1. rewrite H3.
  reflexivity.
Qed.
End MainFacts.

Lemma example_readers l1 l2 l3 va vb co :
  example_float l1 = Some (Fin va) -> 0 <= va ->
  example_float l2 = Some (Fin vb) -> 0 <= vb ->
  example_float l3 = Some (Fin co) -> -1 <= co <= 1 ->
  let c1 := {| stdin := [l2; l3];
               stdout := [Line line_title; Line line_hint; Prompt prompt_eurusd] |} in
  let c2 := {| stdin := [l3];
               stdout := [Line line_title; Line line_hint; Prompt prompt_eurusd;
                          Prompt prompt_usdjpy] |} in
  let c3 := {| stdin := [];
               stdout := [Line line_title; Line line_hint; Prompt prompt_eurusd;
                          Prompt prompt_usdjpy; Prompt prompt_corr] |} in
  _read_vol example_strip example_float prompt_eurusd
    (after_banner (example_input [l1; l2; l3])) = Some (Returned (Fin va), c1)
  /\ _read_vol example_strip example_float prompt_usdjpy c1 = Some (Returned (Fin vb), c2)
  /\ _read_corr example_strip example_float prompt_corr c2 = Some (Returned (Fin co), c3).
Proof.
  intros H1 Ha H2 Hb H3 Hc c1 c2 c3.
  split; [|split].
  - apply (read_vol_accepts example_strip example_float prompt_eurusd l1 [l2; l3]
             [Line line_title; Line line_hint] (Fin va)); [exact H1|].
    apply Rltb_false. exact Ha.
  - apply (read_vol_accepts example_strip example_float prompt_usdjpy l2 [l3]
             [Line line_title; Line line_hint; Prompt prompt_eurusd] (Fin vb));
      [exact H2|].
    apply Rltb_false. exact Hb.
  - apply (read_corr_accepts example_strip example_float prompt_corr l3 []
             [Line line_title; Line line_hint; Prompt prompt_eurusd;
              Prompt prompt_usdjpy] (Fin co)); [exact H3| |].
    + apply Rltb_false. lra.
    + apply Rltb_false. lra.
Qed.
End MainFacts.

(* ================================================================== *)
(** * The claims of the specification *)
(* ================================================================== *)

Import XReal Spec Examples.
Import XFacts GridFacts OrderFacts SolveFacts StatsFacts HedgeFacts EvalFacts.
Import ValidationFacts SearchFacts TangencyFacts B64Facts InverseFacts.
Import HedgeForm.
Local Open Scope R_scope.

(** C1 (the code departs from the claim).  [portfolio_stats] takes the
    square root of the quadratic form without clamping it: in exact
    arithmetic the volatility is NaN whenever [w . cov . w] is negative, and
    in binary64 the weights [1, 0, 0] with the validated covariance
    [diag(-1, 1, 1)] give a NaN volatility and a NaN Sharpe ratio, where the
    claim states [sqrt(max(w . cov . w, 0)) = 0]. *)
Theorem C1_volatility_nan_on_negative_variance :
  (forall w0 w1 w2 m0 m1 m2 c00 c01 c02 c10 c11 c12 c20 c21 c22 rf : R,
      let w := [w0; w1; w2] in
      let c := [[c00; c01; c02]; [c10; c11; c12]; [c20; c21; c22]] in
      exists r,
        portfolio_stats (vec w) (vec [m0; m1; m2]) (mat c) (Fin rf) = Ok r
        /\ volatility r
           = if Rlt_dec (quad w c) 0 then NaN else Fin (R_sqrt.sqrt (quad w c)))
  /\ _validate_inputs (ops := B64.ops) mu_zero cov_nonpsd = Ok (mu_zero, cov_nonpsd)
  /\ exists r,
       portfolio_stats (ops := B64.ops) corner1 mu_zero cov_nonpsd f0 = Ok r
       /\ PrimFloat.is_nan (volatility r) = true
       /\ PrimFloat.is_nan (sharpe_ratio r) = true.
Proof.
  split.
  - intros. eexists. split; [apply portfolio_stats_fin | reflexivity].
  - split; [vm_compute; reflexivity|].
    eexists. split; [vm_compute; reflexivity|]. split; reflexivity.
Qed.

(** Where the quadratic form is not negative the volatility is its square
    root, a finite number that is not negative. *)
Theorem volatility_of_nonnegative_variance :
  forall w0 w1 w2 m0 m1 m2 c00 c01 c02 c10 c11 c12 c20 c21 c22 rf : R,
    let w := [w0; w1; w2] in
    let c := [[c00; c01; c02]; [c10; c11; c12]; [c20; c21; c22]] in
    0 <= quad w c ->
    exists r,
      portfolio_stats (vec w) (vec [m0; m1; m2]) (mat c) (Fin rf) = Ok r
      /\ volatility r = Fin (R_sqrt.sqrt (quad w c))
      /\ 0 <= R_sqrt.sqrt (quad w c).
Proof.
  intros w0 w1 w2 m0 m1 m2 c00 c01 c02 c10 c11 c12 c20 c21 c22 rf w c Hq.
  eexists. split; [apply portfolio_stats_fin|].
  split; [|apply sqrt_pos].
  cbn [volatility]. apply fsqrt_fin_nonneg. assumption.
Qed.

Lemma volatility_of_nonnegative_variance_witness :
  exists r,
    portfolio_stats (vec [1; 0; 0]) (vec [0; 0; 0])
                    (mat [[4; 0; 0]; [0; 1; 0]; [0; 0; 1]]) (Fin 0) = Ok r
    /\ volatility r = Fin (R_sqrt.sqrt (quad [1; 0; 0] [[4; 0; 0]; [0; 1; 0]; [0; 0; 1]]))
    /\ 0 <= R_sqrt.sqrt (quad [1; 0; 0] [[4; 0; 0]; [0; 1; 0]; [0; 0; 1]]).
Proof.
  apply (volatility_of_nonnegative_variance 1 0 0 0 0 0 4 0 0 0 1 0 0 0 1 0).
  unfold quad, dotR. simpl. lra.
Defined.

(** C2.  On validated inputs and a resolution of at least 3 the grid search
    evaluates [portfolio_stats] on exactly the candidates the specification
    generates, in their order, and returns the running best of these
    evaluations; every candidate has [w1 >= 0], [w2 >= 0] and
    [w1 + w2 + w3 = 1] in exact arithmetic.  A resolution below 3 fails with
    InvalidResolutionError. *)
Theorem C2_grid_search_candidates :
  forall (mu cov : ndarray) (rf : xreal) (resolution : Z),
    _validate_inputs mu cov = Ok (mu, cov) ->
    ((3 <= resolution)%Z ->
     (exists evaluated,
         Forall2 (fun c s => portfolio_stats (weights_of c) mu cov rf = Ok s)
                 (grid_candidates resolution) evaluated
         /\ optimize_sharpe_long_only mu cov rf resolution
            = Ok (fold_left keep_best evaluated (initial_best mu cov)))
     /\ Forall (fun c => let '(w1, w2, w3) := c in
                         0 <= w1 /\ 0 <= w2 /\ w1 + w2 + w3 = 1)
               (grid_candidates resolution))
    /\ ((resolution < 3)%Z ->
        optimize_sharpe_long_only mu cov rf resolution
        = Raise (ValueError msg_grid_size)
        /\ InvalidResolutionError (ValueError msg_grid_size)).
Proof.
  intros mu cov rf n Hv.
  destruct (validate_ok _ _ _ Hv) as (_ & Hmu & Hcov & _).
  split.
  - intros Hn. split.
    + eexists. split; [apply evaluated_stats; assumption|].
      apply long_only_fold; assumption.
    + apply Forall_forall. intros [[w1 w2] w3] Hin.
      pose proof (grid_candidates_simplex n w1 w2 w3 Hn Hin). tauto.
  - intros Hn. split; [apply long_only_small_grid; assumption | reflexivity].
Qed.

Lemma C2_grid_search_candidates_witness :
  ((exists evaluated,
       Forall2 (fun c s => portfolio_stats (weights_of c) mu_zero identity3 f0 = Ok s)
               (grid_candidates 3) evaluated
       /\ optimize_sharpe_long_only mu_zero identity3 f0 3
          = Ok (fold_left keep_best evaluated (initial_best mu_zero identity3)))
   /\ Forall (fun c => let '(w1, w2, w3) := c in
                       0 <= w1 /\ 0 <= w2 /\ w1 + w2 + w3 = 1)
             (grid_candidates 3))
  /\ optimize_sharpe_long_only (ops := XReal.ops) mu_zero identity3 f0 2
     = Raise (ValueError msg_grid_size).
Proof.
  split.
  - exact (proj1 (C2_grid_search_candidates mu_zero identity3 f0 3 validate_identity)
                 ltac:(lia)).
  - exact (proj1 (proj2 (C2_grid_search_candidates mu_zero identity3 f0 2
                           validate_identity) ltac:(lia))).
Defined.

(** C3 (the code departs from the claim).  With the validated covariance
    [diag(-1, 1, 1)], zero returns and resolution 3, in binary64, the
    corner [1, 0, 0] has a NaN Sharpe ratio (the square root of its
    negative variance, see C1), and the result of the grid search, of
    Sharpe ratio 0, does not compare as greater or equal to it. *)
Theorem C3_corner_of_negative_variance :
  _validate_inputs (ops := B64.ops) mu_zero cov_nonpsd = Ok (mu_zero, cov_nonpsd)
  /\ exists res s,
      optimize_sharpe_long_only (ops := B64.ops) mu_zero cov_nonpsd f0 3 = Ok res
      /\ portfolio_stats corner1 mu_zero cov_nonpsd f0 = Ok s
      /\ PrimFloat.is_nan (sharpe_ratio s) = true
      /\ sharpe_ratio res = f0
      /\ leb (sharpe_ratio s) (sharpe_ratio res) = false.
Proof.
  split; [vm_compute; reflexivity|].
  eexists. eexists.
  split; [vm_compute; reflexivity|].
  split; [vm_compute; reflexivity|].
  repeat split; reflexivity.
Qed.

(** The three corners of the simplex are among the candidates, and the
    result of the grid search is at least every corner whose Sharpe ratio
    is not NaN. *)
Theorem grid_result_dominates_corners :
  forall (mu cov : ndarray) (rf : xreal) (resolution : Z) res,
    _validate_inputs mu cov = Ok (mu, cov) ->
    (3 <= resolution)%Z ->
    optimize_sharpe_long_only mu cov rf resolution = Ok res ->
    forall corner,
      In corner [(1, 0, 0); (0, 1, 0); (0, 0, 1)] ->
      In corner (grid_candidates resolution)
      /\ forall s,
          portfolio_stats (weights_of corner) mu cov rf = Ok s ->
          ~ is_nan (sharpe_ratio s) ->
          leb (sharpe_ratio s) (sharpe_ratio res) = true.
Proof.
  intros mu cov rf n res Hv Hn Hres corner Hc.
  destruct (validate_ok _ _ _ Hv) as (_ & Hmu & Hcov & _).
  assert (Hin : In corner (grid_candidates n)).
  { destruct (corners_are_candidates n Hn) as (C1 & C2 & C3).
    destruct Hc as [<-|[<-|[<-|[]]]]; assumption. }
  split; [assumption|].
  intros s Hs Hnan.
  rewrite long_only_fold in Hres by assumption. injection Hres as <-.
  apply fold_keep_best_upper; [reflexivity | | assumption].
  apply in_map_iff. exists corner. split; [|assumption].
  unfold stats_of. rewrite Hs. reflexivity.
Qed.

Lemma grid_result_dominates_corners_witness :
  exists res,
    optimize_sharpe_long_only (ops := XReal.ops) mu_zero identity3 f0 3 = Ok res
    /\ In (0, 1, 0) (grid_candidates 3)
    /\ forall s,
        portfolio_stats (weights_of (0, 1, 0)) mu_zero identity3 f0 = Ok s ->
        ~ is_nan (sharpe_ratio s) ->
        leb (sharpe_ratio s) (sharpe_ratio res) = true.
Proof.
  pose proof (long_only_fold mu_zero identity3 f0 3 validate_identity ltac:(lia)) as Hres.
  eexists. split; [exact Hres|].
  exact (grid_result_dominates_corners mu_zero identity3 f0 3 _
           validate_identity ltac:(lia) Hres (0, 1, 0)
           (or_intror (or_introl eq_refl))).
Defined.

(** The weights the grid search returns are long-only and fully invested:
    on validated inputs and a resolution of at least 3 the search returns,
    and in exact arithmetic each weight of its result lies in [0, 1] and
    the three sum to 1. *)
Theorem grid_result_on_simplex :
  forall (mu cov : ndarray) (rf : xreal) (resolution : Z),
    _validate_inputs mu cov = Ok (mu, cov) ->
    (3 <= resolution)%Z ->
    exists res w1 w2 w3,
      optimize_sharpe_long_only mu cov rf resolution = Ok res
      /\ weights res = vec [w1; w2; w3]
      /\ 0 <= w1 <= 1 /\ 0 <= w2 <= 1 /\ 0 <= w3 <= 1
      /\ w1 + w2 + w3 = 1.
Proof.
  intros mu cov rf n Hv Hn.
  destruct (validate_ok _ _ _ Hv) as (_ & Hmu & Hcov & _).
  rewrite (long_only_fold mu cov rf n Hv Hn).
  set (l := map _ _).
  destruct (fold_keep_best l (initial_best mu cov) _ eq_refl)
    as [[-> _] | (pre & post & Hl & _)].
  - exists (initial_best mu cov), 1, 0, 0.
    split; [reflexivity|]. split; [reflexivity|]. lra.
  - assert (Hin : In (fold_left keep_best l (initial_best mu cov)) l).
    { rewrite Hl at 2. apply in_or_app. right. left. reflexivity. }
    apply in_map_iff in Hin as ([[w1 w2] w3] & Heq & Hc).
    exists (fold_left keep_best l (initial_best mu cov)), w1, w2, w3.
    split; [reflexivity|].
    split.
    + rewrite <- Heq. apply weights_stats_of; [reflexivity | assumption..].
    + pose proof (grid_candidates_simplex n w1 w2 w3 Hn Hc). lra.
Qed.

Lemma grid_result_on_simplex_witness :
  exists res w1 w2 w3,
    optimize_sharpe_long_only (ops := XReal.ops) mu_zero identity3 f0 3 = Ok res
    /\ weights res = vec [w1; w2; w3]
    /\ 0 <= w1 <= 1 /\ 0 <= w2 <= 1 /\ 0 <= w3 <= 1
    /\ w1 + w2 + w3 = 1.
Proof.
  exact (grid_result_on_simplex mu_zero identity3 f0 3 validate_identity ltac:(lia)).
Defined.

(** C4.  The grid search replaces its best-so-far result only on a strictly
    greater Sharpe ratio: the result is the initial record when no
    evaluated candidate beats [-inf], and otherwise the first evaluated
    candidate of largest Sharpe ratio, every earlier one being strictly
    smaller (or NaN) and no later one greater; the candidates come with
    lower [w1] first, then lower [w2].  If every evaluated candidate has
    Sharpe ratio [-inf] the result is the initial record: weights
    [1, 0, 0], expected return [mu[0]], volatility [sqrt(cov[0][0])],
    Sharpe ratio [-inf]. *)
Theorem C4_strict_replacement_and_fallback :
  forall (mu cov : ndarray) (rf : xreal) (resolution : Z),
    _validate_inputs mu cov = Ok (mu, cov) ->
    (3 <= resolution)%Z ->
    exists evaluated res,
      Forall2 (fun c s => portfolio_stats (weights_of c) mu cov rf = Ok s)
              (grid_candidates resolution) evaluated
      /\ StronglySorted lex_le (grid_candidates resolution)
      /\ optimize_sharpe_long_only mu cov rf resolution = Ok res
      /\ ((res = initial_best mu cov
           /\ Forall (fun s => gtb (sharpe_ratio s) neg_inf = false) evaluated)
          \/ (exists pre post,
                 evaluated = pre ++ res :: post
                 /\ gtb (sharpe_ratio res) neg_inf = true
                 /\ Forall (fun s => gtb (sharpe_ratio res) (sharpe_ratio s) = true
                                     \/ is_nan (sharpe_ratio s)) pre
                 /\ Forall (fun s => gtb (sharpe_ratio s) (sharpe_ratio res) = false)
                           post))
      /\ (Forall (fun s => sharpe_ratio s = neg_inf) evaluated ->
          res = {| weights := vec [1; 0; 0];
                   expected_return := get1 mu 0;
                   volatility := fsqrt (get2 cov 0 0);
                   sharpe_ratio := neg_inf |}).
Proof.
  intros mu cov rf n Hv Hn.
  destruct (validate_ok _ _ _ Hv) as (_ & Hmu & Hcov & _).
  set (evaluated := map (fun c => stats_of (weights_of c) mu cov rf) (grid_candidates n)).
  exists evaluated, (fold_left keep_best evaluated (initial_best mu cov)).
  split; [apply evaluated_stats; assumption|].
  split; [apply grid_candidates_sorted; assumption|].
  split; [apply long_only_fold; assumption|].
  pose proof (fold_keep_best evaluated (initial_best mu cov) _ eq_refl) as Hfold.
  split; [exact Hfold|].
  intros Hall.
  destruct Hfold as [(Hr & _)|(pre & post & Hl & Hgt & _)]; [exact Hr|].
  exfalso.
  assert (Hin : In (fold_left keep_best evaluated (initial_best mu cov)) evaluated).
  { rewrite Hl at 2. apply in_or_app. right. left. reflexivity. }
  rewrite Forall_forall in Hall. rewrite (Hall _ Hin) in Hgt. discriminate Hgt.
Qed.

Lemma C4_strict_replacement_and_fallback_witness :
  exists evaluated res,
    Forall2 (fun c s => portfolio_stats (weights_of c) mu_zero identity3 f0 = Ok s)
            (grid_candidates 3) evaluated
    /\ StronglySorted lex_le (grid_candidates 3)
    /\ optimize_sharpe_long_only (ops := XReal.ops) mu_zero identity3 f0 3 = Ok res
    /\ ((res = initial_best mu_zero identity3
         /\ Forall (fun s => gtb (sharpe_ratio s) neg_inf = false) evaluated)
        \/ (exists pre post,
               evaluated = pre ++ res :: post
               /\ gtb (sharpe_ratio res) neg_inf = true
               /\ Forall (fun s => gtb (sharpe_ratio res) (sharpe_ratio s) = true
                                   \/ is_nan (sharpe_ratio s)) pre
               /\ Forall (fun s => gtb (sharpe_ratio s) (sharpe_ratio res) = false)
                         post))
    /\ (Forall (fun s => sharpe_ratio s = neg_inf) evaluated ->
        res = {| weights := vec [1; 0; 0];
                 expected_return := get1 mu_zero 0;
                 volatility := fsqrt (get2 identity3 0 0);
                 sharpe_ratio := neg_inf |}).
Proof.
  exact (C4_strict_replacement_and_fallback mu_zero identity3 f0 3
           validate_identity ltac:(lia)).
Defined.

(** C5.  Whenever the analytical solver succeeds on finite inputs, in exact
    arithmetic, its weights are [raw / (1 . raw)] for a solution [raw] of
    [cov . raw = mu - rf * 1], the denominator is at least 1e-14 in absolute
    value, and the weights sum to 1. *)
Theorem C5_unconstrained_weights_sum_to_one :
  forall m0 m1 m2 c00 c01 c02 c10 c11 c12 c20 c21 c22 rf : R,
  forall res,
    optimize_sharpe_unconstrained
      (vec [m0; m1; m2])
      (mat [[c00; c01; c02]; [c10; c11; c12]; [c20; c21; c22]]) (Fin rf) = Ok res ->
    exists r0 r1 r2 w0 w1 w2,
      (c00 * r0 + c01 * r1 + c02 * r2 = m0 - rf * 1
       /\ c10 * r0 + c11 * r1 + c12 * r2 = m1 - rf * 1
       /\ c20 * r0 + c21 * r1 + c22 * r2 = m2 - rf * 1)
      /\ 1e-14 <= Rabs (r0 + r1 + r2)
      /\ weights res = vec [w0; w1; w2]
      /\ (w0 = r0 / (r0 + r1 + r2)
          /\ w1 = r1 / (r0 + r1 + r2)
          /\ w2 = r2 / (r0 + r1 + r2))
      /\ w0 + w1 + w2 = 1.
Proof.
  intros m0 m1 m2 c00 c01 c02 c10 c11 c12 c20 c21 c22 rf res Hres.
  destruct (unconstrained_fin _ _ _ _ _ _ _ _ _ _ _ _ _ _ Hres)
    as (r0 & r1 & r2 & E0 & E1 & E2 & Hd & Hw).
  exists r0, r1, r2, (r0 / (r0 + r1 + r2)), (r1 / (r0 + r1 + r2)),
    (r2 / (r0 + r1 + r2)).
  split; [auto|]. split; [assumption|]. split; [assumption|].
  split; [auto|].
  assert (Hnz : r0 + r1 + r2 <> 0).
  { intros E. rewrite E, Rabs_R0 in Hd. lra. }
  field. assumption.
Qed.

Lemma C5_unconstrained_weights_sum_to_one_witness :
  exists res r0 r1 r2 w0 w1 w2,
    optimize_sharpe_unconstrained (vec [1; 1; 1])
      (mat [[1; 0; 0]; [0; 1; 0]; [0; 0; 1]]) (Fin 0) = Ok res
    /\ (1 * r0 + 0 * r1 + 0 * r2 = 1 - 0 * 1
        /\ 0 * r0 + 1 * r1 + 0 * r2 = 1 - 0 * 1
        /\ 0 * r0 + 0 * r1 + 1 * r2 = 1 - 0 * 1)
    /\ 1e-14 <= Rabs (r0 + r1 + r2)
    /\ weights res = vec [w0; w1; w2]
    /\ (w0 = r0 / (r0 + r1 + r2)
        /\ w1 = r1 / (r0 + r1 + r2)
        /\ w2 = r2 / (r0 + r1 + r2))
    /\ w0 + w1 + w2 = 1.
Proof.
  destruct unconstrained_example as (res & Hres).
  destruct (C5_unconstrained_weights_sum_to_one 1 1 1 1 0 0 0 1 0 0 0 1 0 res Hres)
    as (r0 & r1 & r2 & w0 & w1 & w2 & H).
  exists res, r0, r1, r2, w0, w1, w2. split; [exact Hres | exact H].
Defined.

(** C5, as stated, fails on the code in binary64: for the validated
    inputs [mu = [3, -1, -2 + 3 * 2^-30]], [cov] the identity and [rf = 0]
    the analytical solver succeeds and the weights it returns do not sum
    to 1 within 1e-9, neither as real numbers nor summed in binary64; the
    rounding error of each weight is proportional to its size, which the
    guard on the denominator lets grow. *)
Lemma C5_counterexample :
  _validate_inputs (ops := B64.ops) mu_skew identity3 = Ok (mu_skew, identity3)
  /\ exists res w0 w1 w2,
       optimize_sharpe_unconstrained (ops := B64.ops) mu_skew identity3 f0 = Ok res
       /\ data (weights res) = [w0; w1; w2]
       /\ 1e-9 < Rabs (B64.to_R w0 + B64.to_R w1 + B64.to_R w2 - 1)
       /\ ltb (lit 1 (-9)) (fabs (sub (add (add w0 w1) w2) f1)) = true.
Proof.
  split; [vm_compute; reflexivity|].
  eexists. eexists. eexists. eexists.
  split; [vm_compute; reflexivity|].
  split; [reflexivity|].
  split; [|vm_compute; reflexivity].
  unfold B64.to_R.
  repeat match goal with
  | |- context [Prim2SF ?x] =>
      let y := eval vm_compute in (Prim2SF x) in change (Prim2SF x) with y
  end.
  cbv iota.
  replace (powerRZ 2 (-22)) with (/ 2 ^ 22) by reflexivity.
  replace (powerRZ 2 (-23)) with (/ 2 ^ 23) by reflexivity.
  replace (powerRZ 2 (-24)) with (/ 2 ^ 24) by reflexivity.
  rewrite Rabs_pos_eq; lra.
Qed.

(** C6.  On validated inputs, for every float arithmetic: the analytical
    solver fails with SingularCovarianceError exactly when the linear solve
    reports a singular matrix, with DegenerateNormalizationError exactly
    when the solve returns [raw] and [|1 . raw| < 1e-14], and returns a
    result otherwise; it raises nothing else, and a failure carries no
    result. *)
Theorem C6_unconstrained_failure_modes :
  forall (F : Type) (ops : Float64 F) (mu cov : ndarray) (rf : F),
    _validate_inputs mu cov = Ok (mu, cov) ->
    exists excess,
      arr_sub mu (scalar_mul rf (ones 3)) = Ok excess
      /\ (forall e,
             linalg_solve cov excess = Raise e ->
             exists e', optimize_sharpe_unconstrained mu cov rf = Raise e'
                        /\ SingularCovarianceError e')
      /\ (forall raw,
             linalg_solve cov excess = Ok raw ->
             exists denom,
               bind (matmul (ones 3) raw) py_float = Ok denom
               /\ (ltb (fabs denom) (lit 1 (-14)) = true ->
                   exists e', optimize_sharpe_unconstrained mu cov rf = Raise e'
                              /\ DegenerateNormalizationError e')
               /\ (ltb (fabs denom) (lit 1 (-14)) = false ->
                   exists res, optimize_sharpe_unconstrained mu cov rf = Ok res))
      /\ (forall e,
             optimize_sharpe_unconstrained mu cov rf = Raise e ->
             (SingularCovarianceError e
              /\ linalg_solve cov excess = Raise (LinAlgError msg_lapack_singular))
             \/ (DegenerateNormalizationError e
                 /\ exists raw denom,
                     linalg_solve cov excess = Ok raw
                     /\ bind (matmul (ones 3) raw) py_float = Ok denom
                     /\ ltb (fabs denom) (lit 1 (-14)) = true)).
Proof.
  intros F ops mu cov rf Hv.
  destruct (unconstrained_cases mu cov rf Hv) as (excess & He & Hcases).
  exists excess. split; [assumption|].
  destruct Hcases as [(Hs & Ho)|(raw & denom & Hs & Hraw & Hd & Hcases)].
  - split; [|split].
    + intros e _. eexists. split; [exact Ho | reflexivity].
    + intros raw Hr. rewrite Hs in Hr. discriminate.
    + intros e Hr. rewrite Ho in Hr. injection Hr as <-.
      left. split; [reflexivity | assumption].
  - split; [|split].
    + intros e Hr. rewrite Hs in Hr. discriminate.
    + intros raw' Hr. rewrite Hs in Hr. injection Hr as <-.
      exists denom. split; [assumption|].
      destruct Hcases as [(Hlt & Ho)|(Hlt & Ho)]; rewrite Hlt; split; intros Hx;
        try discriminate.
      * eexists. split; [exact Ho | reflexivity].
      * eexists. exact Ho.
    + intros e Hr.
      destruct Hcases as [(Hlt & Ho)|(Hlt & Ho)]; rewrite Ho in Hr; [|discriminate].
      injection Hr as <-. right. split; [reflexivity|].
      exists raw, denom. auto.
Qed.

Lemma C6_unconstrained_failure_modes_witness :
  exists excess,
    arr_sub (ops := B64.ops) mu_zero (scalar_mul f0 (ones 3)) = Ok excess
    /\ exists e', optimize_sharpe_unconstrained (ops := B64.ops) mu_zero identity3 f0
                  = Raise e'
                  /\ DegenerateNormalizationError e'.
Proof.
  destruct (C6_unconstrained_failure_modes float B64.ops mu_zero identity3 f0)
    as (excess & He & _ & Hdeg & _).
  - vm_compute. reflexivity.
  - exists excess. split; [exact He|].
    assert (Hx : excess = mu_zero).
    { vm_compute in He. injection He as <-. reflexivity. }
    subst excess.
    destruct (Hdeg mu_zero) as (denom & Hd & Hlt & _).
    + vm_compute. reflexivity.
    + apply Hlt. vm_compute in Hd. injection Hd as <-. reflexivity.
Defined.

(** C7.  The hedge solver works with the negated correlation
    [corr_eff = - corr_raw].  For volatilities that are not zero and a
    correlation strictly between -1 and 1, [min_variance_weights] returns
    the minimum-variance weights of the covariance of correlation
    [corr_eff], and [portfolio_volatility] is the volatility under that
    covariance, in exact arithmetic; at volatilities 0.10 and 0.20 and a
    correlation of 0.5 the weights in binary64 are within 1e-9 of
    (5/7, 2/7), where the correlation taken as it is would give (1, 0).
    In the symmetric case (volatilities 0.10, correlation 0)
    [min_variance_weights] returns (0.5, 0.5), exactly, in exact
    arithmetic and in binary64; [portfolio_volatility] at these weights is
    [0.10 / sqrt 2] in exact arithmetic and within 1e-9 of it in
    binary64. *)
Theorem C7_hedge_uses_negated_correlation :
  (forall va vb c : R,
      va <> 0 -> vb <> 0 -> -1 < c < 1 ->
      let corr_eff := - c in
      let S := va * va + vb * vb - 2 * corr_eff * va * vb in
      min_variance_weights (Fin va) (Fin vb) (Fin c)
      = Ok (Fin ((vb * vb - corr_eff * va * vb) / S),
            Fin ((va * va - corr_eff * va * vb) / S)))
  /\ (forall wa wb va vb c : R,
         let corr_eff := - c in
         portfolio_volatility (Fin wa) (Fin wb) (Fin va) (Fin vb) (Fin c)
         = Ok (Fin (R_sqrt.sqrt
                      (Rmax (wa * wa * (va * va)
                             + 2 * (wa * wb * (corr_eff * va * vb))
                             + wb * wb * (vb * vb)) 0))))
  /\ (exists wx wy : float,
         min_variance_weights B64.tenth (lit 2 (-1)) B64.half = Ok (wx, wy)
         /\ Rabs (B64.to_R wx - 5 / 7) <= 1e-9
         /\ Rabs (B64.to_R wy - 2 / 7) <= 1e-9)
  /\ min_variance_weights (Fin 0.1) (Fin 0.1) (Fin 0) = Ok (Fin 0.5, Fin 0.5)
  /\ portfolio_volatility (Fin 0.5) (Fin 0.5) (Fin 0.1) (Fin 0.1) (Fin 0)
     = Ok (Fin (0.1 / R_sqrt.sqrt 2))
  /\ min_variance_weights B64.tenth B64.tenth f0 = Ok (B64.half, B64.half)
  /\ exists v : float,
       portfolio_volatility B64.half B64.half B64.tenth B64.tenth f0 = Ok v
       /\ Rabs (B64.to_R v - 0.1 / R_sqrt.sqrt 2) <= 1e-9.
Proof.
  split.
  { intros va vb c Hva Hvb Hc corr_eff S.
    pose proof (hedge_denominator_pos va vb c Hvb Hc) as HS.
    rewrite (hedge_weights_fin va vb c Hva Hvb Hc). cbv zeta.
    unfold S, corr_eff.
    f_equal. f_equal; f_equal; field; lra. }
  split.
  { intros wa wb va vb c corr_eff. rewrite portfolio_volatility_fin.
    unfold corr_eff, quad, dotR. cbn -[Rmult Rplus Rmax].
    do 3 f_equal. f_equal. ring. }
  split.
  { eexists _, _. split; [vm_compute; reflexivity|].
    unfold B64.to_R.
    repeat match goal with
    | |- context [Prim2SF ?x] =>
        let y := eval vm_compute in (Prim2SF x) in change (Prim2SF x) with y
    end.
    cbv iota.
    replace (powerRZ 2 (-53)) with (/ 2 ^ 53) by reflexivity.
    replace (powerRZ 2 (-54)) with (/ 2 ^ 54) by reflexivity.
    split; apply Rabs_le; lra. }
  split; [exact min_variance_weights_symmetric|].
  split; [exact portfolio_volatility_symmetric|].
  split; [vm_compute; reflexivity|].
  eexists. split; [vm_compute; reflexivity|].
  unfold B64.to_R.
  match goal with
  | |- context [Prim2SF ?x] =>
      let y := eval vm_compute in (Prim2SF x) in change (Prim2SF x) with y
  end.
  cbv iota.
  pose proof sqrt2_bounds as (Hlo & Hhi).
  set (t := R_sqrt.sqrt 2) in *. set (u := 0.1 / t).
  assert (Ht : 0 < t) by lra.
  assert (Hu : 0 < u) by (apply Rdiv_lt_0_compat; lra).
  assert (Htu : u * t = 0.1) by (unfold u; field; lra).
  pose proof (Rmult_lt_compat_l u _ _ Hu Hlo) as H1.
  pose proof (Rmult_lt_compat_l u _ _ Hu Hhi) as H2.
  replace (powerRZ 2 (-56)) with (/ 2 ^ 56) by reflexivity.
  apply Rabs_le. lra.
Qed.

Lemma C7_hedge_uses_negated_correlation_witness :
  min_variance_weights (Fin 0.1) (Fin 0.2) (Fin 0.5)
  = Ok (Fin ((0.2 * 0.2 - - (0.5) * 0.1 * 0.2)
             / (0.1 * 0.1 + 0.2 * 0.2 - 2 * - (0.5) * 0.1 * 0.2)),
        Fin ((0.1 * 0.1 - - (0.5) * 0.1 * 0.2)
             / (0.1 * 0.1 + 0.2 * 0.2 - 2 * - (0.5) * 0.1 * 0.2))).
Proof.
  refine (proj1 C7_hedge_uses_negated_correlation 0.1 0.2 0.5 _ _ _); lra.
Defined.

(** Whenever the hedge solver returns finite weights in exact arithmetic,
    they are fully invested and satisfy the first-order condition of the
    minimum-variance problem: the two rows of [cov @ w] are equal. *)
Theorem min_variance_weights_first_order :
  forall va vb c wx wy : R,
    min_variance_weights (Fin va) (Fin vb) (Fin c) = Ok (Fin wx, Fin wy) ->
    wx + wy = 1
    /\ va * va * wx + (- c * va * vb) * wy
       = (- c * va * vb) * wx + vb * vb * wy.
Proof.
  intros va vb c wx wy. unfold min_variance_weights.
  rewrite cov_matrix_fin. cbn [bind].
  intros H. apply bind_ok_inv in H as (inv & Hinv & H).
  apply inv2_sound in Hinv as (x00 & x01 & x10 & x11 & -> & H1 & H2 & H3 & H4).
  cbn -[IZR Rabs Z.pow_pos] in H.
  set (den := 0 + (0 + 1 * x00 + 1 * x10) * 1 + (0 + 1 * x01 + 1 * x11) * 1) in H.
  destruct (Req_dec_T den 0) as [Hd | Hd].
  { unfold signed_inf in H.
    repeat match type of H with
           | context [Rlt_dec ?x ?y] => destruct (Rlt_dec x y)
           end; discriminate. }
  injection H as <- <-.
  split; [unfold den; field; intros H; apply Hd; unfold den; lra|].
  replace (va * va * ((0 + x00 * 1 + x01 * 1) / den)
           + - c * va * vb * ((0 + x10 * 1 + x11 * 1) / den))
    with (((va * va * x00 + - c * va * vb * x10)
           + (va * va * x01 + - c * va * vb * x11)) / den)
    by (field; exact Hd).
  replace (- c * va * vb * ((0 + x00 * 1 + x01 * 1) / den)
           + vb * vb * ((0 + x10 * 1 + x11 * 1) / den))
    with (((- c * va * vb * x00 + vb * vb * x10)
           + (- c * va * vb * x01 + vb * vb * x11)) / den)
    by (field; exact Hd).
  rewrite H1, H2, H3, H4. f_equal. ring.
Qed.

Lemma min_variance_weights_first_order_witness :
  0.5 + 0.5 = 1
  /\ 0.1 * 0.1 * 0.5 + (- 0 * 0.1 * 0.1) * 0.5
     = (- 0 * 0.1 * 0.1) * 0.5 + 0.1 * 0.1 * 0.5.
Proof.
  exact (min_variance_weights_first_order 0.1 0.1 0 0.5 0.5
           min_variance_weights_symmetric).
Defined.

(** C8 (the code departs from the claim).  A volatility that is not
    positive does not always give the sentinel: [portfolio_stats] tests
    [vol <= 0], which is false of a NaN.  For the weights [1, 0, 0] and
    the validated covariance [diag(-1, 1, 1)] the volatility is NaN, so
    not greater than zero, and the Sharpe ratio is NaN, not [-inf], in
    binary64; in exact arithmetic this is so whenever [w . cov . w] is
    negative.  The variance clamped at zero, as the claim's volatility
    has it, would give the sentinel. *)
Theorem C8_sharpe_nan_on_negative_variance :
  _validate_inputs (ops := B64.ops) mu_zero cov_nonpsd = Ok (mu_zero, cov_nonpsd)
  /\ (exists r,
         portfolio_stats (ops := B64.ops) corner1 mu_zero cov_nonpsd f0 = Ok r
         /\ gtb (volatility r) f0 = false
         /\ eqb (sharpe_ratio r) neg_inf = false
         /\ PrimFloat.is_nan (sharpe_ratio r) = true)
  /\ (forall w0 w1 w2 m0 m1 m2 c00 c01 c02 c10 c11 c12 c20 c21 c22 rf : R,
         let w := [w0; w1; w2] in
         let c := [[c00; c01; c02]; [c10; c11; c12]; [c20; c21; c22]] in
         quad w c < 0 ->
         exists r,
           portfolio_stats (vec w) (vec [m0; m1; m2]) (mat c) (Fin rf) = Ok r
           /\ gtb (volatility r) f0 = false
           /\ sharpe_ratio r = NaN
           /\ sharpe_ratio r <> neg_inf).
Proof.
  split; [vm_compute; reflexivity|].
  split.
  - eexists. split; [vm_compute; reflexivity|]. repeat split; reflexivity.
  - intros w0 w1 w2 m0 m1 m2 c00 c01 c02 c10 c11 c12 c20 c21 c22 rf w c Hq.
    eexists. split; [apply portfolio_stats_fin|].
    cbn [volatility sharpe_ratio]. fold w c.
    cbn [fsqrt XReal.ops xsqrt].
    destruct (Rlt_dec (quad w c) 0) as [_|Hn]; [|contradiction].
    split; [reflexivity|]. split; [reflexivity | discriminate].
Qed.

Lemma C8_sharpe_nan_on_negative_variance_witness :
  exists r,
    portfolio_stats (vec [1; 0; 0]) (vec [0; 0; 0])
      (mat [[-1; 0; 0]; [0; 1; 0]; [0; 0; 1]]) (Fin 0) = Ok r
    /\ gtb (volatility r) f0 = false
    /\ sharpe_ratio r = NaN
    /\ sharpe_ratio r <> neg_inf.
Proof.
  apply (proj2 (proj2 C8_sharpe_nan_on_negative_variance)
           1 0 0 0 0 0 (-1) 0 0 0 1 0 0 0 1 0).
  unfold quad, dotR. simpl. lra.
Defined.

(** C9, as stated, fails on the code: the matrix with [cov[0][1] = 1] and
    [cov[1][0] = 1.000001] is not symmetric within the absolute tolerance
    1e-10, and the validation returns it, in binary64 and in exact
    arithmetic ([np.allclose] keeps its default relative tolerance
    1e-5). *)
Lemma C9_counterexample :
  (_validate_inputs (ops := B64.ops) mu_zero cov_asym = Ok (mu_zero, cov_asym)
   /\ ltb (lit 1 (-10)) (fabs (sub (get2 (ops := B64.ops) cov_asym 0 1)
                                   (get2 cov_asym 1 0))) = true)
  /\ (_validate_inputs (ops := XReal.ops) mu_zero cov_asym = Ok (mu_zero, cov_asym)
      /\ exists a b, get2 (ops := XReal.ops) cov_asym 0 1 = Fin a
                     /\ get2 (ops := XReal.ops) cov_asym 1 0 = Fin b
                     /\ 1e-10 < Rabs (a - b)).
Proof.
  split.
  - split; vm_compute; reflexivity.
  - assert (E : lit (ops := XReal.ops) 1000001 (-6) = Fin 1.000001).
    { unfold lit. cbn [Z.leb Z.compare Z.opp]. rewrite !of_Z_fin, div_fin.
      - reflexivity.
      - apply not_0_IZR. discriminate. }
    split.
    + destruct (validate_cases (ops := XReal.ops) mu_zero cov_asym)
        as [[H _]|[(_ & H & _)|[(_ & _ & H & _)|(_ & _ & _ & H)]]].
      * exfalso. apply H. reflexivity.
      * exfalso. apply H. reflexivity.
      * apply not_true_iff_false in H. exfalso. apply H.
        apply allclose_transpose; [reflexivity | reflexivity |].
        unfold cov_asym, get2. rewrite E.
        intros i j Hi Hj.
        destruct i as [|[|[|i]]]; try lia; destruct j as [|[|[|j]]]; try lia;
          cbn -[IZR Rabs Z.pow_pos]; solve_real.
      * exact H.
    + unfold cov_asym, get2. rewrite E. cbn -[IZR Rabs Z.pow_pos].
      eexists. eexists. split; [reflexivity|]. split; [reflexivity|]. solve_real.
Qed.

(** C9 (amended).  The validation makes its checks in order: the shape of
    [mu], then the shape of [cov], both reported as ShapeError, then the
    symmetry of [cov] as [np.allclose] tests it with [atol = 1e-10] and its
    default [rtol = 1e-5], reported as SymmetryError: an entry with
    [|cov[i][j] - cov[j][i]| > 1e-10 + 1e-5 * |cov[j][i]|] (or a
    non-finite entry that differs from its mirror).  Inputs that pass the
    three checks are returned unchanged, and nothing else fails. *)
Theorem C9_validation_checks_in_order :
  forall mu cov : ndarray (F := xreal),
    wf cov ->
    (shape mu <> [3%nat] ->
     _validate_inputs mu cov = Raise (ValueError msg_mu_shape)
     /\ ShapeError (ValueError msg_mu_shape))
    /\ (shape mu = [3%nat] -> shape cov <> [3%nat; 3%nat] ->
        _validate_inputs mu cov = Raise (ValueError msg_cov_shape)
        /\ ShapeError (ValueError msg_cov_shape))
    /\ (shape mu = [3%nat] -> shape cov = [3%nat; 3%nat] ->
        (exists i j, (i < 3)%nat /\ (j < 3)%nat
                     /\ ~ close (get2 cov i j) (get2 cov j i)) ->
        _validate_inputs mu cov = Raise (ValueError msg_cov_symmetric)
        /\ SymmetryError (ValueError msg_cov_symmetric))
    /\ (shape mu = [3%nat] -> shape cov = [3%nat; 3%nat] ->
        (forall i j, (i < 3)%nat -> (j < 3)%nat -> close (get2 cov i j) (get2 cov j i)) ->
        _validate_inputs mu cov = Ok (mu, cov)).
Proof.
  intros mu cov Hwf.
  destruct (validate_cases mu cov)
    as [[H E]|[(H1 & H2 & E)|[(H1 & H2 & H3 & E)|(H1 & H2 & H3 & E)]]].
  - split; [|split; [|split]]; intros; try contradiction.
    split; [assumption | left; reflexivity].
  - split; [|split; [|split]]; intros; try contradiction.
    split; [assumption | right; reflexivity].
  - split; [|split; [|split]]; intros; try contradiction.
    + split; [assumption | reflexivity].
    + exfalso. apply not_true_iff_false in H3. apply H3.
      apply allclose_transpose; assumption.
  - split; [|split; [|split]]; intros; try contradiction.
    + exfalso. destruct H4 as (i & j & Hi & Hj & Hn). apply Hn.
      apply allclose_transpose; assumption.
    + assumption.
Qed.

Lemma C9_validation_checks_in_order_witness :
  _validate_inputs (ops := XReal.ops) mu_zero identity3 = Ok (mu_zero, identity3).
Proof.
  apply (C9_validation_checks_in_order mu_zero identity3).
  - reflexivity.
  - reflexivity.
  - reflexivity.
  - intros i j Hi Hj.
    destruct i as [|[|[|i]]]; try lia; destruct j as [|[|[|j]]]; try lia;
      apply close_refl_fin.
Defined.

(** C10, as stated, fails on the code in binary64: a volatility of 1e200
    is a finite float whose square overflows, and [sigma ** 2] raises
    [OverflowError]. *)
Lemma C10_counterexample :
  isfinite (lit (ops := B64.ops) 1 200) = true
  /\ portfolio_volatility (ops := B64.ops) f1 f0 (lit 1 200) B64.tenth f0
     = Raise (OverflowError msg_pow_overflow).
Proof. split; vm_compute; reflexivity. Qed.

(** C10 (amended).  [portfolio_volatility] of the FX module returns
    [sqrt(max(variance, 0))], a number that is not negative, for all real
    weights, volatilities and correlation, and never raises in exact
    arithmetic (special values included).  In binary64 it raises in one
    way only, [OverflowError], exactly when the square of a finite
    volatility overflows; otherwise it returns. *)
Theorem C10_portfolio_volatility_clamped :
  (forall wa wb va vb c : R,
      let variance := quad [wa; wb] [[va * va; - c * va * vb];
                                     [- c * va * vb; vb * vb]] in
      portfolio_volatility (Fin wa) (Fin wb) (Fin va) (Fin vb) (Fin c)
      = Ok (Fin (R_sqrt.sqrt (Rmax variance 0)))
      /\ 0 <= R_sqrt.sqrt (Rmax variance 0))
  /\ (forall wa wb va vb c : xreal,
         exists v, portfolio_volatility wa wb va vb c = Ok v)
  /\ (forall wa wb va vb c : float,
         if pow2_overflows va || pow2_overflows vb
         then portfolio_volatility wa wb va vb c
              = Raise (OverflowError msg_pow_overflow)
         else exists v, portfolio_volatility wa wb va vb c = Ok v).
Proof.
  split; [|split].
  - intros. split; [apply portfolio_volatility_fin | apply sqrt_pos].
  - intros wa wb va vb c.
    assert (H0 : ltb (f0 : xreal) f0 = false) by (cbn; apply Rltb_false; lra).
    pose proof (portfolio_volatility_cases wa wb va vb c H0) as H.
    assert (E : pow2_overflows va || pow2_overflows vb = false).
    { destruct va, vb; reflexivity. }
    rewrite E in H. exact H.
  - intros. apply portfolio_volatility_cases. reflexivity.
Qed.

(* ================================================================== *)
(** * Further properties of the code *)
(* ================================================================== *)

Import Console FXMain ReaderSpec ConsoleExamples MarkowitzMain.
Import ReaderFacts HedgeForm OptimalityFacts MainFacts.

(** ** The two-currency hedge *)

(** For volatilities that are not zero and a correlation strictly between
    -1 and 1, [min_variance_weights] returns, in exact arithmetic,
    [(vb^2 + c va vb) / S] and [(va^2 + c va vb) / S] with
    [S = va^2 + vb^2 + 2 c va vb > 0]. *)
Theorem hedge_weights_closed_form :
  forall va vb c : R,
    va <> 0 -> vb <> 0 -> -1 < c < 1 ->
    let S := va * va + vb * vb + 2 * c * va * vb in
    0 < S
    /\ min_variance_weights (Fin va) (Fin vb) (Fin c)
       = Ok (Fin ((vb * vb + c * va * vb) / S), Fin ((va * va + c * va * vb) / S)).
Proof.
  intros va vb c Hva Hvb Hc S. split.
  - apply hedge_denominator_pos; assumption.
  - apply hedge_weights_fin; assumption.
Qed.

Lemma hedge_weights_closed_form_witness :
  0 < 0.1 * 0.1 + 0.2 * 0.2 + 2 * 0.5 * 0.1 * 0.2
  /\ min_variance_weights (Fin 0.1) (Fin 0.2) (Fin 0.5)
     = Ok (Fin ((0.2 * 0.2 + 0.5 * 0.1 * 0.2)
                / (0.1 * 0.1 + 0.2 * 0.2 + 2 * 0.5 * 0.1 * 0.2)),
           Fin ((0.1 * 0.1 + 0.5 * 0.1 * 0.2)
                / (0.1 * 0.1 + 0.2 * 0.2 + 2 * 0.5 * 0.1 * 0.2))).
Proof.
  apply (hedge_weights_closed_form 0.1 0.2 0.5); lra.
Defined.

(** The weights [min_variance_weights] returns minimise
    [portfolio_volatility] among all fully invested weights: for
    volatilities that are not zero and a correlation strictly between -1
    and 1, no pair [(x, y)] with [x + y = 1] has a smaller volatility, in
    exact arithmetic. *)
Theorem hedge_weights_minimize_volatility :
  forall va vb c : R,
    va <> 0 -> vb <> 0 -> -1 < c < 1 ->
    exists wx wy v0,
      min_variance_weights (Fin va) (Fin vb) (Fin c) = Ok (Fin wx, Fin wy)
      /\ portfolio_volatility (Fin wx) (Fin wy) (Fin va) (Fin vb) (Fin c) = Ok (Fin v0)
      /\ forall x y : R,
           x + y = 1 ->
           exists v,
             portfolio_volatility (Fin x) (Fin y) (Fin va) (Fin vb) (Fin c) = Ok (Fin v)
             /\ v0 <= v.
Proof.
  intros va vb c Hva Hvb Hc.
  pose proof (hedge_denominator_pos va vb c Hvb Hc) as HS.
  set (S := va * va + vb * vb + 2 * c * va * vb) in *.
  set (wx := (vb * vb + c * va * vb) / S).
  assert (Ewy : (va * va + c * va * vb) / S = 1 - wx).
  { unfold wx, S. field. fold S. lra. }
  eexists wx, (1 - wx), _.
  split; [rewrite <- Ewy; apply hedge_weights_fin; assumption|].
  split; [apply portfolio_volatility_fin|].
  intros x y Hxy. eexists. split; [apply portfolio_volatility_fin|].
  replace y with (1 - x) by lra.
  apply sqrt_le_1_alt. apply Rle_max_compat_r.
  pose proof (variance_at_hedge va vb c x ltac:(fold S; lra)) as E.
  cbv zeta in E. fold S in E. fold wx in E. rewrite E.
  assert (0 <= (x - wx) * (x - wx)) by apply Rle_0_sqr.
  assert (0 <= (x - wx) * (x - wx) * S) by (apply Rmult_le_pos; lra).
  lra.
Qed.

Lemma hedge_weights_minimize_volatility_witness :
  exists wx wy v0,
    min_variance_weights (Fin 0.1) (Fin 0.2) (Fin 0.5) = Ok (Fin wx, Fin wy)
    /\ portfolio_volatility (Fin wx) (Fin wy) (Fin 0.1) (Fin 0.2) (Fin 0.5) = Ok (Fin v0)
    /\ forall x y : R,
         x + y = 1 ->
         exists v,
           portfolio_volatility (Fin x) (Fin y) (Fin 0.1) (Fin 0.2) (Fin 0.5) = Ok (Fin v)
           /\ v0 <= v.
Proof.
  apply (hedge_weights_minimize_volatility 0.1 0.2 0.5); lra.
Defined.

(** The hedge may go short: for positive volatilities and a correlation
    strictly between -1 and 1 the EUR weight is negative exactly when
    [vb < - c va], the JPY weight exactly when [va < - c vb], and never
    both. *)
Theorem hedge_short_leg :
  forall va vb c : R,
    0 < va -> 0 < vb -> -1 < c < 1 ->
    exists wx wy,
      min_variance_weights (Fin va) (Fin vb) (Fin c) = Ok (Fin wx, Fin wy)
      /\ (wx < 0 <-> vb < - c * va)
      /\ (wy < 0 <-> va < - c * vb)
      /\ (0 < wx \/ 0 < wy).
Proof.
  intros va vb c Hva Hvb Hc.
  pose proof (hedge_denominator_pos va vb c ltac:(lra) Hc) as HS.
  set (S := va * va + vb * vb + 2 * c * va * vb) in *.
  eexists _, _. split; [apply hedge_weights_fin; lra|].
  fold S.
  assert (Hx : (vb * vb + c * va * vb) / S * S = vb * (vb + c * va))
    by (field; lra).
  assert (Hy : (va * va + c * va * vb) / S * S = va * (va + c * vb))
    by (field; lra).
  assert (Hsum : (vb * vb + c * va * vb) / S + (va * va + c * va * vb) / S = 1)
    by (unfold S; field; fold S; lra).
  set (wx := (vb * vb + c * va * vb) / S) in *.
  set (wy := (va * va + c * va * vb) / S) in *.
  split; [|split].
  - split; intros H.
    + assert (wx * S < 0) by nra. nra.
    + assert (vb * (vb + c * va) < 0) by nra.
      destruct (Rlt_dec wx 0) as [|Hn]; [assumption|].
      assert (0 <= wx * S) by (apply Rmult_le_pos; lra). lra.
  - split; intros H.
    + assert (wy * S < 0) by nra. nra.
    + assert (va * (va + c * vb) < 0) by nra.
      destruct (Rlt_dec wy 0) as [|Hn]; [assumption|].
      assert (0 <= wy * S) by (apply Rmult_le_pos; lra). lra.
  - destruct (Rlt_dec 0 wx); [left; assumption | right; lra].
Qed.

Lemma hedge_short_leg_witness :
  exists wx wy,
    min_variance_weights (Fin 0.2) (Fin 0.1) (Fin (-0.9)) = Ok (Fin wx, Fin wy)
    /\ (wx < 0 <-> 0.1 < - (-0.9) * 0.2)
    /\ (wy < 0 <-> 0.2 < - (-0.9) * 0.1)
    /\ (0 < wx \/ 0 < wy).
Proof.
  apply (hedge_short_leg 0.2 0.1 (-0.9)); lra.
Defined.

(** With equal volatilities (not zero) the hedge is (1/2, 1/2) for every
    correlation strictly between -1 and 1. *)
Theorem hedge_equal_volatilities :
  forall v c : R,
    v <> 0 -> -1 < c < 1 ->
    min_variance_weights (Fin v) (Fin v) (Fin c) = Ok (Fin (1 / 2), Fin (1 / 2)).
Proof.
  intros v c Hv Hc.
  pose proof (hedge_denominator_pos v v c Hv Hc) as HS.
  rewrite (hedge_weights_fin v v c Hv Hv Hc). cbv zeta.
  assert (E : (v * v + c * v * v) / (v * v + v * v + 2 * c * v * v) = 1 / 2)
    by (field; lra).
  rewrite E. reflexivity.
Qed.

Lemma hedge_equal_volatilities_witness :
  min_variance_weights (Fin 0.3) (Fin 0.3) (Fin 0.25) = Ok (Fin (1 / 2), Fin (1 / 2)).
Proof.
  apply (hedge_equal_volatilities 0.3 0.25); lra.
Defined.

(** [portfolio_volatility] at the weights of [min_variance_weights], as
    [main] computes it, is [sqrt (va^2 vb^2 (1 - c^2) / S)]: never above
    the volatility of either currency alone. *)
Theorem hedged_volatility_value :
  forall va vb c : R,
    va <> 0 -> vb <> 0 -> -1 < c < 1 ->
    exists wx wy,
      min_variance_weights (Fin va) (Fin vb) (Fin c) = Ok (Fin wx, Fin wy)
      /\ portfolio_volatility (Fin wx) (Fin wy) (Fin va) (Fin vb) (Fin c)
         = Ok (Fin (R_sqrt.sqrt (va * va * (vb * vb) * (1 - c * c)
                                 / (va * va + vb * vb + 2 * c * va * vb))))
      /\ R_sqrt.sqrt (va * va * (vb * vb) * (1 - c * c)
                      / (va * va + vb * vb + 2 * c * va * vb)) <= Rabs va
      /\ R_sqrt.sqrt (va * va * (vb * vb) * (1 - c * c)
                      / (va * va + vb * vb + 2 * c * va * vb)) <= Rabs vb.
Proof.
  intros va vb c Hva Hvb Hc.
  pose proof (hedge_denominator_pos va vb c Hvb Hc) as HS.
  destruct (hedged_volatility_fin va vb c Hva Hvb Hc) as (Hm & Hvol).
  cbv zeta in Hm, Hvol.
  set (S := va * va + vb * vb + 2 * c * va * vb) in *.
  set (m := va * va * (vb * vb) * (1 - c * c) / S) in *.
  eexists _, _. split; [apply hedge_weights_fin; assumption|]. fold S.
  split; [exact Hvol|].
  assert (Ha : m <= va * va).
  { apply (Rmult_le_reg_r S); [exact HS|].
    replace (m * S) with (va * va * (vb * vb) * (1 - c * c)) by (unfold m; field; lra).
    assert (0 <= (va * va + c * va * vb) * (va * va + c * va * vb)) by apply Rle_0_sqr.
    unfold S. nra. }
  assert (Hb : m <= vb * vb).
  { apply (Rmult_le_reg_r S); [exact HS|].
    replace (m * S) with (va * va * (vb * vb) * (1 - c * c)) by (unfold m; field; lra).
    assert (0 <= (vb * vb + c * va * vb) * (vb * vb + c * va * vb)) by apply Rle_0_sqr.
    unfold S. nra. }
  split.
  - rewrite <- (sqrt_Rsqr_abs va). apply sqrt_le_1_alt. exact Ha.
  - rewrite <- (sqrt_Rsqr_abs vb). apply sqrt_le_1_alt. exact Hb.
Qed.

Lemma hedged_volatility_value_witness :
  exists wx wy,
    min_variance_weights (Fin 0.1) (Fin 0.2) (Fin 0.5) = Ok (Fin wx, Fin wy)
    /\ portfolio_volatility (Fin wx) (Fin wy) (Fin 0.1) (Fin 0.2) (Fin 0.5)
       = Ok (Fin (R_sqrt.sqrt (0.1 * 0.1 * (0.2 * 0.2) * (1 - 0.5 * 0.5)
                               / (0.1 * 0.1 + 0.2 * 0.2 + 2 * 0.5 * 0.1 * 0.2))))
    /\ R_sqrt.sqrt (0.1 * 0.1 * (0.2 * 0.2) * (1 - 0.5 * 0.5)
                    / (0.1 * 0.1 + 0.2 * 0.2 + 2 * 0.5 * 0.1 * 0.2)) <= Rabs 0.1
    /\ R_sqrt.sqrt (0.1 * 0.1 * (0.2 * 0.2) * (1 - 0.5 * 0.5)
                    / (0.1 * 0.1 + 0.2 * 0.2 + 2 * 0.5 * 0.1 * 0.2)) <= Rabs 0.2.
Proof.
  apply (hedged_volatility_value 0.1 0.2 0.5); lra.
Defined.

(** [portfolio_volatility] of a single currency is the absolute value of
    its volatility, whatever the correlation and the sign of the inputs;
    of no position it is zero. *)
Theorem portfolio_volatility_single_currency :
  forall va vb c : R,
    portfolio_volatility (Fin 1) (Fin 0) (Fin va) (Fin vb) (Fin c) = Ok (Fin (Rabs va))
    /\ portfolio_volatility (Fin 0) (Fin 1) (Fin va) (Fin vb) (Fin c) = Ok (Fin (Rabs vb))
    /\ portfolio_volatility (Fin 0) (Fin 0) (Fin va) (Fin vb) (Fin c) = Ok (Fin 0).
Proof.
  intros va vb c. rewrite !portfolio_volatility_fin.
  unfold quad, dotR. cbn -[Rmult Rplus].
  repeat split; f_equal; f_equal.
  - rewrite <- (sqrt_Rsqr_abs va). f_equal. unfold Rsqr.
    pose proof (Rle_0_sqr va) as H. unfold Rsqr in H.
    rewrite Rmax_left by lra. ring.
  - rewrite <- (sqrt_Rsqr_abs vb). f_equal. unfold Rsqr.
    pose proof (Rle_0_sqr vb) as H. unfold Rsqr in H.
    rewrite Rmax_left by lra. ring.
  - rewrite Rmax_left by lra.
    match goal with |- R_sqrt.sqrt ?e = 0 => replace e with 0 by ring end.
    apply sqrt_0.
Qed.

(** How [min_variance_weights] fails.  In every float arithmetic it
    raises [OverflowError], when the square of a finite volatility
    overflows, or the [LinAlgError] of a zero pivot in [np.linalg.inv],
    and nothing else.  A volatility of zero is such a singular case, in
    exact arithmetic for every other input and in binary64 at (0, 0.25,
    0.5) and (0.25, 0, 0.5); a volatility of 1e200 overflows in
    binary64. *)
Theorem hedge_failure_modes :
  (forall (F : Type) (ops : Float64 F) (va vb c : F),
      match min_variance_weights va vb c with
      | Ok _ => pow2_overflows va || pow2_overflows vb = false
      | Raise e =>
          (pow2_overflows va || pow2_overflows vb = true
           /\ e = OverflowError msg_pow_overflow)
          \/ (pow2_overflows va || pow2_overflows vb = false
              /\ e = LinAlgError msg_lapack_singular)
      end)
  /\ (forall vb c : R,
         min_variance_weights (Fin 0) (Fin vb) (Fin c)
         = Raise (LinAlgError msg_lapack_singular))
  /\ (forall va c : R,
         min_variance_weights (Fin va) (Fin 0) (Fin c)
         = Raise (LinAlgError msg_lapack_singular))
  /\ min_variance_weights (ops := B64.ops) f0 (lit 25 (-2)) B64.half
     = Raise (LinAlgError msg_lapack_singular)
  /\ min_variance_weights (ops := B64.ops) (lit 25 (-2)) f0 B64.half
     = Raise (LinAlgError msg_lapack_singular)
  /\ min_variance_weights (ops := B64.ops) (lit 1 200) B64.tenth f0
     = Raise (OverflowError msg_pow_overflow).
Proof.
  split; [intros F ops va vb c; apply min_variance_weights_cases|].
  split.
  { intros vb c. unfold min_variance_weights. rewrite cov_matrix_fin. cbn [bind].
    rewrite inv2_singular; [reflexivity | ring]. }
  split.
  { intros va c. unfold min_variance_weights. rewrite cov_matrix_fin. cbn [bind].
    rewrite inv2_singular; [reflexivity | ring]. }
  repeat split; vm_compute; reflexivity.
Qed.

(** ** The three-asset optimisers *)

(** The analytical solver returns an extremal Sharpe ratio.  For an
    exactly symmetric, positive semi-definite covariance, if the solver
    returns a finite Sharpe ratio [S], every fully invested portfolio of
    finite Sharpe ratio [S'] has [|S'| <= |S|]: the result is the maximum
    when [S >= 0] and the minimum when [S <= 0].  Exact arithmetic. *)
Theorem tangency_is_sharpe_optimal :
  forall m0 m1 m2 a b c d e f rf : R,
  forall (res : MarkowitzResult) (S : R),
    let mu := [m0; m1; m2] in
    let cov := [[a; b; c]; [b; d; e]; [c; e; f]] in
    (forall x0 x1 x2, 0 <= quad [x0; x1; x2] cov) ->
    optimize_sharpe_unconstrained (vec mu) (mat cov) (Fin rf) = Ok res ->
    sharpe_ratio res = Fin S ->
    forall (w0 w1 w2 : R) (s : MarkowitzResult) (S' : R),
      w0 + w1 + w2 = 1 ->
      portfolio_stats (vec [w0; w1; w2]) (vec mu) (mat cov) (Fin rf) = Ok s ->
      sharpe_ratio s = Fin S' ->
      Rabs S' <= Rabs S
      /\ (0 <= S -> S' <= S)
      /\ (S <= 0 -> S <= S').
Proof. exact tangency_bound. Qed.

Lemma tangency_is_sharpe_optimal_witness :
  exists res S s S',
    optimize_sharpe_unconstrained (vec [1; 1; 1])
      (mat [[1; 0; 0]; [0; 1; 0]; [0; 0; 1]]) (Fin 0) = Ok res
    /\ sharpe_ratio res = Fin S
    /\ portfolio_stats (vec [1; 0; 0]) (vec [1; 1; 1])
         (mat [[1; 0; 0]; [0; 1; 0]; [0; 0; 1]]) (Fin 0) = Ok s
    /\ sharpe_ratio s = Fin S'
    /\ Rabs S' <= Rabs S
    /\ (0 <= S -> S' <= S)
    /\ (S <= 0 -> S <= S').
Proof.
  destruct unconstrained_example_sharpe as (res & S & Hres & HS & _).
  pose proof (portfolio_stats_fin 1 0 0 1 1 1 1 0 0 0 1 0 0 0 1 0) as Hc.
  cbv zeta in Hc.
  set (q1 := quad _ _) in Hc.
  assert (Eq1 : q1 = 1) by (unfold q1, quad, dotR; cbn -[Rmult Rplus]; ring).
  rewrite Eq1, fsqrt_fin_nonneg, sqrt_1 in Hc by lra.
  rewrite f0_fin, leb_fin in Hc.
  assert (El1 : Rleb 1 0 = false) by (apply Rleb_false; lra).
  rewrite El1, sub_fin, div_fin in Hc by lra.
  eexists res, S, _, _.
  split; [exact Hres|].
  split; [exact HS|].
  split; [exact Hc|].
  split; [reflexivity|].
  refine (tangency_is_sharpe_optimal 1 1 1 1 0 0 1 0 1 0 res S identity_psd Hres HS
            1 0 0 _ _ _ Hc eq_refl).
  lra.
Defined.

(** On finite, validated inputs whose quadratic form is never negative,
    and a resolution of at least 3, the grid search returns the
    statistics of one of its candidates, and no candidate has a greater
    Sharpe ratio.  Exact arithmetic. *)
Theorem grid_search_returns_grid_maximum :
  forall m0 m1 m2 c00 c01 c02 c10 c11 c12 c20 c21 c22 rf : R,
  forall resolution : Z,
    let mu := [m0; m1; m2] in
    let rows := [[c00; c01; c02]; [c10; c11; c12]; [c20; c21; c22]] in
    _validate_inputs (vec mu) (mat rows) = Ok (vec mu, mat rows) ->
    (forall x0 x1 x2, 0 <= quad [x0; x1; x2] rows) ->
    (3 <= resolution)%Z ->
    exists res best,
      optimize_sharpe_long_only (vec mu) (mat rows) (Fin rf) resolution = Ok res
      /\ In best (grid_candidates resolution)
      /\ portfolio_stats (weights_of best) (vec mu) (mat rows) (Fin rf) = Ok res
      /\ forall c,
           In c (grid_candidates resolution) ->
           exists s,
             portfolio_stats (weights_of c) (vec mu) (mat rows) (Fin rf) = Ok s
             /\ leb (sharpe_ratio s) (sharpe_ratio res) = true.
Proof. exact long_only_argmax. Qed.

Lemma grid_search_returns_grid_maximum_witness :
  exists res best,
    optimize_sharpe_long_only (vec [1; 2; 3])
      (mat [[1; 0; 0]; [0; 1; 0]; [0; 0; 1]]) (Fin 0) 3 = Ok res
    /\ In best (grid_candidates 3)
    /\ portfolio_stats (weights_of best) (vec [1; 2; 3])
         (mat [[1; 0; 0]; [0; 1; 0]; [0; 0; 1]]) (Fin 0) = Ok res
    /\ forall c,
         In c (grid_candidates 3) ->
         exists s,
           portfolio_stats (weights_of c) (vec [1; 2; 3])
             (mat [[1; 0; 0]; [0; 1; 0]; [0; 0; 1]]) (Fin 0) = Ok s
           /\ leb (sharpe_ratio s) (sharpe_ratio res) = true.
Proof.
  refine (grid_search_returns_grid_maximum 1 2 3 1 0 0 0 1 0 0 0 1 0 3
            (validate_symmetric 1 2 3 1 0 0 1 0 1) _ _); [|lia].
  exact identity_psd.
Defined.

(** The Sharpe ratio where the variance is not negative.  On finite
    inputs, in exact arithmetic, [portfolio_stats] returns the ratio
    [(w . mu - rf) / sqrt (w . cov . w)] when the variance is positive
    and the sentinel [-inf] when it is zero, and the comparison of the
    grid search replaces such a result by any of finite Sharpe ratio.  In
    binary64, whenever [portfolio_stats] returns, a positive volatility
    gives the ratio of the returned fields and a zero volatility the
    sentinel; on a covariance of zero variance for the first asset the
    weights [1, 0, 0] give volatility 0 and Sharpe ratio [-inf]. *)
Theorem sharpe_ratio_and_sentinel :
  (forall w0 w1 w2 m0 m1 m2 c00 c01 c02 c10 c11 c12 c20 c21 c22 rf : R,
      let w := [w0; w1; w2] in
      let c := [[c00; c01; c02]; [c10; c11; c12]; [c20; c21; c22]] in
      exists r,
        portfolio_stats (vec w) (vec [m0; m1; m2]) (mat c) (Fin rf) = Ok r
        /\ (0 < quad w c ->
            sharpe_ratio r
            = Fin ((dotR w [m0; m1; m2] - rf) / R_sqrt.sqrt (quad w c)))
        /\ (quad w c = 0 ->
            sharpe_ratio r = neg_inf
            /\ forall s, isfinite (sharpe_ratio s) = true -> keep_best r s = s))
  /\ (forall (w mu cov : ndarray) (rf : float) r,
         portfolio_stats w mu cov rf = Ok r ->
         (gtb (volatility r) f0 = true ->
          sharpe_ratio r = div (sub (expected_return r) rf) (volatility r))
         /\ (eqb (volatility r) f0 = true ->
             sharpe_ratio r = neg_inf
             /\ forall s, isfinite (sharpe_ratio s) = true -> keep_best r s = s))
  /\ (exists r,
         portfolio_stats (ops := B64.ops) corner1 (array1 [of_Z 3; f0; f0])
           (array2 [[f0; f0; f0]; [f0; f1; f0]; [f0; f0; f1]]) f1 = Ok r
         /\ eqb (volatility r) f0 = true
         /\ sharpe_ratio r = neg_inf)
  /\ (exists r,
         portfolio_stats (ops := B64.ops) corner1 (array1 [of_Z 3; f0; f0])
           identity3 f1 = Ok r
         /\ gtb (volatility r) f0 = true
         /\ sharpe_ratio r = of_Z 2).
Proof.
  split.
  { intros w0 w1 w2 m0 m1 m2 c00 c01 c02 c10 c11 c12 c20 c21 c22 rf w c.
    eexists. split; [apply portfolio_stats_fin|].
    cbn [sharpe_ratio]. fold w c. set (q := quad w c).
    split.
    - intros Hq. rewrite fsqrt_fin_nonneg by lra.
      assert (Hs : 0 < R_sqrt.sqrt q) by (apply sqrt_lt_R0; exact Hq).
      rewrite f0_fin, leb_fin.
      assert (E : Rleb (R_sqrt.sqrt q) 0 = false) by (apply Rleb_false; exact Hs).
      rewrite E, sub_fin, div_fin by lra. reflexivity.
    - intros Hq. rewrite Hq. rewrite fsqrt_fin_nonneg by lra.
      rewrite sqrt_0, f0_fin, leb_fin.
      assert (E : Rleb 0 0 = true) by (apply Rleb_true; lra).
      rewrite E. split; [reflexivity|].
      intros s Hs. unfold keep_best. cbn [sharpe_ratio].
      rewrite gtb_neg_inf_finite by assumption. reflexivity. }
  split.
  { intros w mu cov rf r H.
    destruct (portfolio_stats_inv _ _ _ _ _ H) as (e & v & ->).
    cbn [volatility sharpe_ratio expected_return].
    split.
    - intros Hpos.
      assert (leb (fsqrt v) f0 = false) as ->; [|reflexivity].
      apply ltb_zero_leb. exact Hpos.
    - intros Hz.
      assert (leb (fsqrt v) f0 = true) as ->.
      { apply eqb_zero_leb. exact Hz. }
      split; [reflexivity|].
      intros s Hs. unfold keep_best. cbn [sharpe_ratio].
      unfold gtb. cbn. rewrite ltb_neg_infinity_finite by assumption. reflexivity. }
  split.
  - eexists. split; [vm_compute; reflexivity|]. split; reflexivity.
  - eexists. split; [vm_compute; reflexivity|]. split; reflexivity.
Qed.

(** The failure modes of [optimize_sharpe], in exact arithmetic.  A
    failed validation is reported first, whatever the other arguments;
    on validated inputs the long-only path fails only on a grid size
    below 3 and the analytical path only on a singular matrix or a
    degenerate normalisation, never on the grid size, which it ignores;
    and nothing else is raised. *)
Theorem optimize_sharpe_failure_modes :
  forall (mu cov : ndarray) (rf : xreal) (long_only : bool) (grid_size : Z),
    match optimize_sharpe mu cov rf long_only grid_size with
    | Ok _ =>
        _validate_inputs mu cov = Ok (mu, cov)
        /\ (long_only = true -> (3 <= grid_size)%Z)
    | Raise e =>
        (_validate_inputs mu cov = Raise e /\ (ShapeError e \/ SymmetryError e))
        \/ (_validate_inputs mu cov = Ok (mu, cov)
            /\ long_only = true /\ (grid_size < 3)%Z /\ InvalidResolutionError e)
        \/ (_validate_inputs mu cov = Ok (mu, cov)
            /\ long_only = false
            /\ (SingularCovarianceError e \/ DegenerateNormalizationError e))
    end.
Proof.
  intros mu cov rf long_only n.
  destruct (validate_cases mu cov)
    as [[_ Hv]|[(_ & _ & Hv)|[(_ & _ & _ & Hv)|(_ & _ & _ & Hv)]]].
  1-3: assert (E : optimize_sharpe mu cov rf long_only n = Raise _)
      by (unfold optimize_sharpe, optimize_sharpe_long_only,
            optimize_sharpe_unconstrained; rewrite Hv;
          destruct long_only; reflexivity);
    rewrite E; left; split; [exact Hv|].
  - left. left. reflexivity.
  - left. right. reflexivity.
  - right. reflexivity.
  - destruct long_only; unfold optimize_sharpe.
    + destruct (Z_lt_ge_dec n 3) as [Hn | Hn].
      * rewrite (long_only_small_grid mu cov rf n Hv Hn).
        right. left. repeat split; assumption.
      * rewrite (long_only_fold mu cov rf n Hv ltac:(lia)).
        split; [exact Hv | intros _; lia].
    + destruct (unconstrained_cases mu cov rf Hv) as (excess & _ & Hc).
      destruct Hc as [(_ & ->)|(raw & denom & _ & _ & _ & [(_ & ->)|(_ & ->)])].
      * right. right. repeat split; [exact Hv|]. left. reflexivity.
      * right. right. repeat split; [exact Hv|]. right. reflexivity.
      * split; [exact Hv | discriminate].
Qed.

(** The two paths of [optimize_sharpe] compared.  For an exactly
    symmetric, positive semi-definite covariance and a grid size of at
    least 3, if the analytical path returns a finite Sharpe ratio that is
    not negative, the long-only path returns too and its Sharpe ratio is
    not greater.  Exact arithmetic. *)
Theorem unconstrained_dominates_long_only :
  forall m0 m1 m2 a b c d e f rf : R,
  forall (grid_size : Z) (ru : MarkowitzResult) (Su : R),
    let mu := [m0; m1; m2] in
    let cov := [[a; b; c]; [b; d; e]; [c; e; f]] in
    (forall x0 x1 x2, 0 <= quad [x0; x1; x2] cov) ->
    (3 <= grid_size)%Z ->
    optimize_sharpe (vec mu) (mat cov) (Fin rf) false grid_size = Ok ru ->
    sharpe_ratio ru = Fin Su ->
    0 <= Su ->
    exists rg,
      optimize_sharpe (vec mu) (mat cov) (Fin rf) true grid_size = Ok rg
      /\ leb (sharpe_ratio rg) (sharpe_ratio ru) = true.
Proof.
  intros m0 m1 m2 a b c d e f rf n ru Su mu cov Hpsd Hn Hu HSu Hpos.
  subst mu cov. unfold optimize_sharpe in *.
  pose proof (validate_symmetric m0 m1 m2 a b c d e f) as Hv. cbv zeta in Hv.
  destruct (long_only_argmax m0 m1 m2 a b c b d e c e f rf n Hv Hpsd Hn)
    as (rg & best & Hg & Hin & Hstats & _).
  exists rg. split; [exact Hg|].
  destruct best as [[w0 w1] w2].
  destruct (grid_candidates_simplex n w0 w1 w2 Hn Hin) as (_ & _ & _ & Hsum).
  unfold weights_of in Hstats.
  pose proof (sharpe_cases w0 w1 w2 m0 m1 m2 a b c b d e c e f rf (Hpsd w0 w1 w2)) as Hc.
  cbv zeta in Hc. unfold stats_of in Hc. rewrite Hstats in Hc.
  rewrite HSu.
  destruct Hc as [-> | (S' & HS')]; [reflexivity|].
  rewrite HS'. rewrite leb_fin. apply Rleb_true.
  exact (proj1 (proj2 (tangency_bound m0 m1 m2 a b c d e f rf ru Su Hpsd Hu HSu
                         w0 w1 w2 rg S' Hsum Hstats HS')) Hpos).
Qed.

Lemma unconstrained_dominates_long_only_witness :
  exists ru rg,
    optimize_sharpe (vec [1; 1; 1]) (mat [[1; 0; 0]; [0; 1; 0]; [0; 0; 1]]) (Fin 0)
      false 3 = Ok ru
    /\ optimize_sharpe (vec [1; 1; 1]) (mat [[1; 0; 0]; [0; 1; 0]; [0; 0; 1]]) (Fin 0)
         true 3 = Ok rg
    /\ leb (sharpe_ratio rg) (sharpe_ratio ru) = true.
Proof.
  destruct unconstrained_example_sharpe as (ru & Su & Hu & HSu & Hpos).
  destruct (unconstrained_dominates_long_only 1 1 1 1 0 0 1 0 1 0 3 ru Su
              identity_psd ltac:(lia) Hu HSu Hpos) as (rg & Hg & Hle).
  exists ru, rg. split; [exact Hu|]. split; [exact Hg | exact Hle].
Defined.

(** ** The validation and the covariance of the example run *)

(** A covariance matrix with a NaN entry is refused as not symmetric:
    [np.allclose] is false on a NaN, also against itself. *)
Theorem validation_rejects_nan_covariance :
  forall mu cov : ndarray,
    shape mu = [3%nat] -> shape cov = [3%nat; 3%nat] -> wf cov ->
    In NaN (data cov) ->
    _validate_inputs mu cov = Raise (ValueError msg_cov_symmetric)
    /\ SymmetryError (ValueError msg_cov_symmetric).
Proof.
  intros mu cov Hmu Hcov Hwf Hnan.
  split; [|reflexivity].
  destruct (validate_cases mu cov)
    as [[H _]|[(_ & H & _)|[(_ & _ & _ & H)|(_ & _ & Hall & _)]]];
    [contradiction | contradiction | exact H |].
  exfalso.
  destruct cov as [sh d]. cbn [shape data] in *. subst sh.
  unfold wf in Hwf. cbn in Hwf.
  destruct d as [|d0 [|d1 [|d2 [|d3 [|d4 [|d5 [|d6 [|d7 [|d8 [|d9 d]]]]]]]]]];
    try discriminate Hwf.
  unfold allclose, T, get2 in Hall.
  cbn [shape data seq flat_map map app combine forallb fst snd nth Nat.mul Nat.add] in Hall.
  rewrite !andb_true_iff in Hall.
  assert (Hno : forall x y, isclose default_rtol (lit 1 (-10)) x y = true -> x <> NaN).
  { intros x y Hc ->. unfold isclose in Hc. cbn in Hc. discriminate. }
  destruct Hall as (H0 & H1 & H2 & H3 & H4 & H5 & H6 & H7 & H8 & _).
  cbn [In] in Hnan.
  destruct Hnan as [E|[E|[E|[E|[E|[E|[E|[E|[E|[]]]]]]]]]];
    [ exact (Hno _ _ H0 E) | exact (Hno _ _ H1 E) | exact (Hno _ _ H2 E)
    | exact (Hno _ _ H3 E) | exact (Hno _ _ H4 E) | exact (Hno _ _ H5 E)
    | exact (Hno _ _ H6 E) | exact (Hno _ _ H7 E) | exact (Hno _ _ H8 E) ].
Qed.

Lemma validation_rejects_nan_covariance_witness :
  _validate_inputs (ops := XReal.ops) mu_zero
    (array2 [[NaN; f0; f0]; [f0; f1; f0]; [f0; f0; f1]])
  = Raise (ValueError msg_cov_symmetric)
  /\ SymmetryError (ValueError msg_cov_symmetric).
Proof.
  apply (validation_rejects_nan_covariance mu_zero
           (array2 [[NaN; f0; f0]; [f0; f1; f0]; [f0; f0; f1]]));
    [reflexivity | reflexivity | reflexivity | left; reflexivity].
Defined.

(** [np.outer(vol, vol) * corr], the covariance of the example run: for
    finite volatilities and a symmetric matrix of correlations it is the
    matrix of the [vol_i vol_j corr_ij], it passes the validation with
    every vector of three expected returns, and it is positive
    semi-definite when the correlations are.  Exact arithmetic. *)
Theorem covariance_of_vol_and_corr :
  forall v0 v1 v2 d0 d1 d2 r01 r02 r12 m0 m1 m2 : R,
    let corr := [[d0; r01; r02]; [r01; d1; r12]; [r02; r12; d2]] in
    let cov := [[v0 * v0 * d0; v0 * v1 * r01; v0 * v2 * r02];
                [v1 * v0 * r01; v1 * v1 * d1; v1 * v2 * r12];
                [v2 * v0 * r02; v2 * v1 * r12; v2 * v2 * d2]] in
    covariance_of (vec [v0; v1; v2]) (mat corr) = Ok (mat cov)
    /\ _validate_inputs (vec [m0; m1; m2]) (mat cov)
       = Ok (vec [m0; m1; m2], mat cov)
    /\ ((forall x0 x1 x2, 0 <= quad [x0; x1; x2] corr) ->
        forall x0 x1 x2, 0 <= quad [x0; x1; x2] cov).
Proof.
  intros v0 v1 v2 d0 d1 d2 r01 r02 r12 m0 m1 m2 corr cov.
  split; [|split].
  - unfold covariance_of, arr_mul, outer.
    cbn [vec mat array1 array2 shape data length map hd].
    unfold shape_eqb. destruct (list_eq_dec _ _ _) as [_|n]; [|exfalso; apply n; reflexivity].
    reflexivity.
  - destruct (validate_cases (vec [m0; m1; m2]) (mat cov))
      as [[H _]|[(_ & H & _)|[(_ & _ & H & _)|(_ & _ & _ & H)]]].
    + exfalso. apply H. reflexivity.
    + exfalso. apply H. reflexivity.
    + apply not_true_iff_false in H. exfalso. apply H.
      apply allclose_transpose; [reflexivity | reflexivity |].
      intros i j Hi Hj.
      destruct i as [|[|[|i]]]; try lia; destruct j as [|[|[|j]]]; try lia;
        cbn -[Rmult Rabs];
        match goal with
        | |- Rabs (?a - ?b) <= _ =>
            replace (a - b) with 0 by ring; rewrite Rabs_R0;
            pose proof (Rabs_pos b); lra
        end.
    + exact H.
  - intros Hpsd x0 x1 x2.
    replace (quad [x0; x1; x2] cov) with (quad [v0 * x0; v1 * x1; v2 * x2] corr)
      by (unfold quad, dotR, cov, corr; cbn -[Rmult Rplus]; ring).
    apply Hpsd.
Qed.

(** ** The interactive program *)

Section Readers.
Context {F : Type} {ops : Float64 F}.
Context (strip : string -> string) (float_of_str : string -> option F).

(** [_read_float] returns the number of the first line that [float]
    accepts, having answered each line before it with its message; it
    ends with [EOFError], all lines consumed, when there is no such
    line.  It never loops for ever. *)
Theorem read_float_returns_first_number :
  forall (prompt : string) (bad : list string) (out : list event),
    Forall (unparsable strip float_of_str) bad ->
    (forall good rest v,
        float_of_str (strip good) = Some v ->
        _read_float strip float_of_str prompt
          {| stdin := bad ++ good :: rest; stdout := out |}
        = Some (Returned v,
                {| stdin := rest;
                   stdout := out ++ rejections prompt msg_valid_number bad
                             ++ [Prompt prompt] |}))
    /\ _read_float strip float_of_str prompt {| stdin := bad; stdout := out |}
       = Some (EOFError,
               {| stdin := [];
                  stdout := out ++ rejections prompt msg_valid_number bad
                            ++ [Prompt prompt] |}).
Proof.
  intros prompt bad out Hbad. split.
  - intros good rest v Hv. unfold _read_float, iterations. cbn [stdin].
    apply read_float_loop_valid; try assumption.
    rewrite length_app. simpl. lia.
  - unfold _read_float, iterations. cbn [stdin].
    apply read_float_loop_eof; [lia | assumption].
Qed.

(** [_read_vol] always ends, and never with a negative value: what it
    returns is the number of a line of the input for which [value < 0]
    is false; it ends with [EOFError] only when every line that parses is
    negative; the lines it leaves are a suffix of the input. *)
Theorem read_vol_never_negative :
  forall (prompt : string) (c : console),
    exists r c',
      _read_vol strip float_of_str prompt c = Some (r, c')
      /\ (exists consumed, stdin c = consumed ++ stdin c')
      /\ match r with
         | Returned v =>
             ltb v f0 = false
             /\ exists line, In line (stdin c) /\ float_of_str (strip line) = Some v
         | Uncaught _ => False
         | EOFError =>
             stdin c' = []
             /\ Forall (fun line => forall v, float_of_str (strip line) = Some v ->
                                              ltb v f0 = true) (stdin c)
         end.
Proof.
  intros prompt c. rewrite read_vol_scan.
  destruct (scan_result strip float_of_str (fun v => ltb v f0) msg_vol_negative prompt
              (stdin c) (stdout c)) as (r & c' & E & H).
  exists r, c'. rewrite E. split; [reflexivity | exact H].
Qed.

(** [_read_corr] always ends, and what it returns is the number of a
    line of the input for which neither [value < -1] nor [value > 1]
    holds; it ends with [EOFError] only when every line that parses is
    out of these bounds. *)
Theorem read_corr_within_bounds :
  forall (prompt : string) (c : console),
    exists r c',
      _read_corr strip float_of_str prompt c = Some (r, c')
      /\ (exists consumed, stdin c = consumed ++ stdin c')
      /\ match r with
         | Returned v =>
             (ltb v (of_Z (-1)) = false /\ gtb v (of_Z 1) = false)
             /\ exists line, In line (stdin c) /\ float_of_str (strip line) = Some v
         | Uncaught _ => False
         | EOFError =>
             stdin c' = []
             /\ Forall (fun line => forall v, float_of_str (strip line) = Some v ->
                          ltb v (of_Z (-1)) = true \/ gtb v (of_Z 1) = true) (stdin c)
         end.
Proof.
  intros prompt c. rewrite read_corr_scan.
  destruct (scan_result strip float_of_str
              (fun v => ltb v (of_Z (-1)) || gtb v (of_Z 1)) msg_corr_range prompt
              (stdin c) (stdout c)) as (r & c' & E & Hc & H).
  exists r, c'. rewrite E. split; [reflexivity|]. split; [exact Hc|].
  destruct r as [v| |]; [| exact H |].
  - destruct H as (Hrej & Hline). split; [|exact Hline].
    apply orb_false_iff. exact Hrej.
  - destruct H as (Hnil & Hall). split; [exact Hnil|].
    eapply Forall_impl; [|exact Hall].
    intros line Hl v Hv. apply orb_true_iff. exact (Hl v Hv).
Qed.
End Readers.

Local Open Scope string_scope.

Lemma read_float_returns_first_number_witness :
  _read_float example_strip example_float prompt_corr
    {| stdin := ["x"; "y"] ++ "0.5" :: ["1"]; stdout := [] |}
  = Some (Returned (Fin 0.5),
          {| stdin := ["1"];
             stdout := [] ++ rejections prompt_corr msg_valid_number ["x"; "y"]
                       ++ [Prompt prompt_corr] |})
  /\ _read_float example_strip example_float prompt_corr
       {| stdin := ["x"; "y"]; stdout := [] |}
     = Some (EOFError,
             {| stdin := [];
                stdout := [] ++ rejections prompt_corr msg_valid_number ["x"; "y"]
                          ++ [Prompt prompt_corr] |}).
Proof.
  assert (Hbad : Forall (unparsable example_strip example_float) ["x"; "y"])
    by (repeat constructor).
  destruct (read_float_returns_first_number example_strip example_float prompt_corr
              ["x"; "y"] [] Hbad) as (Hgood & Heof).
  split; [|exact Heof].
  exact (Hgood "0.5" ["1"] (Fin 0.5) eq_refl).
Defined.

(** The readers in exact arithmetic: [_read_vol] returns a real that is
    not negative, [+inf] or NaN; [_read_corr] a real of [[-1, 1]] or NaN;
    and a first line that [float] reads as NaN is returned by both, since
    every comparison with NaN is false. *)
Theorem readers_in_exact_arithmetic :
  forall (strip : string -> string) (float_of_str : string -> option xreal),
  forall (prompt : string) (c c' : console) (v : xreal),
    (_read_vol strip float_of_str prompt c = Some (Returned v, c') ->
     (exists x, v = Fin x /\ 0 <= x) \/ v = PInf \/ v = NaN)
    /\ (_read_corr strip float_of_str prompt c = Some (Returned v, c') ->
        (exists x, v = Fin x /\ -1 <= x <= 1) \/ v = NaN)
    /\ (forall line rest out,
          float_of_str (strip line) = Some NaN ->
          _read_vol strip float_of_str prompt {| stdin := line :: rest; stdout := out |}
          = Some (Returned NaN, {| stdin := rest; stdout := out ++ [Prompt prompt] |})
          /\ _read_corr strip float_of_str prompt
               {| stdin := line :: rest; stdout := out |}
             = Some (Returned NaN, {| stdin := rest; stdout := out ++ [Prompt prompt] |})).
Proof.
  intros strip float_of_str prompt c c' v.
  split; [|split].
  - rewrite read_vol_scan. intros H. injection H as H.
    destruct (scan_result strip float_of_str (fun v => ltb v f0) msg_vol_negative prompt
                (stdin c) (stdout c)) as (r & c2 & E & _ & Hr).
    assert (Heq : (Returned v, c') = (r, c2)) by (rewrite <- H; exact E).
    injection Heq as <- <-.
    destruct Hr as (Hrej & _).
    destruct v as [x| | |]; cbn in Hrej; try discriminate.
    + left. exists x. split; [reflexivity|]. apply Rltb_false. exact Hrej.
    + right. left. reflexivity.
    + right. right. reflexivity.
  - rewrite read_corr_scan. intros H. injection H as H.
    destruct (scan_result strip float_of_str
                (fun v => ltb v (of_Z (-1)) || gtb v (of_Z 1)) msg_corr_range prompt
                (stdin c) (stdout c)) as (r & c2 & E & _ & Hr).
    assert (Heq : (Returned v, c') = (r, c2)) by (rewrite <- H; exact E).
    injection Heq as <- <-.
    destruct Hr as (Hrej & _). apply orb_false_iff in Hrej as (H1 & H2).
    destruct v as [x| | |]; cbn in H1, H2; try discriminate.
    + left. exists x. split; [reflexivity|].
      apply Rltb_false in H1. apply Rltb_false in H2. lra.
    + right. reflexivity.
  - intros line rest out Hnan. split.
    + apply read_vol_accepts; [exact Hnan | reflexivity].
    + apply read_corr_accepts; [exact Hnan | reflexivity | reflexivity].
Qed.

Section Main.
Context (strip : string -> string) (float_of_str : string -> option xreal).
Context (format_4f format_4pct : xreal -> string).

Local Abbreviation read_vol := (_read_vol strip float_of_str).
Local Abbreviation read_corr := (_read_corr strip float_of_str).
Local Abbreviation main := (main strip float_of_str format_4f format_4pct).

(** What [main] prints, in exact arithmetic, once its readers have
    returned finite values: the line of the degenerate case when a
    volatility is zero, without calling the solver; otherwise, for a
    correlation strictly between -1 and 1, the weights of the closed form
    and the volatility at these weights. *)
Theorem main_reports_minimum_variance_hedge :
  forall (c c1 c2 c3 : console) (va vb co : R),
    read_vol prompt_eurusd (after_banner c) = Some (Returned (Fin va), c1) ->
    read_vol prompt_usdjpy c1 = Some (Returned (Fin vb), c2) ->
    read_corr prompt_corr c2 = Some (Returned (Fin co), c3) ->
    (va = 0 /\ vb = 0 ->
     main c = Some (Returned tt, write (Line line_both_zero) c3))
    /\ (va = 0 /\ vb <> 0 ->
        main c = Some (Returned tt, write (Line line_all_eur) c3))
    /\ (va <> 0 /\ vb = 0 ->
        main c = Some (Returned tt, write (Line line_all_jpy) c3))
    /\ (va <> 0 /\ vb <> 0 /\ -1 < co < 1 ->
        let S := va * va + vb * vb + 2 * co * va * vb in
        main c
        = Some (Returned tt,
                {| stdin := stdin c3;
                   stdout :=
                     stdout c3
                     ++ [Line line_weights;
                         Line ("EUR weight: "
                               ++ format_4f (Fin ((vb * vb + co * va * vb) / S)));
                         Line ("JPY weight: "
                               ++ format_4f (Fin ((va * va + co * va * vb) / S)));
                         Line line_usd;
                         Line ("Portfolio volatility: "
                               ++ format_4pct
                                    (Fin (R_sqrt.sqrt
                                            (va * va * (vb * vb) * (1 - co * co) / S))))]
                |})).
Proof.
  intros c c1 c2 c3 va vb co H1 H2 H3.
  rewrite (main_after_readers strip float_of_str format_4f format_4pct
             c c1 c2 c3 _ _ _ H1 H2 H3).
  rewrite f0_fin, !eqb_fin.
  split; [|split; [|split]].
  - intros (-> & ->).
    assert (E : Reqb 0 0 = true) by (apply Reqb_true; reflexivity).
    rewrite E. reflexivity.
  - intros (-> & Hvb).
    assert (E : Reqb 0 0 = true) by (apply Reqb_true; reflexivity).
    assert (E' : Reqb vb 0 = false) by (apply Reqb_false; exact Hvb).
    rewrite E, E'. reflexivity.
  - intros (Hva & ->).
    assert (E : Reqb 0 0 = true) by (apply Reqb_true; reflexivity).
    assert (E' : Reqb va 0 = false) by (apply Reqb_false; exact Hva).
    rewrite E, E'. reflexivity.
  - intros (Hva & Hvb & Hco) S.
    assert (E : Reqb va 0 = false) by (apply Reqb_false; exact Hva).
    assert (E' : Reqb vb 0 = false) by (apply Reqb_false; exact Hvb).
    rewrite E, E'. cbn [andb].
    unfold io_bind at 1. unfold call at 1.
    rewrite (hedge_weights_fin va vb co Hva Hvb Hco). cbv zeta. fold S.
    unfold io_bind at 1. unfold call at 1.
    destruct (hedged_volatility_fin va vb co Hva Hvb Hco) as (_ & Hvol).
    cbv zeta in Hvol. fold S in Hvol. rewrite Hvol.
    unfold io_bind, print, write. cbn [stdin stdout].
    rewrite <- !app_assoc. reflexivity.
Qed.

End Main.

Section MainExceptions.
Context {F : Type} {ops : Float64 F}.
Context (strip : string -> string) (float_of_str : string -> option F).
Context (format_4f format_4pct : F -> string).

(** [main] does not catch the exceptions of the solver.  In every float
    arithmetic, when the readers have returned volatilities that are not
    zero and [min_variance_weights] raises on what they returned, [main]
    ends with that exception, nothing printed after the prompts. *)
Theorem main_propagates_solver_exception :
  forall (c c1 c2 c3 : console) (va vb co : F) (e : exn),
    _read_vol strip float_of_str prompt_eurusd (after_banner c)
    = Some (Returned va, c1) ->
    _read_vol strip float_of_str prompt_usdjpy c1 = Some (Returned vb, c2) ->
    _read_corr strip float_of_str prompt_corr c2 = Some (Returned co, c3) ->
    eqb va f0 = false -> eqb vb f0 = false ->
    min_variance_weights va vb co = Raise e ->
    main strip float_of_str format_4f format_4pct c = Some (Uncaught e, c3).
Proof.
  intros c c1 c2 c3 va vb co e H1 H2 H3 Hva Hvb He.
  rewrite (main_after_readers strip float_of_str format_4f format_4pct
             c c1 c2 c3 _ _ _ H1 H2 H3).
  rewrite Hva, Hvb. cbn [andb].
  unfold io_bind at 1. unfold call at 1. rewrite He. reflexivity.
Qed.
End MainExceptions.


Lemma main_reports_minimum_variance_hedge_witness :
  main example_strip example_float example_format example_format
    (example_input ["0.1"; "0.2"; "0.5"])
  = Some (Returned tt,
          {| stdin := [];
             stdout :=
               [Line line_title; Line line_hint; Prompt prompt_eurusd;
                Prompt prompt_usdjpy; Prompt prompt_corr]
               ++ [Line line_weights;
                   Line ("EUR weight: "
                         ++ example_format
                              (Fin ((0.2 * 0.2 + 0.5 * 0.1 * 0.2)
                                    / (0.1 * 0.1 + 0.2 * 0.2 + 2 * 0.5 * 0.1 * 0.2))));
                   Line ("JPY weight: "
                         ++ example_format
                              (Fin ((0.1 * 0.1 + 0.5 * 0.1 * 0.2)
                                    / (0.1 * 0.1 + 0.2 * 0.2 + 2 * 0.5 * 0.1 * 0.2))));
                   Line line_usd;
                   Line ("Portfolio volatility: "
                         ++ example_format
                              (Fin (R_sqrt.sqrt
                                      (0.1 * 0.1 * (0.2 * 0.2) * (1 - 0.5 * 0.5)
                                       / (0.1 * 0.1 + 0.2 * 0.2
                                          + 2 * 0.5 * 0.1 * 0.2)))))] |}).
Proof.
  destruct (example_readers "0.1" "0.2" "0.5" 0.1 0.2 0.5
              eq_refl ltac:(lra) eq_refl ltac:(lra) eq_refl ltac:(lra))
    as (H1 & H2 & H3).
  refine (proj2 (proj2 (proj2
            (main_reports_minimum_variance_hedge example_strip example_float
               example_format example_format _ _ _ _ 0.1 0.2 0.5 H1 H2 H3))) _).
  repeat split; lra.
Defined.

Lemma main_propagates_solver_exception_witness :
  main example_strip example_float64 example_format64 example_format64
    (example_input ["1e200"; "0.1"; "0"])
  = Some (Uncaught (OverflowError msg_pow_overflow),
          {| stdin := [];
             stdout := [Line line_title; Line line_hint; Prompt prompt_eurusd;
                        Prompt prompt_usdjpy; Prompt prompt_corr] |}).
Proof.
  refine (main_propagates_solver_exception example_strip example_float64
            example_format64 example_format64
            (example_input ["1e200"; "0.1"; "0"])
            {| stdin := ["0.1"; "0"];
               stdout := [Line line_title; Line line_hint; Prompt prompt_eurusd] |}
            {| stdin := ["0"];
               stdout := [Line line_title; Line line_hint; Prompt prompt_eurusd;
                          Prompt prompt_usdjpy] |}
            {| stdin := [];
               stdout := [Line line_title; Line line_hint; Prompt prompt_eurusd;
                          Prompt prompt_usdjpy; Prompt prompt_corr] |}
            (lit 1 200) B64.tenth f0 (OverflowError msg_pow_overflow)
            _ _ _ _ _ _); vm_compute; reflexivity.
Defined.
